(** * Apple device-tree blobs: the node tree, its wire format and paths

    A shallow embedding of [hw/arm/apple-silicon/dtb.c]: the property
    store and node tree, the deserialiser, the placeholder resolver, the
    size calculator, the serialiser and the path resolver, followed by the
    properties the specification states about them.

    Conventions of the embedding.
    - A byte is an [ascii]; a C string is the [list ascii] of its
      characters, its terminating NUL left implicit; hash-table keys are
      [string]s.
    - [uint32_t] and [uint64_t] values are [Z]s, every wrap-around written
      with [wrap32] and [wrap64].
    - A non-null pointer into the blob is a 64-bit address ([Z], advanced
      with [ptr_add]); memory is a total map from addresses to bytes.  A
      pointer that may be NULL is an [option].
    - A C function that can stop on a failed [g_assert], or read past the
      end of an allocation, returns an [outcome]. *)

From Stdlib Require Import ZArith Lia List Ascii String.
From stdpp Require Import base option list gmap strings fin_maps.

Local Open Scope Z_scope.

(** ** Machine integers *)

Definition wrap32 (z : Z) : Z := z mod 2 ^ 32.
Definition wrap64 (z : Z) : Z := z mod 2 ^ 64.

(** [#define DT_PROP_NAME_LEN (32)] and [#define DT_PROP_PLACEHOLDER (1 << 31)]. *)
Definition DT_PROP_NAME_LEN : Z := 32.
Definition DT_PROP_PLACEHOLDER : Z := Z.shiftl 1 31.

(** Modelled from the spec: the macros [ROUND_DOWN] and [ROUND_UP] come from
    [qemu/osdep.h], which is not part of the sources at hand.  The
    specification says "the payload length rounded up to a multiple of 4";
    both uses apply the macro to a [uint32_t], so the sum and the mask are
    taken in 32 bits: [ROUND_DOWN(n, d) = n & -d] and
    [ROUND_UP(n, d) = ROUND_DOWN(n + d - 1, d)]. *)
Definition ROUND_DOWN (n d : Z) : Z := Z.land n (wrap32 (- d)).
Definition ROUND_UP (n d : Z) : Z := ROUND_DOWN (wrap32 (n + d - 1)) d.

(** ** Outcomes *)

(** What a call can end in: a normal return, a failed [g_assert], or a read
    that runs past the end of the allocation it started in (undefined
    behaviour in C).  [Overflow] is the recursion of the deserialiser going
    deeper than the stack allows. *)
Inductive outcome (A : Type) : Type :=
| Done (a : A)
| Abort
| Fault
| Overflow.
Arguments Done {A} a.
Arguments Abort {A}.
Arguments Fault {A}.
Arguments Overflow {A}.

Definition outcome_bind {A B : Type} (x : outcome A) (f : A → outcome B) : outcome B :=
  match x with
  | Done a => f a
  | Abort => Abort
  | Fault => Fault
  | Overflow => Overflow
  end.

Notation "'do' x <- c1 ; c2" := (outcome_bind c1 (fun x => c2))
  (at level 10, x pattern, c1 at level 100, c2 at level 200,
   format "'[v' 'do'  x  <-  c1 ; '/' c2 ']'").

(** ** Bytes, C strings and memory *)

Definition NUL : ascii := Ascii.zero.

Definition is_nul (c : ascii) : bool := Ascii.eqb c NUL.

Definition byte_of_Z (z : Z) : ascii := ascii_of_N (Z.to_N (z mod 256)).
Definition Z_of_byte (b : ascii) : Z := Z.of_N (N_of_ascii b).

Abbreviation str := list_ascii_of_string.

(** The characters of the C string that starts a buffer: everything before
    the first NUL.  [None] when the buffer holds no NUL, that is when
    reading the string runs off the end of the buffer. *)
Fixpoint c_str (buf : list ascii) : option (list ascii) :=
  match buf with
  | [] => None
  | c :: rest => if is_nul c then Some [] else cons c <$> c_str rest
  end.

(** [strncmp(s1, s2, n) == 0].  Each list is a C string or the [n] bytes of
    a buffer; past the end of a list the terminator is read. *)
Fixpoint strncmp_eq (s1 s2 : list ascii) (n : nat) : bool :=
  match n with
  | O => true
  | S k =>
      let c1 := hd NUL s1 in
      let c2 := hd NUL s2 in
      if negb (Ascii.eqb c1 c2) then false
      else if is_nul c1 then true
      else strncmp_eq (tl s1) (tl s2) k
  end.

(** What [strncpy(dst, src, n)] writes: exactly [n] bytes, the characters of
    [src] up to its terminator, then NULs. *)
Fixpoint strncpy_bytes (src : list ascii) (n : nat) {struct n} : list ascii :=
  match n with
  | O => []
  | S k =>
      match src with
      | c :: rest => if is_nul c then NUL :: repeat NUL k else c :: strncpy_bytes rest k
      | [] => NUL :: repeat NUL k
      end
  end.

(** Modelled from the spec: [qemu_strsep] comes from [qemu/cutils.h], which
    is not part of the sources at hand.  "The text is split on commas" (on
    slashes for a path): the loop [while ((token = qemu_strsep(&next, d)))]
    sees, in order, the pieces between the delimiters, the empty ones
    included; a string without delimiter is one token. *)
Fixpoint strsep_all (delim : ascii) (s : list ascii) : list (list ascii) :=
  match s with
  | [] => [[]]
  | c :: rest =>
      if Ascii.eqb c delim then [] :: strsep_all delim rest
      else match strsep_all delim rest with
           | token :: tokens => (c :: token) :: tokens
           | [] => [[c]]
           end
  end.

(** Memory and pointers. *)
Definition mem : Type := Z → ascii.

Definition ptr_add (p n : Z) : Z := wrap64 (p + n).

Definition store8 (m : mem) (p : Z) (b : ascii) : mem :=
  fun a => if Z.eqb a p then b else m a.

Fixpoint store_bytes (m : mem) (p : Z) (l : list ascii) : mem :=
  match l with
  | [] => m
  | b :: rest => store_bytes (store8 m p b) (ptr_add p 1) rest
  end.

Fixpoint load_bytes (m : mem) (p : Z) (n : nat) : list ascii :=
  match n with
  | O => []
  | S k => m p :: load_bytes m (ptr_add p 1) k
  end.

(** [strnlen(p, maxlen)] on memory. *)
Fixpoint strnlen (m : mem) (p : Z) (maxlen : nat) : nat :=
  match maxlen with
  | O => O
  | S k => if is_nul (m p) then O else S (strnlen m (ptr_add p 1) k)
  end.

(** Modelled from the spec: [ldl_le_p] and [stl_le_p] come from
    [qemu/bswap.h], which is not part of the sources at hand; "all
    multi-byte integers little-endian", 32 bits each. *)
Definition le32_bytes (v : Z) : list ascii :=
  [byte_of_Z v; byte_of_Z (v / 2 ^ 8); byte_of_Z (v / 2 ^ 16); byte_of_Z (v / 2 ^ 24)].

Definition le32_value (l : list ascii) : Z :=
  fold_right (fun b acc => Z_of_byte b + 256 * acc) 0 l.

Definition stl_le_p (m : mem) (p : Z) (v : Z) : mem := store_bytes m p (le32_bytes v).
Definition ldl_le_p (m : mem) (p : Z) : Z := le32_value (load_bytes m p 4).

(** ** The data model *)

(** [DTBProp]: [length], [placeholder], [data].  Both constructors of the
    file ([dtb_set_prop], [dtb_deserialise_prop]) allocate exactly [length]
    bytes for [data], and leave [data] NULL (here: empty) when [length] is 0. *)
Record DTBProp : Type := mkProp {
  prop_length : Z;
  prop_placeholder : bool;
  prop_data : list ascii;
}.

(** [DTBNode]: the hash table [props], keyed by name, and the list
    [children]. *)
Unset Elimination Schemes.
Inductive DTBNode : Type :=
| mkNode (props : gmap string DTBProp) (children : list DTBNode).
Set Elimination Schemes.

Definition props (n : DTBNode) : gmap string DTBProp :=
  match n with mkNode ps _ => ps end.
Definition children (n : DTBNode) : list DTBNode :=
  match n with mkNode _ cs => cs end.

(** The [length] bytes at [data]. *)
Definition prop_bytes (p : DTBProp) : list ascii :=
  take (Z.to_nat (prop_length p)) (prop_data p).

(** [dtb_new_node]. *)
Definition dtb_new_node : DTBNode := mkNode ∅ [].

(** ** Parsing numbers *)

(** Modelled from the spec: [g_ascii_strtoull] belongs to GLib and is not
    part of the sources at hand.  The specification has the number "parsed
    as an unsigned integer accepting decimal or 0x-prefixed hexadecimal";
    the calls pass base 0, for which the library, like C's [strtoull], skips
    leading white space, accepts a sign, reads a leading [0x] as
    hexadecimal and any other leading [0] as octal, stops at the first
    character that is not a digit of the base, saturates at [G_MAXUINT64],
    and returns 0 when no digit was read. *)
Definition isspace (c : ascii) : bool :=
  let n := Z_of_byte c in (n =? 32) || ((9 <=? n) && (n <=? 13)).

Definition digit_value (c : ascii) : option Z :=
  let n := Z_of_byte c in
  if (48 <=? n) && (n <=? 57) then Some (n - 48)
  else if (65 <=? n) && (n <=? 90) then Some (n - 65 + 10)
  else if (97 <=? n) && (n <=? 122) then Some (n - 97 + 10)
  else None.

Definition G_MAXUINT64 : Z := 2 ^ 64 - 1.

(** The digit loop: the value so far, whether it overflowed, and whether any
    digit was read. *)
Fixpoint parse_digits (base : Z) (s : list ascii) (ui64 : Z) (overflow any : bool)
  : Z * bool * bool :=
  match s with
  | [] => (ui64, overflow, any)
  | c :: rest =>
      match digit_value c with
      | None => (ui64, overflow, any)
      | Some d =>
          if base <=? d then (ui64, overflow, any)
          else if (G_MAXUINT64 / base <? ui64)
                  || ((ui64 =? G_MAXUINT64 / base) && (G_MAXUINT64 mod base <? d))
          then parse_digits base rest ui64 true true
          else parse_digits base rest (ui64 * base + d) overflow true
      end
  end.

Fixpoint skip_spaces (s : list ascii) : list ascii :=
  match s with
  | c :: rest => if isspace c then skip_spaces rest else s
  | [] => []
  end.

Definition g_ascii_strtoull (nptr : list ascii) : Z :=
  let s := skip_spaces nptr in
  let '(negative, s) :=
    match s with
    | c :: rest =>
        if Ascii.eqb c "-" then (true, rest)
        else if Ascii.eqb c "+" then (false, rest)
        else (false, s)
    | [] => (false, s)
    end in
  let '(base, s) :=
    match s with
    | c :: rest =>
        if Ascii.eqb c "0" then
          match rest with
          | x :: rest' =>
              if Ascii.eqb x "x" || Ascii.eqb x "X" then (16, rest') else (8, s)
          | [] => (8, s)
          end
        else (10, s)
    | [] => (10, s)
    end in
  let '(ui64, overflow, any) := parse_digits base s 0 false false in
  let result := if negb any then 0 else if overflow then G_MAXUINT64 else ui64 in
  if negative then wrap64 (- result) else result.

(** ** Property store *)

(** [dtb_find_prop]. *)
Definition dtb_find_prop (node : DTBNode) (name : string) : option DTBProp :=
  props node !! name.

(** [dtb_set_prop(node, name, size, val)]: [val] is NULL or the bytes it
    points to.  Returns the node after the call. *)
Definition dtb_set_prop (node : DTBNode) (name : string) (size : Z)
    (val : option (list ascii)) : outcome DTBNode :=
  let size := wrap32 size in
  if match val with
     | None => negb (size =? 0)
     | Some _ => size =? 0
     end then Abort
  else if negb (Z.of_nat (String.length name) <? DT_PROP_NAME_LEN) then Abort
  else
    let prop :=
      {| prop_length := size;
         prop_placeholder := false;
         prop_data := match val with
                      | Some bytes => take (Z.to_nat size) bytes
                      | None => []
                      end |} in
    Done (mkNode (<[name := prop]> (props node)) (children node)).

(** [dtb_set_prop_null]. *)
Definition dtb_set_prop_null (node : DTBNode) (name : string) : outcome DTBNode :=
  dtb_set_prop node name 0 None.

(** [dtb_set_prop_str]: [strlen(val) + 1] bytes, the terminator included. *)
Definition dtb_set_prop_str (node : DTBNode) (name : string) (val : list ascii)
  : outcome DTBNode :=
  dtb_set_prop node name (Z.of_nat (length val) + 1) (Some (val ++ [NUL])).

(** ** Path resolver *)

(** The test on one child in [dtb_get_node]: it has a [name] property and
    [strncmp(prop->data, token, prop->length) == 0]. *)
Definition name_matches (token : list ascii) (child : DTBNode) : bool :=
  match dtb_find_prop child "name" with
  | None => false
  | Some prop => strncmp_eq (prop_data prop) token (Z.to_nat (prop_length prop))
  end.

(** The scan of the children in [dtb_get_node]: the first child that
    passes the test. *)
Fixpoint find_child (cs : list DTBNode) (token : list ascii) : option DTBNode :=
  match cs with
  | [] => None
  | child :: rest =>
      if name_matches token child then Some child else find_child rest token
  end.

(** The [while] loop of [dtb_get_node] over the tokens [qemu_strsep] yields. *)
Fixpoint get_node_tokens (node : option DTBNode) (tokens : list (list ascii))
  : option DTBNode :=
  match node with
  | None => None
  | Some n =>
      match tokens with
      | [] => Some n
      | [] :: rest => get_node_tokens (Some n) rest
      | token :: rest =>
          match find_child (children n) token with
          | Some child => get_node_tokens (Some child) rest
          | None => None
          end
      end
  end.

(** [dtb_get_node(node, path)]; NULL is [None]. *)
Definition dtb_get_node (node : option DTBNode) (path : list ascii) : option DTBNode :=
  get_node_tokens node (strsep_all "/" path).

(** ** Node tree *)

(** [dtb_create_node(parent, name)]: the node returned (or NULL), and the
    parent after the call. *)
Definition dtb_create_node (parent : option DTBNode) (name : option (list ascii))
  : outcome (option DTBNode * option DTBNode) :=
  if match parent with
     | Some p =>
         match name with
         | None => true
         | Some s => bool_decide (is_Some (dtb_get_node (Some p) s))
         end
     | None => false
     end
  then Done (None, parent)
  else
    do node <- match name with
               | Some s => dtb_set_prop_str dtb_new_node "name" s
               | None => Done dtb_new_node
               end;
    Done (Some node,
          match parent with
          | Some p => Some (mkNode (props p) (children p ++ [node]))
          | None => None
          end).

(** ** Placeholder resolver *)

(** The [while] loop of [dtb_get_placeholder_size] over the tokens. *)
Fixpoint placeholder_size_tokens (tokens : list (list ascii)) : Z :=
  match tokens with
  | [] => 0
  | token :: rest =>
      if bool_decide (token = []) then placeholder_size_tokens rest
      else if strncmp_eq token (str "macaddr/") 8 then 6
      else if strncmp_eq token (str "syscfg/") 7 then
        if (Z.of_nat (length token) <? 12) || negb (Ascii.eqb (nth 11 token NUL) "/")
        then placeholder_size_tokens rest
        else
          let len := wrap32 (g_ascii_strtoull (drop (8 + 4) token)) in
          if len =? 0 then placeholder_size_tokens rest else len
      else if strncmp_eq token (str "zeroes/") 7 then
        wrap32 (g_ascii_strtoull (drop 7 token))
      else placeholder_size_tokens rest
  end.

(** [dtb_get_placeholder_size]: the assertion, the copy of [length] bytes
    into a buffer of [length] bytes, and the loop.  The copy gets no
    terminator of its own: a text without NUL is read past its end.
    [Fault] is given to every such text, also to one in which a token
    that ends in a comma would decide before the loop comes to the end of
    the copy; there [Fault] is stricter than the code. *)
Definition dtb_get_placeholder_size (prop : DTBProp) : outcome Z :=
  if negb (0 <? prop_length prop) then Abort
  else
    match c_str (prop_bytes prop) with
    | None => Fault
    | Some text => Done (placeholder_size_tokens (strsep_all "," text))
    end.

(** ** Size calculator and serialiser *)

(** [dtb_get_serialised_prop_size]. *)
Definition dtb_get_serialised_prop_size (prop : DTBProp) : outcome Z :=
  if prop_placeholder prop then
    do placeholder_size <- dtb_get_placeholder_size prop;
    if placeholder_size =? 0 then Done 0
    else Done (wrap64 (DT_PROP_NAME_LEN + 4 + ROUND_UP placeholder_size 4))
  else Done (wrap64 (DT_PROP_NAME_LEN + 4 + ROUND_UP (prop_length prop) 4)).

(** The body of the property loop of [dtb_serialise_node], on the memory, the
    cursor [*buf] and [prop_count]. *)
Definition serialise_prop (key : string) (prop : DTBProp) (st : mem * Z * Z)
  : outcome (mem * Z * Z) :=
  let '(m, buf, prop_count) := st in
  if prop_placeholder prop then
    do placeholder_size <- dtb_get_placeholder_size prop;
    if placeholder_size =? 0 then Done (m, buf, wrap32 (prop_count - 1))
    else
      let m := store_bytes m buf (strncpy_bytes (str key) (Z.to_nat DT_PROP_NAME_LEN)) in
      let buf := ptr_add buf DT_PROP_NAME_LEN in
      let m := stl_le_p m buf placeholder_size in
      let buf := ptr_add buf 4 in
      let buf := ptr_add buf (ROUND_UP placeholder_size 4) in
      Done (m, buf, prop_count)
  else
    let m := store_bytes m buf (strncpy_bytes (str key) (Z.to_nat DT_PROP_NAME_LEN)) in
    let buf := ptr_add buf DT_PROP_NAME_LEN in
    let m := stl_le_p m buf (prop_length prop) in
    let buf := ptr_add buf 4 in
    if negb (prop_length prop =? 0) then
      let m := store_bytes m buf (prop_bytes prop) in
      let buf := ptr_add buf (ROUND_UP (prop_length prop) 4) in
      Done (m, buf, prop_count)
    else Done (m, buf, prop_count).

Fixpoint serialise_props (l : list (string * DTBProp)) (st : mem * Z * Z)
  : outcome (mem * Z * Z) :=
  match l with
  | [] => Done st
  | (key, prop) :: rest =>
      do st' <- serialise_prop key prop st;
      serialise_props rest st'
  end.

(** The property loop of [dtb_get_serialised_node_size]. *)
Fixpoint props_size (l : list (string * DTBProp)) (size : Z) : outcome Z :=
  match l with
  | [] => Done size
  | (_, prop) :: rest =>
      do n <- dtb_get_serialised_prop_size prop;
      props_size rest (wrap64 (size + n))
  end.

(** The loop over [node->children] of [dtb_get_serialised_node_size], for a
    given size of one child. *)
Definition children_size (node_size : DTBNode → outcome Z)
  : list DTBNode → Z → outcome Z :=
  fix children_loop (iter : list DTBNode) (size : Z) : outcome Z :=
    match iter with
    | [] => Done size
    | child :: next =>
        do n <- node_size child;
        children_loop next (wrap64 (size + n))
    end.

(** [g_list_foreach(node->children, dtb_serialise_node, buf)]. *)
Definition g_list_foreach (f : DTBNode → mem * Z → outcome (mem * Z))
  : list DTBNode → mem * Z → outcome (mem * Z) :=
  fix foreach (l : list DTBNode) (st : mem * Z) : outcome (mem * Z) :=
    match l with
    | [] => Done st
    | child :: next =>
        do st' <- f child st;
        foreach next st'
    end.

Section Traversals.

(** The order in which [g_hash_table_iter_next] walks a table.  GLib leaves
    it unspecified; it is the same for two walks of an unmodified table,
    and every key is visited once. *)
Variable ht_iter : gmap string DTBProp → list (string * DTBProp).

(** [dtb_get_serialised_node_size]. *)
Fixpoint dtb_get_serialised_node_size (node : DTBNode) : outcome Z :=
  match node with
  | mkNode ps cs =>
      let size := 4 + 4 in
      do size <- props_size (ht_iter ps) size;
      children_size dtb_get_serialised_node_size cs size
  end.

(** [dtb_serialise_node(node, buf)], on the memory and the cursor [*buf]. *)
Fixpoint dtb_serialise_node (node : DTBNode) (st : mem * Z) : outcome (mem * Z) :=
  match node with
  | mkNode ps cs =>
      let '(m, buf) := st in
      let prop_count := wrap32 (Z.of_nat (size ps)) in
      let prop_count_ptr := buf in
      let buf := ptr_add buf 4 in
      let m := stl_le_p m buf (wrap32 (Z.of_nat (length cs))) in
      let buf := ptr_add buf 4 in
      do (m, buf, prop_count) <- serialise_props (ht_iter ps) (m, buf, prop_count);
      let m := stl_le_p m prop_count_ptr prop_count in
      g_list_foreach dtb_serialise_node cs (m, buf)
  end.

(** [dtb_serialise(buf, root)]: the memory after the call. *)
Definition dtb_serialise (m : mem) (buf : Z) (root : DTBNode) : outcome mem :=
  do (m', _) <- dtb_serialise_node root (m, buf);
  Done m'.

End Traversals.

(** ** Deserialiser *)

(** [dtb_deserialise_prop]: the property (never NULL: [g_new0] does not
    return on failure), the name, and the cursor after the record. *)
Definition dtb_deserialise_prop (m : mem) (dtb_blob : Z) : option DTBProp * string * Z :=
  let name_len := strnlen m dtb_blob (Z.to_nat DT_PROP_NAME_LEN) in
  let name := string_of_list_ascii (load_bytes m dtb_blob name_len) in
  let dtb_blob := ptr_add dtb_blob DT_PROP_NAME_LEN in
  let length := ldl_le_p m dtb_blob in
  let placeholder := negb (Z.land length DT_PROP_PLACEHOLDER =? 0) in
  let length :=
    if placeholder then Z.land length (wrap32 (Z.lnot DT_PROP_PLACEHOLDER)) else length in
  let dtb_blob := ptr_add dtb_blob 4 in
  if negb (length =? 0) then
    (Some (mkProp length placeholder (load_bytes m dtb_blob (Z.to_nat length))),
     name, ptr_add dtb_blob (ROUND_UP length 4))
  else (Some (mkProp length placeholder []), name, dtb_blob).

(** The property loop of [dtb_deserialise_node]: [None] is its
    [return NULL]. *)
Fixpoint deserialise_props (count : nat) (m : mem) (ps : gmap string DTBProp)
    (dtb_blob : Z) : outcome (option (gmap string DTBProp * Z)) :=
  match count with
  | O => Done (Some (ps, dtb_blob))
  | S count' =>
      let '(prop, key, dtb_blob) := dtb_deserialise_prop m dtb_blob in
      if negb (bool_decide (key = ""%string)) then
        match prop with
        | None => Done None
        | Some prop =>
            if bool_decide (is_Some (ps !! key)) then Abort
            else deserialise_props count' m (<[key := prop]> ps) dtb_blob
        end
      else deserialise_props count' m ps dtb_blob
  end.

(** The loop over the children of [dtb_deserialise_node], for a given
    deserialiser of one child. *)
Definition deserialise_children
    (child_node : option Z → outcome (option (DTBNode * Z)))
    (ps : gmap string DTBProp)
  : nat → list DTBNode → Z → outcome (option (DTBNode * Z)) :=
  fix children_loop (count : nat) (cs : list DTBNode) (dtb_blob : Z)
    : outcome (option (DTBNode * Z)) :=
    match count with
    | O => Done (Some (mkNode ps cs, dtb_blob))
    | S count' =>
        do child <- child_node (Some dtb_blob);
        match child with
        | None => Done None
        | Some (child, dtb_blob) => children_loop count' (cs ++ [child]) dtb_blob
        end
    end.

(** [dtb_deserialise_node]: [None] is NULL, for the cursor that comes in
    and for the node that goes out.  [depth] bounds the recursion. *)
Fixpoint dtb_deserialise_node (depth : nat) (m : mem) (dtb_blob : option Z)
  : outcome (option (DTBNode * Z)) :=
  match depth with
  | O => Overflow
  | S depth' =>
      match dtb_blob with
      | None => Done None
      | Some dtb_blob =>
          let prop_count := ldl_le_p m dtb_blob in
          let dtb_blob := ptr_add dtb_blob 4 in
          let children_count := ldl_le_p m dtb_blob in
          let dtb_blob := ptr_add dtb_blob 4 in
          do r <- deserialise_props (Z.to_nat prop_count) m ∅ dtb_blob;
          match r with
          | None => Done None
          | Some (ps, dtb_blob) =>
              deserialise_children (dtb_deserialise_node depth' m) ps
                (Z.to_nat children_count) [] dtb_blob
          end
      end
  end.

(** [dtb_deserialise(dtb_blob)]. *)
Definition dtb_deserialise (depth : nat) (m : mem) (dtb_blob : option Z)
  : outcome (option DTBNode) :=
  do r <- dtb_deserialise_node depth m dtb_blob;
  Done (fst <$> r).

(** ** Definitions used in the statements *)

(** A placeholder property that holds the C string [text], terminator
    included. *)
Definition placeholder_prop (text : string) : DTBProp :=
  mkProp (Z.of_nat (String.length text) + 1) true (str text ++ [NUL]).

(** The placeholder grammar read one token at a time: the length a token
    decides, or [None] for a token that decides nothing and is passed
    over. *)
Definition spec_token_size (token : list ascii) : option Z :=
  if bool_decide (str "macaddr/" `prefix_of` token) then Some 6
  else if bool_decide (str "syscfg/" `prefix_of` token) then
    if bool_decide (12 ≤ Z.of_nat (length token) ∧ token !! 11%nat = Some "/"%char) then
      let n := wrap32 (g_ascii_strtoull (drop 12 token)) in
      if bool_decide (n = 0) then None else Some n
    else None
  else if bool_decide (str "zeroes/" `prefix_of` token) then
    Some (wrap32 (g_ascii_strtoull (drop 7 token)))
  else None.

(** The first [n] characters of the C string [s]. *)
Fixpoint strn (n : nat) (s : list ascii) : list ascii :=
  match n, s with
  | S k, c :: rest => if is_nul c then [] else c :: strn k rest
  | _, _ => []
  end.

(** Path resolution in the words of the specification: one step takes the
    first child whose name matches, and the walk goes along the non-empty
    segments. *)
Definition spec_step (node : DTBNode) (segment : list ascii) : option DTBNode :=
  snd <$> list_find (fun child => name_matches segment child = true) (children node).

Definition spec_resolve (node : DTBNode) (path : list ascii) : option DTBNode :=
  foldl (fun acc segment => acc ≫= fun n => spec_step n segment) (Some node)
        (filter (fun segment => segment ≠ []) (strsep_all "/" path)).

(** The tree root → [cpu0] → [reg].  In C the child of the root and the
    parent of [reg] are one object: [example_cpu0_fresh] is [cpu0] as
    [dtb_create_node] returns it, [example_cpu0] the same node once [reg]
    was created under it. *)
Definition example_reg : DTBNode :=
  mkNode {[ "name"%string := mkProp 4 false (str "reg" ++ [NUL]) ]} [].
Definition example_cpu0_fresh : DTBNode :=
  mkNode {[ "name"%string := mkProp 5 false (str "cpu0" ++ [NUL]) ]} [].
Definition example_cpu0 : DTBNode :=
  mkNode {[ "name"%string := mkProp 5 false (str "cpu0" ++ [NUL]) ]} [example_reg].
Definition example_root : DTBNode := mkNode ∅ [example_cpu0].

(** A property that the serialiser leaves out: a placeholder whose text
    resolves to 0. *)
Definition is_dropped (prop : DTBProp) : bool :=
  prop_placeholder prop
  && match dtb_get_placeholder_size prop with
     | Done n => n =? 0
     | _ => false
     end.

(** [check] holds of every property of every node of the tree. *)
Fixpoint all_props (check : DTBProp → bool) (node : DTBNode) : bool :=
  match node with
  | mkNode ps cs =>
      bool_decide (map_Forall (fun _ prop => check prop = true) ps)
      && forallb (all_props check) cs
  end.

(** A placeholder has a nonzero length. *)
Definition placeholder_nonempty (prop : DTBProp) : bool :=
  negb (prop_placeholder prop) || (0 <? prop_length prop).

(** The text of a placeholder of nonzero length has a NUL among its
    [length] bytes. *)
Definition placeholder_text_ends (prop : DTBProp) : bool :=
  negb (prop_placeholder prop) || negb (0 <? prop_length prop)
  || bool_decide (is_Some (c_str (prop_bytes prop))).

(** The bytes a record takes on the wire, and those of a whole tree, as
    plain integers (no wrap-around). *)
Definition prop_record_bytes (prop : DTBProp) : Z :=
  match dtb_get_serialised_prop_size prop with
  | Done n => n
  | _ => 0
  end.

Definition props_bytes (l : list (string * DTBProp)) : Z :=
  foldr (fun kp acc => prop_record_bytes kp.2 + acc) 0 l.

Fixpoint node_bytes (ht_iter : gmap string DTBProp → list (string * DTBProp))
    (node : DTBNode) : Z :=
  match node with
  | mkNode ps cs =>
      8 + props_bytes (ht_iter ps) + foldr (fun child acc => node_bytes ht_iter child + acc) 0 cs
  end.

(** The depth of a tree. *)
Fixpoint height (node : DTBNode) : nat :=
  match node with
  | mkNode _ cs => S (foldr (fun child acc => Nat.max (height child) acc) O cs)
  end.

(** What a tree needs to come back from the wire as it went: no
    placeholder; every length is that of the data and fits the 31 bits of
    the length field; every name is a C string of 1 to 32 characters; the
    counts fit their 32-bit fields. *)
Definition prop_round_trips (prop : DTBProp) : bool :=
  negb (prop_placeholder prop)
  && bool_decide (prop_length prop = Z.of_nat (length (prop_data prop)))
  && (prop_length prop <? 2 ^ 31).

Definition name_round_trips (name : string) : bool :=
  negb (bool_decide (name = ""%string))
  && forallb (fun c => negb (is_nul c)) (str name)
  && (Z.of_nat (String.length name) <=? DT_PROP_NAME_LEN).

Fixpoint node_round_trips (node : DTBNode) : bool :=
  match node with
  | mkNode ps cs =>
      bool_decide (map_Forall (fun name prop =>
                     name_round_trips name && prop_round_trips prop = true) ps)
      && (Z.of_nat (size ps) <? 2 ^ 32)
      && (Z.of_nat (length cs) <? 2 ^ 32)
      && forallb node_round_trips cs
  end.

(** A memory that holds [bytes] from address [base] on, and [fill]
    everywhere else. *)
Definition mem_of_bytes (base : Z) (bytes : list ascii) (fill : ascii) : mem :=
  fun a => if (base <=? a) then nth (Z.to_nat (a - base)) bytes fill else fill.

(** Two outcomes that are the same failure. *)
Definition same_failure {A B : Type} (r : outcome A) (r' : outcome B) : Prop :=
  match r, r' with
  | Abort, Abort | Fault, Fault | Overflow, Overflow => True
  | _, _ => False
  end.

(** A property of some node of the tree. *)
Inductive prop_in_tree (prop : DTBProp) : DTBNode → Prop :=
| prop_here ps cs name : ps !! name = Some prop → prop_in_tree prop (mkNode ps cs)
| prop_below ps cs child :
    child ∈ cs → prop_in_tree prop child → prop_in_tree prop (mkNode ps cs).

(** A placeholder of nonzero length whose text has no terminator. *)
Definition unterminated_tree : DTBNode :=
  mkNode {[ "p"%string := mkProp 3 true (str "abc") ]} [].

(** The payload of a property that is no placeholder fits the room its
    record gives it ([ROUND_UP] wraps in 32 bits above [2 ^ 32 - 4]). *)
Definition payload_fits (prop : DTBProp) : bool :=
  prop_placeholder prop || (prop_length prop <=? 2 ^ 32 - 4).

(** A tree with a property, a placeholder that resolves to 0 and one that
    resolves to 5, above the node [cpu0]. *)
Definition example_placeholders : DTBNode :=
  mkNode {[ "a"%string := mkProp 3 false (str "xyz");
            "b"%string := placeholder_prop "zeroes/0";
            "c"%string := placeholder_prop "zeroes/5" ]} [example_cpu0_fresh].

(** The node with one marker property of empty name that
    [dtb_set_prop_null(node, "")] makes of a new node. *)
Definition example_nameless_prop : DTBNode :=
  mkNode {[ ""%string := mkProp 0 false [] ]} [].

(** The blob of a node with the one property [a] of four bytes, and the
    blob of a node with one child that has no property and no child. *)
Definition example_blob : list ascii :=
  le32_bytes 1 ++ le32_bytes 0
  ++ strncpy_bytes (str "a") 32 ++ le32_bytes 4 ++ str "wxyz".

Definition example_blob_with_child : list ascii :=
  le32_bytes 0 ++ le32_bytes 1 ++ le32_bytes 0 ++ le32_bytes 0.

(** ** The rest of the property store and of the node tree *)

(** [dtb_remove_prop_named]: whether [g_hash_table_remove] found the key,
    and the node after the call. *)
Definition dtb_remove_prop_named (node : DTBNode) (name : string) : bool * DTBNode :=
  (bool_decide (is_Some (props node !! name)),
   mkNode (delete name (props node)) (children node)).

(** Modelled from the spec: [cpu_to_le32] and [cpu_to_le64] come from
    [qemu/bswap.h], which is not part of the sources at hand; "32-bit and
    64-bit unsigned integers in fixed little-endian wire order".  The bytes
    of the value after the conversion; [le32_bytes] is above. *)
Definition le64_bytes (v : Z) : list ascii :=
  [byte_of_Z v; byte_of_Z (v / 2 ^ 8); byte_of_Z (v / 2 ^ 16); byte_of_Z (v / 2 ^ 24);
   byte_of_Z (v / 2 ^ 32); byte_of_Z (v / 2 ^ 40); byte_of_Z (v / 2 ^ 48);
   byte_of_Z (v / 2 ^ 56)].

(** [dtb_set_prop_u32], [dtb_set_prop_u64] and [dtb_set_prop_hwaddr]
    ([hwaddr] is [uint64_t]). *)
Definition dtb_set_prop_u32 (node : DTBNode) (name : string) (val : Z) : outcome DTBNode :=
  dtb_set_prop node name 4 (Some (le32_bytes val)).

Definition dtb_set_prop_u64 (node : DTBNode) (name : string) (val : Z) : outcome DTBNode :=
  dtb_set_prop node name 8 (Some (le64_bytes val)).

Definition dtb_set_prop_hwaddr (node : DTBNode) (name : string) (val : Z)
  : outcome DTBNode :=
  dtb_set_prop node name 8 (Some (le64_bytes val)).

(** [dtb_set_prop_strn]: [g_new0(char, max_len)] is NULL when [max_len] is
    0; otherwise [strncpy] fills the [max_len] bytes. *)
Definition dtb_set_prop_strn (node : DTBNode) (name : string) (max_len : Z)
    (val : list ascii) : outcome DTBNode :=
  let max_len := wrap32 max_len in
  let buf := if max_len =? 0 then None
             else Some (strncpy_bytes val (Z.to_nat max_len)) in
  dtb_set_prop node name max_len buf.

(** The pointer that [dtb_get_node] returns, as the place of the node under
    the node the walk starts from: the positions of the children taken, in
    order; the empty list is the start node itself.  In a tree a node at
    another place is another object. *)
Fixpoint find_child_index (cs : list DTBNode) (token : list ascii) : option nat :=
  match cs with
  | [] => None
  | child :: rest =>
      if name_matches token child then Some O else S <$> find_child_index rest token
  end.

Fixpoint get_node_place (node : DTBNode) (tokens : list (list ascii))
  : option (list nat) :=
  match tokens with
  | [] => Some []
  | [] :: rest => get_node_place node rest
  | token :: rest =>
      match find_child_index (children node) token with
      | None => None
      | Some i =>
          match children node !! i with
          | None => None
          | Some child => cons i <$> get_node_place child rest
          end
      end
  end.

(** The node at a place. *)
Fixpoint node_at (node : DTBNode) (place : list nat) : option DTBNode :=
  match place with
  | [] => Some node
  | i :: rest => children node !! i ≫= fun child => node_at child rest
  end.

(** [dtb_remove_node(parent, node)], [node] given by its place under
    [parent]: the loop looks for the pointer among the children of [parent]
    and [g_assert_not_reached] follows it. *)
Definition dtb_remove_node (parent : DTBNode) (node : list nat) : outcome DTBNode :=
  match node with
  | [i] =>
      match children parent !! i with
      | Some _ => Done (mkNode (props parent) (delete i (children parent)))
      | None => Abort
      end
  | _ => Abort
  end.

(** [dtb_remove_node_named]: the value returned and the parent after the
    call. *)
Definition dtb_remove_node_named (parent : DTBNode) (name : list ascii)
  : outcome (bool * DTBNode) :=
  match get_node_place parent (strsep_all "/" name) with
  | None => Done (false, parent)
  | Some node =>
      do parent' <- dtb_remove_node parent node;
      Done (true, parent')
  end.

(** What every property and every name of a tree made by the deserialiser
    satisfy. *)
Definition prop_sound (prop : DTBProp) : bool :=
  bool_decide (prop_length prop = Z.of_nat (length (prop_data prop)))
  && (prop_length prop <? 2 ^ 31).

Fixpoint all_names (check : string → bool) (node : DTBNode) : bool :=
  match node with
  | mkNode ps cs =>
      bool_decide (map_Forall (fun name _ => check name = true) ps)
      && forallb (all_names check) cs
  end.

Fixpoint counts_fit (node : DTBNode) : bool :=
  match node with
  | mkNode ps cs =>
      (Z.of_nat (size ps) <? 2 ^ 32) && (Z.of_nat (length cs) <? 2 ^ 32)
      && forallb counts_fit cs
  end.

(** A property for which the size calculator returns. *)
Definition size_returns (prop : DTBProp) : bool :=
  match dtb_get_serialised_prop_size prop with Done _ => true | _ => false end.



(** * Properties *)

(** ** Induction on trees *)

Lemma DTBNode_ind (P : DTBNode → Prop) :
  (∀ ps cs, Forall P cs → P (mkNode ps cs)) → ∀ node, P node.
Proof.
  intros step. fix IH 1. intros [ps cs]. apply step.
  induction cs as [|c cs IHcs]; constructor; [apply IH | exact IHcs].
Qed.

(** ** Arithmetic of cursors and sizes *)

Lemma wrap64_range z : 0 ≤ wrap64 z < 2 ^ 64.
Proof. unfold wrap64. apply Z.mod_pos_bound. lia. Qed.

Lemma wrap64_small z : 0 ≤ z < 2 ^ 64 → wrap64 z = z.
Proof. unfold wrap64. intros. apply Z.mod_small. lia. Qed.

Lemma wrap64_add_l a b : wrap64 (wrap64 a + b) = wrap64 (a + b).
Proof. unfold wrap64. apply Zplus_mod_idemp_l. Qed.

Lemma wrap64_add_r a b : wrap64 (a + wrap64 b) = wrap64 (a + b).
Proof. unfold wrap64. apply Zplus_mod_idemp_r. Qed.

Lemma wrap64_sub_r a b : wrap64 (a - wrap64 b) = wrap64 (a - b).
Proof. unfold wrap64. apply Zminus_mod_idemp_r. Qed.

Lemma ptr_add_add p a b : ptr_add (ptr_add p a) b = ptr_add p (a + b).
Proof. unfold ptr_add. rewrite wrap64_add_l. f_equal. lia. Qed.

Lemma ptr_add_wrap p a : ptr_add p (wrap64 a) = ptr_add p a.
Proof. unfold ptr_add. apply wrap64_add_r. Qed.

Lemma ROUND_UP_0 : ROUND_UP 0 4 = 0.
Proof. reflexivity. Qed.

Lemma ptr_add_record c r :
  ptr_add (ptr_add (ptr_add c DT_PROP_NAME_LEN) 4) r
  = ptr_add c (wrap64 (DT_PROP_NAME_LEN + 4 + r)).
Proof. rewrite !ptr_add_add, ptr_add_wrap. f_equal. lia. Qed.

Lemma ptr_add_0 c : 0 ≤ c < 2 ^ 64 → ptr_add c 0 = c.
Proof. intros. unfold ptr_add. rewrite Z.add_0_r. by apply wrap64_small. Qed.

Lemma ptr_add_loop c a sz n :
  ptr_add (ptr_add c a) (n - wrap64 (sz + a)) = ptr_add c (n - sz).
Proof.
  rewrite ptr_add_add. unfold ptr_add.
  replace (c + (a + (n - wrap64 (sz + a)))) with (c + a + n - wrap64 (sz + a)) by lia.
  rewrite wrap64_sub_r. f_equal. lia.
Qed.

(** ** Size calculator and serialiser walk the same records *)

Lemma serialise_prop_agrees key prop m c cnt :
  0 ≤ c < 2 ^ 64 →
  match dtb_get_serialised_prop_size prop with
  | Done n =>
      0 ≤ n < 2 ^ 64 ∧
      ∃ m' cnt', serialise_prop key prop (m, c, cnt) = Done (m', ptr_add c n, cnt')
  | Abort => serialise_prop key prop (m, c, cnt) = Abort
  | Fault => serialise_prop key prop (m, c, cnt) = Fault
  | Overflow => serialise_prop key prop (m, c, cnt) = Overflow
  end.
Proof.
  intros Hc. unfold dtb_get_serialised_prop_size, serialise_prop.
  destruct (prop_placeholder prop).
  - destruct (dtb_get_placeholder_size prop) as [n| | |]; simpl; try reflexivity.
    destruct (n =? 0); simpl.
    + split; [lia|]. rewrite ptr_add_0 by done. eauto.
    + split; [apply wrap64_range|]. rewrite ptr_add_record. eauto.
  - split; [apply wrap64_range|].
    destruct (prop_length prop =? 0) eqn:E; simpl.
    + apply Z.eqb_eq in E. rewrite E, ROUND_UP_0, <- ptr_add_record, ptr_add_0; [eauto|].
      apply wrap64_range.
    + rewrite ptr_add_record. eauto.
Qed.

Lemma serialise_props_agree l : ∀ m c cnt sz,
  0 ≤ c < 2 ^ 64 → 0 ≤ sz < 2 ^ 64 →
  match props_size l sz with
  | Done n =>
      0 ≤ n < 2 ^ 64 ∧
      ∃ m' cnt', serialise_props l (m, c, cnt) = Done (m', ptr_add c (n - sz), cnt')
  | Abort => serialise_props l (m, c, cnt) = Abort
  | Fault => serialise_props l (m, c, cnt) = Fault
  | Overflow => serialise_props l (m, c, cnt) = Overflow
  end.
Proof.
  induction l as [|[key prop] l IH]; intros m c cnt sz Hc Hsz;
    cbn [serialise_props props_size].
  - split; [done|]. rewrite Z.sub_diag, ptr_add_0 by done. eauto.
  - pose proof (serialise_prop_agrees key prop m c cnt Hc) as Hp.
    destruct (dtb_get_serialised_prop_size prop) as [a| | |]; cbn [outcome_bind];
      [|by rewrite Hp..].
    destruct Hp as [Ha (m1 & cnt1 & ->)]. cbn [outcome_bind].
    specialize (IH m1 (ptr_add c a) cnt1 (wrap64 (sz + a))
                  (wrap64_range _) (wrap64_range _)).
    destruct (props_size l (wrap64 (sz + a))) as [n| | |]; [|done..].
    destruct IH as [Hn (m2 & cnt2 & ->)]. split; [done|].
    rewrite ptr_add_loop. eauto.
Qed.

Section Agreement.
Variable ht_iter : gmap string DTBProp → list (string * DTBProp).

Lemma serialise_children_agree cs :
  Forall (fun child => ∀ m c,
    match dtb_get_serialised_node_size ht_iter child with
    | Done n => 0 ≤ n < 2 ^ 64 ∧
                ∃ m', dtb_serialise_node ht_iter child (m, c) = Done (m', ptr_add c n)
    | Abort => dtb_serialise_node ht_iter child (m, c) = Abort
    | Fault => dtb_serialise_node ht_iter child (m, c) = Fault
    | Overflow => dtb_serialise_node ht_iter child (m, c) = Overflow
    end) cs →
  ∀ m c sz, 0 ≤ c < 2 ^ 64 → 0 ≤ sz < 2 ^ 64 →
  match children_size (dtb_get_serialised_node_size ht_iter) cs sz with
  | Done n =>
      0 ≤ n < 2 ^ 64 ∧
      ∃ m', g_list_foreach (dtb_serialise_node ht_iter) cs (m, c)
            = Done (m', ptr_add c (n - sz))
  | Abort => g_list_foreach (dtb_serialise_node ht_iter) cs (m, c) = Abort
  | Fault => g_list_foreach (dtb_serialise_node ht_iter) cs (m, c) = Fault
  | Overflow => g_list_foreach (dtb_serialise_node ht_iter) cs (m, c) = Overflow
  end.
Proof.
  induction 1 as [|child cs Hchild _ IH]; intros m c sz Hc Hsz;
    cbn [children_size g_list_foreach].
  - split; [done|]. rewrite Z.sub_diag, ptr_add_0 by done. eauto.
  - specialize (Hchild m c).
    destruct (dtb_get_serialised_node_size ht_iter child) as [a| | |];
      cbn [outcome_bind]; [|by rewrite Hchild..].
    destruct Hchild as [Ha (m1 & ->)]. cbn [outcome_bind].
    specialize (IH m1 (ptr_add c a) (wrap64 (sz + a)) (wrap64_range _) (wrap64_range _)).
    destruct (children_size _ cs (wrap64 (sz + a))) as [n| | |]; [|done..].
    destruct IH as [Hn (m2 & ->)]. split; [done|].
    rewrite ptr_add_loop. eauto.
Qed.

Lemma serialise_node_agrees node : ∀ m c,
  match dtb_get_serialised_node_size ht_iter node with
  | Done n => 0 ≤ n < 2 ^ 64 ∧
              ∃ m', dtb_serialise_node ht_iter node (m, c) = Done (m', ptr_add c n)
  | Abort => dtb_serialise_node ht_iter node (m, c) = Abort
  | Fault => dtb_serialise_node ht_iter node (m, c) = Fault
  | Overflow => dtb_serialise_node ht_iter node (m, c) = Overflow
  end.
Proof.
  induction node as [ps cs IH] using DTBNode_ind. intros m c.
  cbn [dtb_get_serialised_node_size dtb_serialise_node]. change (4 + 4) with 8.
  pose proof (serialise_props_agree (ht_iter ps)
    (stl_le_p m (ptr_add c 4) (wrap32 (Z.of_nat (length cs))))
    (ptr_add (ptr_add c 4) 4) (wrap32 (Z.of_nat (size ps))) 8
    (wrap64_range _) ltac:(lia)) as Hps.
  destruct (props_size (ht_iter ps) 8) as [sz| | |]; cbn [outcome_bind];
    [|by rewrite Hps..].
  destruct Hps as [Hsz (m1 & cnt1 & ->)]. cbn [outcome_bind].
  pose proof (serialise_children_agree cs IH (stl_le_p m1 c cnt1)
    (ptr_add (ptr_add (ptr_add c 4) 4) (sz - 8)) sz (wrap64_range _) Hsz) as Hcs.
  destruct (children_size _ cs sz) as [n| | |]; [|done..].
  destruct Hcs as [Hn (m2 & ->)]. split; [done|].
  rewrite !ptr_add_add. replace (4 + (4 + (sz - 8 + (n - sz)))) with n by lia. eauto.
Qed.
End Agreement.

(** Claim C1.  For every tree [T], whatever its placeholders, zero-length
    properties and empty subtrees, and for every order in which the hash
    tables are walked: when [dtb_get_serialised_node_size] returns [n],
    [dtb_serialise_node] returns with the cursor exactly [n] bytes further;
    when the size calculator stops on the assertion of the resolver, or
    reads a placeholder text past its end, so does the serialiser. *)
Theorem serialise_advances_by_size
    (ht_iter : gmap string DTBProp → list (string * DTBProp))
    (T : DTBNode) (m : mem) (buf : Z) :
  match dtb_get_serialised_node_size ht_iter T with
  | Done n => ∃ m', dtb_serialise_node ht_iter T (m, buf) = Done (m', ptr_add buf n)
  | Abort => dtb_serialise_node ht_iter T (m, buf) = Abort
  | Fault => dtb_serialise_node ht_iter T (m, buf) = Fault
  | Overflow => dtb_serialise_node ht_iter T (m, buf) = Overflow
  end.
Proof.
  pose proof (serialise_node_agrees ht_iter T m buf) as H.
  destruct (dtb_get_serialised_node_size ht_iter T); [|done..].
  by destruct H.
Qed.


(** ** The placeholder grammar *)

Lemma is_nul_true c : is_nul c = true ↔ c = NUL.
Proof. unfold is_nul. apply Ascii.eqb_eq. Qed.

Lemma is_nul_false c : is_nul c = false ↔ c ≠ NUL.
Proof. unfold is_nul. apply Ascii.eqb_neq. Qed.

Lemma nul_free_check s : forallb (fun c => negb (is_nul c)) s = true → NUL ∉ s.
Proof.
  induction s as [|c s IH]; cbn [forallb]; intros H.
  - apply not_elem_of_nil.
  - apply andb_true_iff in H as [Hc Hs]. apply not_elem_of_cons. split; [|by apply IH].
    apply negb_true_iff, is_nul_false in Hc. congruence.
Qed.

Lemma char_free_check (d : ascii) s :
  forallb (fun c => negb (Ascii.eqb c d)) s = true → d ∉ s.
Proof.
  induction s as [|c s IH]; cbn [forallb]; intros H.
  - apply not_elem_of_nil.
  - apply andb_true_iff in H as [Hc Hs]. apply not_elem_of_cons. split; [|by apply IH].
    apply negb_true_iff, Ascii.eqb_neq in Hc. congruence.
Qed.

Lemma strncmp_eq_prefix p : NUL ∉ p → ∀ t,
  strncmp_eq t p (length p) = bool_decide (p `prefix_of` t).
Proof.
  induction p as [|c p IH]; intros Hp t.
  - symmetry. apply bool_decide_eq_true. apply prefix_nil.
  - apply not_elem_of_cons in Hp as [Hc Hp]. cbn [length strncmp_eq hd tl].
    destruct t as [|d t]; cbn [hd tl].
    + destruct (Ascii.eqb NUL c) eqn:E.
      * apply Ascii.eqb_eq in E. congruence.
      * cbn. symmetry. apply bool_decide_eq_false. intros H. by apply prefix_nil_not in H.
    + destruct (Ascii.eqb d c) eqn:E; cbn [negb].
      * apply Ascii.eqb_eq in E. subst d.
        replace (is_nul c) with false by (symmetry; apply is_nul_false; congruence).
        rewrite IH by done. apply bool_decide_ext. split.
        -- apply prefix_cons.
        -- apply prefix_cons_inv_2.
      * apply Ascii.eqb_neq in E. symmetry. apply bool_decide_eq_false.
        intros H. apply prefix_cons_inv_1 in H. congruence.
Qed.

Lemma placeholder_size_tokens_spec tokens :
  placeholder_size_tokens tokens = default 0 (head (omap spec_token_size tokens)).
Proof.
  induction tokens as [|token rest IH]; [done|].
  cbn [placeholder_size_tokens omap list_omap]. unfold spec_token_size at 1.
  rewrite (strncmp_eq_prefix (str "macaddr/")), (strncmp_eq_prefix (str "syscfg/")),
    (strncmp_eq_prefix (str "zeroes/")) by (by apply nul_free_check).
  destruct (decide (token = [])) as [->|Hnil].
  - rewrite bool_decide_eq_true_2 by done.
    rewrite !bool_decide_eq_false_2 by (by intros ?%prefix_nil_not). exact IH.
  - rewrite (bool_decide_eq_false_2 (token = [])) by done.
    destruct (decide (str "macaddr/" `prefix_of` token)) as [Hmac|Hmac];
      [by rewrite (bool_decide_eq_true_2 _ Hmac) | rewrite (bool_decide_eq_false_2 _ Hmac)].
    destruct (decide (str "zeroes/" `prefix_of` token)) as [Hz|Hz];
      [rewrite (bool_decide_eq_true_2 _ Hz) | rewrite (bool_decide_eq_false_2 _ Hz)];
    (destruct (decide (str "syscfg/" `prefix_of` token)) as [Hsys|Hsys];
      [rewrite (bool_decide_eq_true_2 _ Hsys) | by rewrite (bool_decide_eq_false_2 _ Hsys)]);
    (destruct (decide (12 ≤ Z.of_nat (length token) ∧ token !! 11%nat = Some "/"%char))
        as [Hshape|Hshape];
        [rewrite (bool_decide_eq_true_2 _ Hshape) | rewrite (bool_decide_eq_false_2 _ Hshape)]).
    all: try (destruct Hshape as [Hlen H11];
        replace (Z.of_nat (length token) <? 12) with false by (symmetry; apply Z.ltb_ge; lia);
        rewrite (nth_lookup_Some _ _ _ _ H11); cbn [orb negb]; rewrite Ascii.eqb_refl;
        cbn [negb]; change (8 + 4)%nat with 12%nat;
        destruct (Z.eqb_spec (wrap32 (g_ascii_strtoull (drop 12 token))) 0) as [E|E];
        [rewrite bool_decide_eq_true_2 by done; exact IH
        |by rewrite bool_decide_eq_false_2 by done]).
    all: replace ((Z.of_nat (length token) <? 12) || negb (Ascii.eqb (nth 11 token NUL) "/"))
          with true; [exact IH|];
        symmetry; destruct (Z.ltb_spec (Z.of_nat (length token)) 12) as [|Hge]; [done|];
        cbn [orb]; apply negb_true_iff, Ascii.eqb_neq; intros H11; apply Hshape;
        split; [done|]; rewrite <- H11;
        destruct (lookup_lt_is_Some_2 token 11) as [x Hx]; [lia|];
        by rewrite (nth_lookup_Some _ _ NUL _ Hx).
Qed.

Lemma placeholder_size_tokens_cons token rest :
  placeholder_size_tokens (token :: rest)
  = match spec_token_size token with
    | Some n => n
    | None => placeholder_size_tokens rest
    end.
Proof.
  rewrite !placeholder_size_tokens_spec. cbn [omap list_omap].
  by destruct (spec_token_size token).
Qed.

Lemma dtb_get_placeholder_size_text prop text :
  0 < prop_length prop → c_str (prop_bytes prop) = Some text →
  dtb_get_placeholder_size prop = Done (default 0 (head (omap spec_token_size (strsep_all "," text)))).
Proof.
  intros Hlen Htext. unfold dtb_get_placeholder_size.
  replace (0 <? prop_length prop) with true by (symmetry; by apply Z.ltb_lt).
  cbn [negb]. by rewrite Htext, placeholder_size_tokens_spec.
Qed.

Lemma spec_token_size_syscfg tag num :
  length tag = 4%nat →
  spec_token_size (str "syscfg/" ++ tag ++ "/"%char :: num)
  = if bool_decide (wrap32 (g_ascii_strtoull num) = 0) then None
    else Some (wrap32 (g_ascii_strtoull num)).
Proof.
  intros Htag. destruct tag as [|a [|b [|c [|d [|]]]]]; try done.
  unfold spec_token_size.
  rewrite bool_decide_eq_false_2; [|cbn; intros [k Hk]; discriminate].
  rewrite bool_decide_eq_true_2; [|by eexists].
  rewrite bool_decide_eq_true_2; [done|]. 
  split; [|done]. cbn. lia.
Qed.

Lemma spec_token_size_zeroes num :
  spec_token_size (str "zeroes/" ++ num) = Some (wrap32 (g_ascii_strtoull num)).
Proof.
  unfold spec_token_size.
  rewrite bool_decide_eq_false_2; [|cbn; intros [k Hk]; discriminate].
  rewrite bool_decide_eq_false_2; [|cbn; intros [k Hk]; discriminate].
  rewrite bool_decide_eq_true_2; [done|]. by eexists.
Qed.

Lemma spec_token_size_macaddr rest :
  spec_token_size (str "macaddr/" ++ rest) = Some 6.
Proof.
  unfold spec_token_size. rewrite bool_decide_eq_true_2; [done|]. by eexists.
Qed.

(** Claim C2, as amended.  The text is split on commas; the first token
    that decides gives the result and the tokens after it are not looked
    at; a token decides when it starts with [macaddr/] (6), when it is a
    shape-valid [syscfg/XXXX/NNN] whose number is not 0 (that number), or
    when it starts with [zeroes/] (its number, 0 included); when no token
    decides the result is 0.  A [syscfg] token whose number parses to 0
    is passed over like a token that matches nothing: the text
    [syscfg/XXXX/0,zeroes/N] resolves to what [zeroes/N] gives. *)
Theorem placeholder_first_deciding_token :
  (∀ prop text,
     0 < prop_length prop → c_str (prop_bytes prop) = Some text →
     dtb_get_placeholder_size prop
     = Done (default 0 (head (omap spec_token_size (strsep_all "," text)))))
  ∧ (∀ before token after n,
       Forall (fun t => spec_token_size t = None) before →
       spec_token_size token = Some n →
       placeholder_size_tokens (before ++ token :: after) = n)
  ∧ (∀ tokens, Forall (fun t => spec_token_size t = None) tokens →
       placeholder_size_tokens tokens = 0)
  ∧ spec_token_size [] = None
  ∧ (∀ rest, spec_token_size (str "macaddr/" ++ rest) = Some 6)
  ∧ (∀ num, spec_token_size (str "zeroes/" ++ num) = Some (wrap32 (g_ascii_strtoull num)))
  ∧ (∀ after, placeholder_size_tokens (str "zeroes/0" :: after) = 0)
  ∧ (∀ tag num after,
       length tag = 4%nat → wrap32 (g_ascii_strtoull num) = 0 →
       placeholder_size_tokens ((str "syscfg/" ++ tag ++ "/"%char :: num) :: after)
       = placeholder_size_tokens after)
  ∧ (∀ tag n,
       length tag = 4%nat →
       placeholder_size_tokens [str "syscfg/" ++ tag ++ str "/0"; str "zeroes/" ++ n]
       = wrap32 (g_ascii_strtoull n)).
Proof.
  assert (Hskip : ∀ before after,
             Forall (fun t => spec_token_size t = None) before →
             omap spec_token_size (before ++ after) = omap spec_token_size after).
  { intros before after H. induction H as [|t before Ht _ IH]; [done|].
    cbn [app omap list_omap]. by rewrite Ht. }
  split; [exact dtb_get_placeholder_size_text|].
  split.
  { intros before token after n Hb Ht.
    rewrite placeholder_size_tokens_spec, Hskip by done.
    cbn [omap list_omap]. by rewrite Ht. }
  split.
  { intros tokens H. rewrite placeholder_size_tokens_spec.
    rewrite <- (app_nil_r tokens), Hskip by done. done. }
  split; [done|].
  split; [exact spec_token_size_macaddr|].
  split; [exact spec_token_size_zeroes|].
  split.
  { intros after. rewrite placeholder_size_tokens_spec. cbn [omap list_omap].
    change (str "zeroes/0") with (str "zeroes/" ++ str "0").
    by rewrite spec_token_size_zeroes. }
  split.
  { intros tag num after Htag Hnum. rewrite !placeholder_size_tokens_spec.
    cbn [omap list_omap]. rewrite spec_token_size_syscfg by done.
    by rewrite bool_decide_eq_true_2. }
  intros tag n Htag. rewrite placeholder_size_tokens_spec. cbn [omap list_omap].
  change (str "/0") with ("/"%char :: str "0").
  rewrite (spec_token_size_syscfg tag (str "0")) by done.
  rewrite bool_decide_eq_true_2 by done. by rewrite spec_token_size_zeroes.
Qed.

Lemma placeholder_first_deciding_token_witness :
  dtb_get_placeholder_size (placeholder_prop ",bogus,macaddr/wifi,zeroes/16")
  = Done (default 0 (head (omap spec_token_size
                             (strsep_all "," (str ",bogus,macaddr/wifi,zeroes/16")))))
  ∧ placeholder_size_tokens
      ([str ""; str "bogus"] ++ str "macaddr/wifi" :: [str "zeroes/16"]) = 6.
Proof.
  split.
  - apply (proj1 placeholder_first_deciding_token).
    + vm_compute. reflexivity.
    + vm_compute. reflexivity.
  - apply (proj1 (proj2 placeholder_first_deciding_token)).
    + repeat constructor.
    + vm_compute. reflexivity.
Defined.

(** The text [syscfg/ABCD/0,zeroes/16] resolves to 16, not to 0. *)
Lemma syscfg_zero_then_zeroes :
  dtb_get_placeholder_size (placeholder_prop "syscfg/ABCD/0,zeroes/16") = Done 16
  ∧ dtb_get_placeholder_size (placeholder_prop "syscfg/ABCD/0,zeroes/16") ≠ Done 0.
Proof. split; [reflexivity|]. vm_compute. discriminate. Qed.

(** Claim C3.  [macaddr/eth0] resolves to 6 (as does [macaddr/] followed by
    anything), [syscfg/ABCD/16] to 16, [zeroes/0x10] to 16 and [bogus] to 0.
    A [syscfg/] token of at least 12 characters with a slash at offset 11
    gives the number read from offset 12, in decimal or in hexadecimal after
    [0x]; a [syscfg/] token of another shape is passed over. *)
Theorem placeholder_resolution_examples :
  dtb_get_placeholder_size (placeholder_prop "macaddr/eth0") = Done 6
  ∧ dtb_get_placeholder_size (placeholder_prop "syscfg/ABCD/16") = Done 16
  ∧ dtb_get_placeholder_size (placeholder_prop "zeroes/0x10") = Done 16
  ∧ dtb_get_placeholder_size (placeholder_prop "bogus") = Done 0
  ∧ (∀ rest after, placeholder_size_tokens ((str "macaddr/" ++ rest) :: after) = 6)
  ∧ (∀ tag num,
       length tag = 4%nat →
       placeholder_size_tokens [str "syscfg/" ++ tag ++ "/"%char :: num]
       = wrap32 (g_ascii_strtoull num))
  ∧ (∀ token after,
       str "syscfg/" `prefix_of` token →
       (Z.of_nat (length token) < 12 ∨ token !! 11%nat ≠ Some "/"%char) →
       placeholder_size_tokens (token :: after) = placeholder_size_tokens after)
  ∧ g_ascii_strtoull (str "16") = 16
  ∧ g_ascii_strtoull (str "0x10") = 16.
Proof.
  split; [reflexivity|]. split; [reflexivity|]. split; [reflexivity|].
  split; [reflexivity|]. split.
  { intros rest after. by rewrite placeholder_size_tokens_cons, spec_token_size_macaddr. }
  split.
  { intros tag num Htag.
    rewrite placeholder_size_tokens_cons, spec_token_size_syscfg by done.
    by case_bool_decide. }
  split; [|split; reflexivity].
  intros token after Hpre Hshape. rewrite placeholder_size_tokens_cons.
  unfold spec_token_size.
  rewrite bool_decide_eq_false_2.
  2:{ intros [k1 ->]. destruct Hpre as [k2 Hk]. discriminate. }
  rewrite bool_decide_eq_true_2 by done.
  rewrite bool_decide_eq_false_2; [done|]. intros [? ?]. destruct Hshape; [lia|done].
Qed.

Lemma placeholder_resolution_examples_witness :
  placeholder_size_tokens [str "syscfg/" ++ str "WMac" ++ "/"%char :: str "0x6"]
  = wrap32 (g_ascii_strtoull (str "0x6")).
Proof.
  apply (proj1 (proj2 (proj2 (proj2 (proj2 (proj2 placeholder_resolution_examples)))))).
  reflexivity.
Defined.


(** ** Paths *)

Lemma strncmp_eq_strn n : ∀ a b,
  strncmp_eq a b n = bool_decide (strn n a = strn n b).
Proof.
  induction n as [|n IH]; intros a b; [done|].
  cbn [strncmp_eq].
  destruct a as [|x a], b as [|y b]; cbn [hd tl strn].
  - done.
  - change (Ascii.eqb NUL y) with (Ascii.eqb NUL y). destruct (Ascii.eqb NUL y) eqn:E; cbn [negb].
    + apply Ascii.eqb_eq in E. subst y. done.
    + apply Ascii.eqb_neq in E.
      replace (is_nul y) with false by (symmetry; apply is_nul_false; congruence).
      symmetry. by apply bool_decide_eq_false.
  - destruct (Ascii.eqb x NUL) eqn:E; cbn [negb].
    + apply Ascii.eqb_eq in E. subst x. done.
    + unfold is_nul. rewrite E. symmetry. by apply bool_decide_eq_false.
  - destruct (Ascii.eqb x y) eqn:E; cbn [negb].
    + apply Ascii.eqb_eq in E. subst y. destruct (is_nul x); [done|].
      rewrite IH. apply bool_decide_ext. split; [congruence|]. by intros [= ->].
    + apply Ascii.eqb_neq in E. symmetry. apply bool_decide_eq_false.
      destruct (is_nul x) eqn:Ex, (is_nul y) eqn:Ey; try done.
      * apply is_nul_true in Ex, Ey. congruence.
      * congruence.
Qed.

Lemma find_child_list_find cs token :
  find_child cs token = snd <$> list_find (fun child => name_matches token child = true) cs.
Proof.
  induction cs as [|child cs IH]; [done|].
  cbn [find_child list_find]. case_decide as H.
  - by rewrite H.
  - apply not_true_is_false in H. rewrite H, IH.
    by destruct (list_find _ cs) as [[i x]|].
Qed.

Lemma get_node_tokens_spec tokens : ∀ node,
  get_node_tokens (Some node) tokens
  = foldl (fun acc segment => acc ≫= fun n => spec_step n segment) (Some node)
      (filter (fun segment => segment ≠ []) tokens).
Proof.
  assert (Hnone : ∀ l : list (list ascii),
    foldl (fun acc segment => acc ≫= fun n => spec_step n segment) None l = None).
  { induction l; [done|]. done. }
  induction tokens as [|token tokens IH]; intros node; [done|].
  cbn [get_node_tokens]. destruct token as [|c token].
  - rewrite filter_cons_False by (by intros ?). apply IH.
  - rewrite filter_cons_True by done. cbn [foldl mbind option_bind].
    unfold spec_step at 2. rewrite <- find_child_list_find.
    destruct (find_child (children node) (c :: token)) as [child|]; [apply IH|].
    by rewrite Hnone.
Qed.

Lemma strsep_all_slashes k : strsep_all "/" (repeat "/"%char k) = repeat [] (S k).
Proof. induction k as [|k IH]; [done|]. cbn [repeat strsep_all]. by rewrite IH. Qed.

Lemma dtb_get_node_spec node path :
  dtb_get_node (Some node) path = spec_resolve node path.
Proof. apply get_node_tokens_spec. Qed.

(** Claim C7.  [dtb_get_node] walks the non-empty segments of the path;
    for each it takes the first child, in order, whose [name] property
    compares equal to the segment over the stored length of the property
    ([strncmp]: the first [length] characters of both C strings agree);
    a segment without such a child gives not-found, and a path without
    segments gives the starting node.  On root → [cpu0] → [reg], built with
    [dtb_create_node]: [cpu0/reg] gives the grandchild, [cpu0/missing]
    nothing, and the empty path the root. *)
Theorem path_resolution :
  (∀ node path, dtb_get_node (Some node) path = spec_resolve node path)
  ∧ (∀ node segment child,
       spec_step node segment = Some child ↔
       ∃ i, children node !! i = Some child ∧ name_matches segment child = true
            ∧ ∀ j other, children node !! j = Some other → (j < i)%nat →
                         name_matches segment other = false)
  ∧ (∀ segment child,
       name_matches segment child = true ↔
       ∃ prop, dtb_find_prop child "name" = Some prop
               ∧ strn (Z.to_nat (prop_length prop)) (prop_data prop)
                 = strn (Z.to_nat (prop_length prop)) segment)
  ∧ (∀ node k, dtb_get_node (Some node) (repeat "/"%char k) = Some node)
  ∧ (∀ path, dtb_get_node None path = None)
  ∧ dtb_create_node None None = Done (Some dtb_new_node, None)
  ∧ dtb_create_node (Some dtb_new_node) (Some (str "cpu0"))
    = Done (Some example_cpu0_fresh, Some (mkNode ∅ [example_cpu0_fresh]))
  ∧ dtb_create_node (Some example_cpu0_fresh) (Some (str "reg"))
    = Done (Some example_reg, Some example_cpu0)
  ∧ dtb_get_node (Some example_root) (str "cpu0/reg") = Some example_reg
  ∧ dtb_get_node (Some example_root) (str "cpu0/missing") = None
  ∧ dtb_get_node (Some example_root) (str "") = Some example_root.
Proof.
  split; [exact dtb_get_node_spec|]. split.
  { intros node segment child. unfold spec_step. split.
    - destruct (list_find _ (children node)) as [[i x]|] eqn:E; [|done].
      intros [= ->]. apply list_find_Some in E as (Hi & Hm & Hbefore).
      exists i. split; [done|]. split; [done|]. intros j other Hj Hlt.
      apply not_true_is_false. by eapply Hbefore.
    - intros (i & Hi & Hm & Hbefore).
      assert (list_find (fun c => name_matches segment c = true) (children node)
              = Some (i, child)) as ->; [|done].
      apply list_find_Some. split; [done|]. split; [done|].
      intros j other Hj Hlt. rewrite (Hbefore j other Hj Hlt). done. }
  split.
  { intros segment child. unfold name_matches.
    destruct (dtb_find_prop child "name") as [prop|]; [|split; [done|by intros (?&?&?)]].
    rewrite strncmp_eq_strn, bool_decide_eq_true. split; [eauto|].
    by intros (? & [= <-] & ?). }
  split.
  { intros node k. unfold dtb_get_node. rewrite strsep_all_slashes.
    induction k as [|k IH]; [done|]. exact IH. }
  split.
  { intros path. unfold dtb_get_node. by destruct (strsep_all _ path). }
  repeat split; vm_compute; reflexivity.
Qed.

Lemma path_resolution_witness :
  ∃ prop, dtb_find_prop example_cpu0 "name" = Some prop
          ∧ strn (Z.to_nat (prop_length prop)) (prop_data prop)
            = strn (Z.to_nat (prop_length prop)) (str "cpu0").
Proof.
  apply (proj1 (proj1 (proj2 (proj2 path_resolution)) (str "cpu0") example_cpu0)).
  vm_compute. reflexivity.
Defined.


(** ** Node names *)

Lemma strsep_all_no_delim delim s : delim ∉ s → strsep_all delim s = [s].
Proof.
  induction s as [|c s IH]; intros Hs; [done|].
  apply not_elem_of_cons in Hs as [Hc Hs]. cbn [strsep_all].
  replace (Ascii.eqb c delim) with false by (symmetry; apply Ascii.eqb_neq; congruence).
  by rewrite IH.
Qed.

Lemma dtb_get_node_segment p s :
  "/"%char ∉ s →
  dtb_get_node (Some p) s = if bool_decide (s = []) then Some p else find_child (children p) s.
Proof.
  intros Hs. unfold dtb_get_node. rewrite strsep_all_no_delim by done.
  cbn [get_node_tokens]. destruct s as [|c s]; [done|].
  rewrite bool_decide_eq_false_2 by done.
  by destruct (find_child (children p) (c :: s)).
Qed.

Lemma find_child_None cs token :
  find_child cs token = None ↔ Forall (fun child => name_matches token child = false) cs.
Proof.
  induction cs as [|child cs IH]; cbn [find_child].
  - split; [constructor|done].
  - destruct (name_matches token child) eqn:E.
    + split; [done|]. intros H. apply Forall_cons in H as [H _]. congruence.
    + rewrite IH. split; [by constructor|]. by intros [_ ?]%Forall_cons.
Qed.

Lemma find_child_app_new cs token node :
  find_child cs token = None → name_matches token node = true →
  find_child (cs ++ [node]) token = Some node.
Proof.
  intros Hcs Hnode. induction cs as [|child cs IH]; cbn [app find_child].
  - by rewrite Hnode.
  - cbn [find_child] in Hcs. destruct (name_matches token child); [done|]. by apply IH.
Qed.

Lemma strncmp_eq_stored s : ∀ n, strncmp_eq (take n (s ++ [NUL])) s n = true.
Proof.
  induction s as [|c s IH]; intros [|n]; try done.
  cbn [app take strncmp_eq hd tl]. rewrite Ascii.eqb_refl. cbn [negb].
  destruct (is_nul c); [done|apply IH].
Qed.

Lemma strncmp_eq_S s1 s2 k :
  strncmp_eq s1 s2 (S k)
  = if negb (Ascii.eqb (hd NUL s1) (hd NUL s2)) then false
    else if is_nul (hd NUL s1) then true
    else strncmp_eq (tl s1) (tl s2) k.
Proof. reflexivity. Qed.

Lemma strncmp_eq_name s : NUL ∉ s → ∀ t, NUL ∉ t →
  strncmp_eq (s ++ [NUL]) t (S (length s)) = bool_decide (t = s).
Proof.
  induction s as [|c s IH]; intros Hs t Ht.
  - destruct t as [|d t]; [done|]. apply not_elem_of_cons in Ht as [Hd _].
    cbn [app length]. rewrite strncmp_eq_S. cbn [hd tl].
    replace (Ascii.eqb NUL d) with false by (symmetry; apply Ascii.eqb_neq; congruence).
    done.
  - apply not_elem_of_cons in Hs as [Hc Hs]. cbn [app length]. rewrite strncmp_eq_S.
    cbn [hd tl]. destruct t as [|d t]; cbn [hd tl].
    + replace (Ascii.eqb c NUL) with false by (symmetry; apply Ascii.eqb_neq; congruence).
      done.
    + apply not_elem_of_cons in Ht as [Hd Ht].
      destruct (Ascii.eqb c d) eqn:E; cbn [negb].
      * apply Ascii.eqb_eq in E. subst d.
        replace (is_nul c) with false by (symmetry; apply is_nul_false; congruence).
        rewrite IH by done. apply bool_decide_ext. split; [congruence|]. by intros [= ->].
      * apply Ascii.eqb_neq in E. symmetry. apply bool_decide_eq_false. congruence.
Qed.

Lemma dtb_set_prop_str_name s node :
  dtb_set_prop_str dtb_new_node "name" s = Done node →
  node = mkNode {[ "name"%string :=
                    mkProp (wrap32 (Z.of_nat (length s) + 1)) false
                      (take (Z.to_nat (wrap32 (Z.of_nat (length s) + 1))) (s ++ [NUL])) ]} [].
Proof.
  unfold dtb_set_prop_str, dtb_set_prop.
  destruct (wrap32 (Z.of_nat (length s) + 1) =? 0); [done|].
  cbn. by intros [= <-].
Qed.

Lemma name_matches_created s node :
  dtb_set_prop_str dtb_new_node "name" s = Done node → name_matches s node = true.
Proof.
  intros ->%dtb_set_prop_str_name. unfold name_matches, dtb_find_prop. cbn [props].
  rewrite lookup_singleton_eq. cbn [prop_data prop_length]. apply strncmp_eq_stored.
Qed.

Lemma dtb_create_node_inv p s node p1 :
  dtb_create_node (Some p) (Some s) = Done (Some node, p1) →
  dtb_get_node (Some p) s = None
  ∧ dtb_set_prop_str dtb_new_node "name" s = Done node
  ∧ p1 = Some (mkNode (props p) (children p ++ [node])).
Proof.
  unfold dtb_create_node. case_bool_decide as Hget; [done|].
  destruct (dtb_set_prop_str dtb_new_node "name" s) as [n| | |]; cbn [outcome_bind]; try done.
  intros [= -> <-]. split; [|done].
  destruct (dtb_get_node (Some p) s); [|done]. exfalso. apply Hget. eauto.
Qed.

(** Claim C8, as amended.  [dtb_create_node] under a parent returns NULL
    and leaves the parent as it is when the name is NULL, when the name is
    empty (the path resolver then returns the parent itself), and, for a
    name without slash, when the parent has a child whose [name] property
    matches it: a parent that has no child of that name, or several, keeps
    what it has.  For a name without slash that is not empty, that no child
    matches and whose length with the terminator fits 32 bits, the call
    returns a new node, appended to the children of the parent.  Whenever a
    call with a name without slash returns a node, the name is not empty
    and no child matched it, the node is appended to the children of the
    parent, and the same call again returns NULL and leaves the parent as it
    is, with exactly one child of that name. *)
Theorem create_node_duplicate_name :
  (∀ p, dtb_create_node (Some p) None = Done (None, Some p))
  ∧ (∀ p s child,
       "/"%char ∉ s → child ∈ children p → name_matches s child = true →
       dtb_create_node (Some p) (Some s) = Done (None, Some p))
  ∧ (∀ p s node p1,
       "/"%char ∉ s →
       dtb_create_node (Some p) (Some s) = Done (Some node, p1) →
       p1 = Some (mkNode (props p) (children p ++ [node]))
       ∧ dtb_create_node p1 (Some s) = Done (None, p1)
       ∧ filter (fun child => name_matches s child = true) (children p ++ [node]) = [node])
  ∧ (∀ p, dtb_create_node (Some p) (Some []) = Done (None, Some p))
  ∧ (∀ p s,
       "/"%char ∉ s → s ≠ [] → Z.of_nat (length s) + 1 < 2 ^ 32 →
       Forall (fun child => name_matches s child = false) (children p) →
       ∃ node, dtb_create_node (Some p) (Some s)
               = Done (Some node, Some (mkNode (props p) (children p ++ [node]))))
  ∧ (∀ p s node p1,
       "/"%char ∉ s →
       dtb_create_node (Some p) (Some s) = Done (Some node, p1) →
       s ≠ [] ∧ Forall (fun child => name_matches s child = false) (children p)).
Proof.
  split; [done|]. split; [|split; [|split; [done|split]]].
  - intros p s child Hs Hin Hm. unfold dtb_create_node.
    rewrite bool_decide_eq_true_2; [done|]. rewrite dtb_get_node_segment by done.
    case_bool_decide; [done|].
    destruct (find_child (children p) s) eqn:E; [done|].
    apply find_child_None in E. rewrite Forall_forall in E. specialize (E child Hin). congruence.
  - intros p s node p1 Hs Hcreate.
    apply dtb_create_node_inv in Hcreate as (Hget & Hset & ->). split; [done|].
    rewrite dtb_get_node_segment in Hget by done.
    case_bool_decide as Hnil; [done|].
    pose proof (name_matches_created s node Hset) as Hnode.
    split.
    + unfold dtb_create_node. rewrite bool_decide_eq_true_2; [done|].
      rewrite dtb_get_node_segment by done. rewrite bool_decide_eq_false_2 by done.
      cbn [children]. rewrite (find_child_app_new _ _ _ Hget Hnode). done.
    + apply find_child_None in Hget. rewrite filter_app.
      rewrite filter_cons_True, filter_nil by done.
      replace (filter _ (children p)) with (@nil DTBNode); [done|].
      symmetry. clear -Hget. induction Hget as [|child cs Hchild _ IH]; [done|].
      rewrite filter_cons_False by congruence. exact IH.
  - intros p s Hs Hne Hlen Hnone. apply find_child_None in Hnone.
    unfold dtb_create_node. rewrite bool_decide_eq_false_2.
    2:{ rewrite dtb_get_node_segment, bool_decide_eq_false_2, Hnone by done.
        by intros [? ?]. }
    unfold dtb_set_prop_str, dtb_set_prop.
    replace (wrap32 (Z.of_nat (length s) + 1)) with (Z.of_nat (length s) + 1)
      by (unfold wrap32; rewrite Z.mod_small; lia).
    rewrite (proj2 (Z.eqb_neq (Z.of_nat (length s) + 1) 0)) by lia.
    cbn [negb String.length Z.of_nat Z.ltb outcome_bind]. eexists. reflexivity.
  - intros p s node p1 Hs Hcreate.
    apply dtb_create_node_inv in Hcreate as (Hget & _ & _).
    rewrite dtb_get_node_segment in Hget by done.
    case_bool_decide as Hnil; [done|]. split; [done|]. by apply find_child_None.
Qed.

Lemma create_node_duplicate_name_witness :
  Some (mkNode ∅ [example_cpu0_fresh])
  = Some (mkNode (props dtb_new_node) (children dtb_new_node ++ [example_cpu0_fresh]))
  ∧ dtb_create_node (Some (mkNode ∅ [example_cpu0_fresh])) (Some (str "cpu0"))
    = Done (None, Some (mkNode ∅ [example_cpu0_fresh]))
  ∧ filter (fun child => name_matches (str "cpu0") child = true)
      (children dtb_new_node ++ [example_cpu0_fresh])
    = [example_cpu0_fresh].
Proof.
  apply (proj1 (proj2 (proj2 create_node_duplicate_name)) dtb_new_node (str "cpu0")
           example_cpu0_fresh (Some (mkNode ∅ [example_cpu0_fresh]))).
  - apply char_free_check. reflexivity.
  - vm_compute. reflexivity.
Defined.

(** Two calls with the name [a/b] under one parent both return a node; the
    parent ends with two children of that name. *)
Lemma create_node_twice_with_slash :
  ∃ node1 p1 node2 p2,
    dtb_create_node (Some dtb_new_node) (Some (str "a/b")) = Done (Some node1, Some p1)
    ∧ name_matches (str "a/b") node1 = true
    ∧ children p1 = [node1]
    ∧ dtb_create_node (Some p1) (Some (str "a/b")) = Done (Some node2, Some p2)
    ∧ filter (fun child => name_matches (str "a/b") child = true) (children p2)
      = [node1; node2].
Proof. do 4 eexists. repeat split; vm_compute; reflexivity. Qed.

(** Calls that create nothing.  With the empty name the path resolver
    returns the parent itself: both calls return NULL and the parent stays
    without child.  A parent that has two children of a name keeps both. *)
Lemma create_node_nothing_created :
  dtb_create_node (Some dtb_new_node) (Some (str ""))
  = Done (None, Some dtb_new_node)
  ∧ children dtb_new_node = []
  ∧ dtb_create_node (Some (mkNode ∅ [example_cpu0_fresh; example_cpu0_fresh]))
      (Some (str "cpu0"))
    = Done (None, Some (mkNode ∅ [example_cpu0_fresh; example_cpu0_fresh]))
  ∧ length (filter (fun child => name_matches (str "cpu0") child = true)
              [example_cpu0_fresh; example_cpu0_fresh]) = 2%nat.
Proof. repeat split; vm_compute; reflexivity. Qed.

(** Claim C10.  A node that [dtb_create_node] returns for the name [s] (a C
    string whose length with its terminator fits 32 bits) has a [name]
    property of length [strlen(s) + 1] that holds [s] and its terminating
    NUL; a path segment matches the node if and only if it is [s]. *)
Theorem created_node_name_exact parent s node parent' :
  NUL ∉ s →
  Z.of_nat (length s) + 1 < 2 ^ 32 →
  dtb_create_node parent (Some s) = Done (Some node, parent') →
  dtb_find_prop node "name"
  = Some (mkProp (Z.of_nat (length s) + 1) false (s ++ [NUL]))
  ∧ (∀ segment, NUL ∉ segment → name_matches segment node = true ↔ segment = s)
  ∧ (∀ segment, NUL ∉ segment → find_child [node] segment = Some node ↔ segment = s).
Proof.
  intros Hs Hlen Hcreate.
  assert (dtb_set_prop_str dtb_new_node "name" s = Done node) as Hset.
  { destruct parent as [p|].
    - by apply dtb_create_node_inv in Hcreate as (_ & ? & _).
    - unfold dtb_create_node in Hcreate.
      destruct (dtb_set_prop_str dtb_new_node "name" s); cbn in Hcreate; congruence. }
  apply dtb_set_prop_str_name in Hset. subst node.
  assert (wrap32 (Z.of_nat (length s) + 1) = Z.of_nat (length s) + 1) as Hw.
  { unfold wrap32. apply Z.mod_small. lia. }
  rewrite Hw. replace (Z.to_nat (Z.of_nat (length s) + 1)) with (S (length s)) by lia.
  rewrite take_ge by (rewrite length_app; cbn; lia).
  assert (Hm : ∀ segment, NUL ∉ segment →
    name_matches segment
      (mkNode {[ "name"%string := mkProp (Z.of_nat (length s) + 1) false (s ++ [NUL]) ]} [])
    = bool_decide (segment = s)).
  { intros segment Hseg. unfold name_matches, dtb_find_prop. cbn [props].
    rewrite lookup_singleton_eq. cbn [prop_data prop_length].
    replace (Z.to_nat (Z.of_nat (length s) + 1)) with (S (length s)) by lia.
    by apply strncmp_eq_name. }
  split; [unfold dtb_find_prop; cbn [props]; by rewrite lookup_singleton_eq|].
  split; intros segment Hseg.
  - rewrite Hm by done. apply bool_decide_eq_true.
  - cbn [find_child]. rewrite Hm by done. case_bool_decide; split; done.
Qed.

Lemma created_node_name_exact_witness :
  dtb_find_prop example_cpu0_fresh "name"
  = Some (mkProp (Z.of_nat (length (str "cpu0")) + 1) false (str "cpu0" ++ [NUL]))
  ∧ (∀ segment, NUL ∉ segment →
       name_matches segment example_cpu0_fresh = true ↔ segment = str "cpu0")
  ∧ (∀ segment, NUL ∉ segment →
       find_child [example_cpu0_fresh] segment = Some example_cpu0_fresh
       ↔ segment = str "cpu0").
Proof.
  apply (created_node_name_exact (Some dtb_new_node) (str "cpu0") example_cpu0_fresh
           (Some (mkNode ∅ [example_cpu0_fresh]))).
  - apply nul_free_check. reflexivity.
  - vm_compute. reflexivity.
  - vm_compute. reflexivity.
Defined.


(** ** When the traversals fail *)



Lemma prop_size_outcome prop :
  match dtb_get_serialised_prop_size prop with
  | Done _ => placeholder_nonempty prop = true ∧ placeholder_text_ends prop = true
  | Abort => placeholder_nonempty prop = false
  | Fault => placeholder_nonempty prop = true ∧ placeholder_text_ends prop = false
  | Overflow => False
  end.
Proof.
  unfold dtb_get_serialised_prop_size, dtb_get_placeholder_size, placeholder_nonempty,
    placeholder_text_ends.
  destruct (prop_placeholder prop); cbn [negb orb]; [|done].
  destruct (0 <? prop_length prop); cbn [negb orb outcome_bind]; [|done].
  destruct (c_str (prop_bytes prop)) as [text|]; cbn [outcome_bind].
  - destruct (_ =? 0); (split; [done|]); apply bool_decide_eq_true; eauto.
  - split; [done|]. apply bool_decide_eq_false. by intros [? ?].
Qed.

Lemma all_props_in check T prop :
  all_props check T = true → prop_in_tree prop T → check prop = true.
Proof.
  intros Hall Hin. induction Hin as [ps cs name Hname|ps cs child Hchild Hin IH];
    cbn [all_props] in Hall; apply andb_true_iff in Hall as [Hps Hcs].
  - apply bool_decide_eq_true in Hps. exact (Hps name prop Hname).
  - apply IH. rewrite forallb_forall in Hcs. apply Hcs. by apply list_elem_of_In.
Qed.

Lemma props_size_failure l : ∀ sz,
  (∃ n, props_size l sz = Done n)
  ∨ ∃ kp, kp ∈ l ∧ same_failure (props_size l sz) (dtb_get_serialised_prop_size kp.2).
Proof.
  induction l as [|[key prop] l IH]; intros sz; cbn [props_size]; [eauto|].
  destruct (dtb_get_serialised_prop_size prop) as [a| | |] eqn:E; cbn [outcome_bind].
  - destruct (IH (wrap64 (sz + a))) as [?|(kp & Hin & Hf)]; [by left|].
    right. exists kp. split; [by right|done].
  - right. exists (key, prop). split; [by left|]. cbn. by rewrite E.
  - right. exists (key, prop). split; [by left|]. cbn. by rewrite E.
  - right. exists (key, prop). split; [by left|]. cbn. by rewrite E.
Qed.

Lemma props_size_done l : ∀ sz n,
  props_size l sz = Done n →
  Forall (fun kp => ∃ a, dtb_get_serialised_prop_size kp.2 = Done a) l.
Proof.
  induction l as [|[key prop] l IH]; intros sz n; cbn [props_size]; [constructor|].
  destruct (dtb_get_serialised_prop_size prop) as [a| | |] eqn:E; cbn [outcome_bind]; try done.
  intros H. constructor; [eauto|]. eapply IH, H.
Qed.

Section Failures.
Variable ht_iter : gmap string DTBProp → list (string * DTBProp).
Hypothesis ht_iter_perm : ∀ ps, ht_iter ps ≡ₚ map_to_list ps.

Lemma ht_iter_lookup ps name prop : (name, prop) ∈ ht_iter ps ↔ ps !! name = Some prop.
Proof. rewrite ht_iter_perm. apply elem_of_map_to_list. Qed.

Lemma children_size_failure cs :
  Forall (fun child =>
    (∃ n, dtb_get_serialised_node_size ht_iter child = Done n)
    ∨ ∃ prop, prop_in_tree prop child
              ∧ same_failure (dtb_get_serialised_node_size ht_iter child)
                             (dtb_get_serialised_prop_size prop)) cs →
  ∀ sz,
    (∃ n, children_size (dtb_get_serialised_node_size ht_iter) cs sz = Done n)
    ∨ ∃ child prop, child ∈ cs ∧ prop_in_tree prop child
        ∧ same_failure (children_size (dtb_get_serialised_node_size ht_iter) cs sz)
                       (dtb_get_serialised_prop_size prop).
Proof.
  induction 1 as [|child cs Hchild _ IH]; intros sz; cbn [children_size]; [eauto|].
  destruct Hchild as [[a Ha]|(prop & Hin & Hf)].
  - rewrite Ha. cbn [outcome_bind].
    destruct (IH (wrap64 (sz + a))) as [?|(c & prop & Hc & Hin & Hf)]; [by left|].
    right. exists c, prop. split; [by right|done].
  - right. exists child, prop. split; [by left|]. split; [done|].
    by destruct (dtb_get_serialised_node_size ht_iter child).
Qed.

Lemma node_size_failure T :
  (∃ n, dtb_get_serialised_node_size ht_iter T = Done n)
  ∨ ∃ prop, prop_in_tree prop T
            ∧ same_failure (dtb_get_serialised_node_size ht_iter T)
                           (dtb_get_serialised_prop_size prop).
Proof.
  induction T as [ps cs IH] using DTBNode_ind. cbn [dtb_get_serialised_node_size].
  destruct (props_size_failure (ht_iter ps) (4 + 4)) as [[sz Hsz]|([key prop] & Hin & Hf)].
  - rewrite Hsz. cbn [outcome_bind].
    destruct (children_size_failure cs IH sz) as [?|(c & prop & Hc & Hin & Hf)]; [by left|].
    right. exists prop. split; [by eapply prop_below|done].
  - right. exists prop. split; [eapply prop_here; by apply ht_iter_lookup|].
    by destruct (props_size (ht_iter ps) (4 + 4)).
Qed.

Lemma children_size_done cs (check : DTBProp → bool) :
  Forall (fun child => ∀ n, dtb_get_serialised_node_size ht_iter child = Done n →
                            all_props check child = true) cs →
  ∀ sz n, children_size (dtb_get_serialised_node_size ht_iter) cs sz = Done n →
          forallb (all_props check) cs = true.
Proof.
  induction 1 as [|child cs Hchild _ IH]; intros sz n; cbn [children_size forallb]; [done|].
  destruct (dtb_get_serialised_node_size ht_iter child) as [a| | |]; cbn [outcome_bind];
    try done.
  intros H. rewrite (Hchild a eq_refl). cbn [andb]. eapply IH, H.
Qed.

Lemma node_size_done (check : DTBProp → bool) :
  (∀ prop a, dtb_get_serialised_prop_size prop = Done a → check prop = true) →
  ∀ T n, dtb_get_serialised_node_size ht_iter T = Done n → all_props check T = true.
Proof.
  intros Hcheck T. induction T as [ps cs IH] using DTBNode_ind. intros n.
  cbn [dtb_get_serialised_node_size all_props].
  destruct (props_size (ht_iter ps) (4 + 4)) as [sz| | |] eqn:Hps; cbn [outcome_bind];
    try done.
  intros Hcs. apply andb_true_iff. split; [|by eapply children_size_done].
  apply bool_decide_eq_true. intros name prop Hname.
  apply props_size_done in Hps. rewrite Forall_forall in Hps.
  destruct (Hps (name, prop)) as [a Ha]; [by apply ht_iter_lookup|]. by eapply Hcheck.
Qed.

End Failures.


(** The assertion of the resolver, and what else can stop the traversals.
    On a tree with a placeholder property of length 0, neither traversal
    returns: each stops on the assertion, or earlier on a placeholder text
    read past its end, and both stop the same way; when every placeholder
    text of nonzero length holds its terminating NUL, both stop on the
    assertion.  When every placeholder has a nonzero length the assertion
    never fires; both traversals then return when, in addition, every
    placeholder text holds its terminating NUL within its length. *)
Theorem placeholder_length_assertion
    (ht_iter : gmap string DTBProp → list (string * DTBProp)) (T : DTBNode)
    (m : mem) (buf : Z) :
  (∀ ps, ht_iter ps ≡ₚ map_to_list ps) →
  (all_props placeholder_nonempty T = false →
     (dtb_get_serialised_node_size ht_iter T = Abort
      ∧ dtb_serialise_node ht_iter T (m, buf) = Abort)
     ∨ (dtb_get_serialised_node_size ht_iter T = Fault
        ∧ dtb_serialise_node ht_iter T (m, buf) = Fault))
  ∧ (all_props placeholder_nonempty T = false →
     all_props placeholder_text_ends T = true →
     dtb_get_serialised_node_size ht_iter T = Abort
     ∧ dtb_serialise_node ht_iter T (m, buf) = Abort)
  ∧ (all_props placeholder_nonempty T = true →
     dtb_get_serialised_node_size ht_iter T ≠ Abort
     ∧ dtb_serialise_node ht_iter T (m, buf) ≠ Abort)
  ∧ (all_props placeholder_nonempty T = true →
     all_props placeholder_text_ends T = true →
     ∃ n m', dtb_get_serialised_node_size ht_iter T = Done n
             ∧ dtb_serialise_node ht_iter T (m, buf) = Done (m', ptr_add buf n)).
Proof.
  intros Hperm.
  pose proof (serialise_node_agrees ht_iter T m buf) as Hagree.
  pose proof (node_size_failure ht_iter Hperm T) as Hfail.
  pose proof (node_size_done ht_iter Hperm placeholder_nonempty) as Hdone.
  assert (Hp : ∀ prop, prop_in_tree prop T →
    match dtb_get_serialised_prop_size prop with
    | Done _ => True
    | Abort => all_props placeholder_nonempty T = false
    | Fault => all_props placeholder_text_ends T = false
    | Overflow => False
    end).
  { intros prop Hin. pose proof (prop_size_outcome prop) as Ho.
    destruct (dtb_get_serialised_prop_size prop); [done| | |done].
    - apply not_true_is_false. intros Hall.
      rewrite (all_props_in _ _ _ Hall Hin) in Ho. done.
    - apply not_true_is_false. intros Hall.
      rewrite (all_props_in _ _ _ Hall Hin) in Ho. by destruct Ho. }
  destruct (dtb_get_serialised_node_size ht_iter T) as [n| | |] eqn:Hsize.
  - destruct Hagree as [_ [m' Hser]].
    assert (all_props placeholder_nonempty T = true) as Hne.
    { eapply Hdone; [|done]. intros prop a Ha. pose proof (prop_size_outcome prop) as Ho.
      rewrite Ha in Ho. by destruct Ho. }
    rewrite Hne, Hser. repeat split; try done. eauto.
  - destruct Hfail as [[? ?]|(prop & Hin & Hf)]; [done|]. specialize (Hp prop Hin).
    destruct (dtb_get_serialised_prop_size prop); try done.
    rewrite Hp, Hagree. repeat split; try done. by left.
  - destruct Hfail as [[? ?]|(prop & Hin & Hf)]; [done|]. specialize (Hp prop Hin).
    destruct (dtb_get_serialised_prop_size prop); try done.
    rewrite Hp, Hagree. repeat split; try done. by right.
  - destruct Hfail as [[? ?]|(prop & Hin & Hf)]; [done|]. specialize (Hp prop Hin).
    by destruct (dtb_get_serialised_prop_size prop).
Qed.

Lemma placeholder_length_assertion_witness :
  ∃ n m', dtb_get_serialised_node_size map_to_list example_root = Done n
          ∧ dtb_serialise_node map_to_list example_root (fun _ => NUL, 0)
            = Done (m', ptr_add 0 n).
Proof.
  destruct (placeholder_length_assertion map_to_list example_root (fun _ => NUL) 0
              (fun ps => reflexivity (map_to_list ps))) as (_ & _ & _ & H).
  apply H; vm_compute; reflexivity.
Defined.

(** Claim C9, at the input where the code leaves it.  A tree whose one
    placeholder has length 3 and the text [abc], without terminator: every
    placeholder has a nonzero length, yet neither traversal returns.  The
    resolver copies the 3 bytes into a buffer of 3 bytes and scans it for a
    comma or a NUL past its end. *)
Lemma unterminated_placeholder_text :
  all_props placeholder_nonempty unterminated_tree = true
  ∧ dtb_get_serialised_node_size map_to_list unterminated_tree = Fault
  ∧ dtb_serialise_node map_to_list unterminated_tree (fun _ => NUL, 0) = Fault.
Proof. repeat split; vm_compute; reflexivity. Qed.


(** ** Memory *)

Lemma ptr_add_small p n : 0 ≤ p + n < 2 ^ 64 → ptr_add p n = p + n.
Proof. apply wrap64_small. Qed.

Lemma store_bytes_frame l : ∀ m p a,
  0 ≤ p → p + Z.of_nat (length l) ≤ 2 ^ 64 →
  a < p ∨ p + Z.of_nat (length l) ≤ a →
  store_bytes m p l a = m a.
Proof.
  induction l as [|b l IH]; intros m p a Hp Hlen Ha; [done|].
  cbn [store_bytes]. cbn [length] in Hlen, Ha.
  destruct l as [|b' l].
  - cbn [store_bytes]. unfold store8. destruct (Z.eqb_spec a p); [lia|done].
  - rewrite ptr_add_small by (cbn [length] in Hlen; lia).
    rewrite IH by (cbn [length] in *; lia).
    unfold store8. destruct (Z.eqb_spec a p); [lia|done].
Qed.

Lemma store_bytes_lookup l : ∀ m p (i : nat) b,
  0 ≤ p → p + Z.of_nat (length l) ≤ 2 ^ 64 →
  l !! i = Some b →
  store_bytes m p l (p + Z.of_nat i) = b.
Proof.
  induction l as [|b0 l IH]; intros m p i b Hp Hlen Hi; [done|].
  cbn [store_bytes]. cbn [length] in Hlen. destruct i as [|i].
  - injection Hi as ->. rewrite Z.add_0_r.
    destruct l as [|b' l]; [cbn; unfold store8; by rewrite Z.eqb_refl|].
    rewrite ptr_add_small by (cbn [length] in Hlen; lia).
    rewrite store_bytes_frame by (cbn [length] in *; lia).
    unfold store8. by rewrite Z.eqb_refl.
  - cbn in Hi. assert (i < length l)%nat by (by eapply lookup_lt_Some).
    rewrite ptr_add_small by lia.
    replace (p + Z.of_nat (S i)) with (p + 1 + Z.of_nat i) by lia.
    apply IH; [lia|lia|done].
Qed.

Lemma load_bytes_length n : ∀ m p, length (load_bytes m p n) = n.
Proof. induction n as [|n IH]; intros m p; [done|]. cbn. by rewrite IH. Qed.

Lemma load_bytes_lookup n : ∀ m p (i : nat),
  0 ≤ p → p + Z.of_nat n ≤ 2 ^ 64 → (i < n)%nat →
  load_bytes m p n !! i = Some (m (p + Z.of_nat i)).
Proof.
  induction n as [|n IH]; intros m p i Hp Hn Hi; [lia|].
  cbn [load_bytes]. destruct i as [|i]; [by rewrite Z.add_0_r|].
  cbn [lookup list_lookup]. rewrite ptr_add_small by lia.
  change (load_bytes m (p + 1) n !! i = Some (m (p + Z.of_nat (S i)))).
  rewrite IH by lia. do 2 f_equal. lia.
Qed.

Lemma load_bytes_ext n m1 m2 p :
  0 ≤ p → p + Z.of_nat n ≤ 2 ^ 64 →
  (∀ a, p ≤ a < p + Z.of_nat n → m1 a = m2 a) →
  load_bytes m1 p n = load_bytes m2 p n.
Proof.
  intros Hp Hn Heq. apply list_eq. intros i.
  destruct (decide (i < n)%nat) as [Hi|Hi].
  - rewrite !load_bytes_lookup by done. f_equal. apply Heq. lia.
  - rewrite !lookup_ge_None_2; [done|rewrite load_bytes_length; lia..].
Qed.

Lemma load_store_bytes l m p :
  0 ≤ p → p + Z.of_nat (length l) ≤ 2 ^ 64 →
  load_bytes (store_bytes m p l) p (length l) = l.
Proof.
  intros Hp Hlen. apply list_eq. intros i.
  destruct (l !! i) as [b|] eqn:Hi.
  - assert (i < length l)%nat by (by eapply lookup_lt_Some).
    rewrite load_bytes_lookup by done. f_equal. by apply store_bytes_lookup.
  - apply lookup_ge_None_2. rewrite load_bytes_length. by apply lookup_ge_None_1.
Qed.

(** Little-endian words *)

Lemma Z_of_byte_of_Z z : Z_of_byte (byte_of_Z z) = z mod 256.
Proof.
  unfold Z_of_byte, byte_of_Z. rewrite N_ascii_embedding.
  - apply Z2N.id. apply Z.mod_pos_bound. lia.
  - assert (0 ≤ z mod 256 < 256) by (apply Z.mod_pos_bound; lia). lia.
Qed.

Lemma le32_value_bytes v : le32_value (le32_bytes v) = wrap32 v.
Proof.
  unfold le32_value, le32_bytes, wrap32. cbn [fold_right].
  rewrite !Z_of_byte_of_Z.
  change (2 ^ 8) with 256. change (2 ^ 16) with 65536. change (2 ^ 24) with 16777216.
  change (2 ^ 32) with 4294967296.
  Z.to_euclidean_division_equations. lia.
Qed.

Lemma ldl_le_p_ext m1 m2 p :
  0 ≤ p → p + 4 ≤ 2 ^ 64 →
  (∀ a, p ≤ a < p + 4 → m1 a = m2 a) →
  ldl_le_p m1 p = ldl_le_p m2 p.
Proof. intros Hp H4 Heq. unfold ldl_le_p. f_equal. by apply load_bytes_ext. Qed.

Lemma ldl_stl_le_p m p v :
  0 ≤ p → p + 4 ≤ 2 ^ 64 → ldl_le_p (stl_le_p m p v) p = wrap32 v.
Proof.
  intros Hp H4. unfold ldl_le_p, stl_le_p.
  rewrite (load_store_bytes (le32_bytes v)) by (cbn; lia). apply le32_value_bytes.
Qed.

Lemma stl_le_p_frame m p v a :
  0 ≤ p → p + 4 ≤ 2 ^ 64 → a < p ∨ p + 4 ≤ a → stl_le_p m p v a = m a.
Proof. intros. unfold stl_le_p. apply store_bytes_frame; cbn; lia. Qed.


Lemma ROUND_DOWN_4 x : 0 ≤ x < 2 ^ 32 → ROUND_DOWN x 4 = 4 * (x / 4).
Proof.
  intros Hx. unfold ROUND_DOWN.
  change (wrap32 (Z.opp 4)) with (Z.land (Z.ones 32) (Z.lnot (Z.ones 2))).
  rewrite Z.land_assoc, Z.land_ones by lia.
  rewrite Z.mod_small by lia.
  rewrite <- Z.ldiff_land, Z.ldiff_ones_r by lia.
  rewrite Z.shiftl_mul_pow2, Z.shiftr_div_pow2 by lia. change (2 ^ 2) with 4. lia.
Qed.

Lemma ROUND_UP_nonneg n : 0 ≤ ROUND_UP n 4.
Proof. unfold ROUND_UP, ROUND_DOWN. apply Z.land_nonneg. right. by vm_compute. Qed.

Lemma ROUND_UP_lt n : ROUND_UP n 4 < 2 ^ 32.
Proof.
  unfold ROUND_UP. rewrite ROUND_DOWN_4 by (apply Z.mod_pos_bound; lia).
  assert (0 ≤ wrap32 (n + 4 - 1) < 2 ^ 32) by (apply Z.mod_pos_bound; lia).
  Z.to_euclidean_division_equations. lia.
Qed.

Lemma ROUND_UP_ge n : 0 ≤ n ≤ 2 ^ 32 - 4 → n ≤ ROUND_UP n 4.
Proof.
  intros Hn. unfold ROUND_UP, wrap32. rewrite Z.mod_small by lia.
  rewrite ROUND_DOWN_4 by lia. Z.to_euclidean_division_equations. lia.
Qed.


(** ** What the serialiser writes, and where *)

Lemma strncpy_bytes_length n : ∀ s, length (strncpy_bytes s n) = n.
Proof.
  induction n as [|n IH]; intros s; [done|]. cbn [strncpy_bytes].
  destruct s as [|c s]; [cbn; by rewrite repeat_length|].
  destruct (is_nul c); cbn; [by rewrite repeat_length|by rewrite IH].
Qed.

Lemma record_bytes_exact n :
  wrap64 (DT_PROP_NAME_LEN + 4 + ROUND_UP n 4) = 36 + ROUND_UP n 4.
Proof.
  pose proof (ROUND_UP_nonneg n). pose proof (ROUND_UP_lt n).
  rewrite wrap64_small; unfold DT_PROP_NAME_LEN; lia.
Qed.

Lemma prop_record_bytes_nonneg prop : 0 ≤ prop_record_bytes prop.
Proof.
  unfold prop_record_bytes, dtb_get_serialised_prop_size.
  destruct (prop_placeholder prop).
  - destruct (dtb_get_placeholder_size prop) as [n| | |]; cbn [outcome_bind]; try lia.
    destruct (n =? 0); [lia|]. apply wrap64_range.
  - apply wrap64_range.
Qed.

Lemma props_bytes_nonneg l : 0 ≤ props_bytes l.
Proof.
  induction l as [|[key prop] l IH]; cbn; [lia|].
  pose proof (prop_record_bytes_nonneg prop). unfold props_bytes in IH. lia.
Qed.

Lemma prop_bytes_length prop :
  prop_length prop ≤ 2 ^ 32 - 4 →
  Z.of_nat (length (prop_bytes prop)) ≤ ROUND_UP (prop_length prop) 4.
Proof.
  intros Hlen. unfold prop_bytes. rewrite length_take.
  pose proof (ROUND_UP_nonneg (prop_length prop)).
  destruct (Z.le_gt_cases 0 (prop_length prop)).
  - pose proof (ROUND_UP_ge (prop_length prop)). lia.
  - lia.
Qed.

Lemma serialise_prop_frame key prop m c cnt m' c' cnt' :
  0 ≤ c → c + prop_record_bytes prop < 2 ^ 64 → payload_fits prop = true →
  serialise_prop key prop (m, c, cnt) = Done (m', c', cnt') →
  c' = c + prop_record_bytes prop
  ∧ cnt' = (if is_dropped prop then wrap32 (cnt - 1) else cnt)
  ∧ ∀ a, a < c ∨ c' ≤ a → m' a = m a.
Proof.
  unfold prop_record_bytes, dtb_get_serialised_prop_size, serialise_prop, payload_fits,
    is_dropped.
  intros Hc Hsz Hfit.
  pose proof (strncpy_bytes_length (Z.to_nat DT_PROP_NAME_LEN) (str key)) as Hname.
  set (name := strncpy_bytes _ _) in *. clearbody name.
  assert (prop_placeholder prop = false →
          Z.of_nat (length (prop_bytes prop)) ≤ ROUND_UP (prop_length prop) 4) as Hdata.
  { intros E. rewrite E in Hfit. apply prop_bytes_length. by apply Z.leb_le in Hfit. }
  set (payload := prop_bytes prop) in *. clearbody payload.
  change (Z.to_nat DT_PROP_NAME_LEN) with 32%nat in Hname. unfold DT_PROP_NAME_LEN in *.
  destruct (prop_placeholder prop); cbn [orb andb] in *.
  - destruct (dtb_get_placeholder_size prop) as [n| | |]; cbn [outcome_bind] in *; try done.
    destruct (n =? 0).
    + intros [= <- <- <-]. split; [lia|done].
    + rewrite record_bytes_exact in Hsz. rewrite record_bytes_exact.
      pose proof (ROUND_UP_nonneg n).
      rewrite (ptr_add_small c 32), (ptr_add_small (c + 32) 4),
        (ptr_add_small (c + 32 + 4)) by lia.
      intros [= <- <- <-]. split; [lia|]. split; [done|]. intros a Ha.
      rewrite stl_le_p_frame by lia. apply store_bytes_frame; lia.
  - rewrite record_bytes_exact in Hsz. rewrite record_bytes_exact.
    specialize (Hdata eq_refl).
    pose proof (ROUND_UP_nonneg (prop_length prop)).
    rewrite (ptr_add_small c 32), (ptr_add_small (c + 32) 4) by lia.
    destruct (Z.eqb_spec (prop_length prop) 0) as [E|E]; cbn [negb].
    + rewrite E, ROUND_UP_0. intros [= <- <- <-]. split; [lia|]. split; [done|].
      intros a Ha. rewrite stl_le_p_frame by lia. apply store_bytes_frame; lia.
    + rewrite (ptr_add_small (c + 32 + 4)) by lia.
      intros [= <- <- <-]. split; [lia|]. split; [done|]. intros a Ha.
      rewrite store_bytes_frame by lia.
      rewrite stl_le_p_frame by lia. apply store_bytes_frame; lia.
Qed.

Lemma serialise_props_frame l : ∀ m c cnt m' c' cnt',
  0 ≤ c → c + props_bytes l < 2 ^ 64 →
  Forall (fun kp => payload_fits kp.2 = true) l →
  serialise_props l (m, c, cnt) = Done (m', c', cnt') →
  c' = c + props_bytes l ∧ ∀ a, a < c ∨ c' ≤ a → m' a = m a.
Proof.
  induction l as [|[key prop] l IH]; intros m c cnt m' c' cnt' Hc Hsz Hfit;
    cbn [serialise_props].
  - intros [= <- <- <-]. cbn. split; [lia|done].
  - apply Forall_cons in Hfit as [Hfit Hfits].
    change (props_bytes ((key, prop) :: l)) with (prop_record_bytes prop + props_bytes l) in *.
    pose proof (prop_record_bytes_nonneg prop). pose proof (props_bytes_nonneg l).
    destruct (serialise_prop key prop (m, c, cnt)) as [[[m1 c1] cnt1]| | |] eqn:E;
      cbn [outcome_bind]; try done.
    apply serialise_prop_frame in E as (-> & _ & Hframe1); [|done|lia|done].
    intros Hrest. apply IH in Hrest as (-> & Hframe); [|lia|lia|done].
    split; [lia|]. intros a Ha. rewrite Hframe by lia. apply Hframe1. lia.
Qed.

Lemma serialise_props_count l : ∀ m c cnt m' c' cnt',
  0 ≤ cnt < 2 ^ 32 →
  serialise_props l (m, c, cnt) = Done (m', c', cnt') →
  cnt' = wrap32 (cnt - Z.of_nat (length (filter (fun kp => is_dropped kp.2 = true) l))).
Proof.
  induction l as [|[key prop] l IH]; intros m c cnt m' c' cnt' Hcnt; cbn [serialise_props].
  - intros [= <- <- <-]. cbn. rewrite Z.sub_0_r. unfold wrap32. by rewrite Z.mod_small.
  - destruct (serialise_prop key prop (m, c, cnt)) as [[[m1 c1] cnt1]| | |] eqn:E;
      cbn [outcome_bind]; try done.
    assert (cnt1 = if is_dropped prop then wrap32 (cnt - 1) else cnt) as Hcnt1.
    { revert E. unfold serialise_prop, is_dropped.
      destruct (prop_placeholder prop); cbn [andb].
      - destruct (dtb_get_placeholder_size prop) as [n| | |]; cbn [outcome_bind]; try done.
        destruct (n =? 0); by intros [= _ _ <-].
      - destruct (negb (prop_length prop =? 0)); by intros [= _ _ <-]. }
    intros Hrest. apply IH in Hrest as ->.
    2:{ rewrite Hcnt1. destruct (is_dropped prop); [apply Z.mod_pos_bound; lia|done]. }
    rewrite Hcnt1. cbn [snd]. destruct (is_dropped prop) eqn:Hd.
    + rewrite filter_cons_True by done. cbn [length]. unfold wrap32.
      rewrite Zminus_mod_idemp_l. f_equal. lia.
    + rewrite filter_cons_False by (cbn; congruence). done.
Qed.

Section Frames.
Variable ht_iter : gmap string DTBProp → list (string * DTBProp).
Hypothesis ht_iter_perm : ∀ ps, ht_iter ps ≡ₚ map_to_list ps.

Lemma all_props_ht_iter check ps cs :
  all_props check (mkNode ps cs) = true →
  Forall (fun kp => check kp.2 = true) (ht_iter ps) ∧ forallb (all_props check) cs = true.
Proof.
  cbn [all_props]. intros [Hps Hcs]%andb_true_iff. split; [|done].
  apply bool_decide_eq_true in Hps. apply Forall_forall. intros [name prop] Hin.
  apply (ht_iter_lookup ht_iter ht_iter_perm) in Hin. exact (Hps name prop Hin).
Qed.

Lemma node_bytes_nonneg T : 8 ≤ node_bytes ht_iter T.
Proof.
  induction T as [ps cs IH] using DTBNode_ind. cbn [node_bytes].
  pose proof (props_bytes_nonneg (ht_iter ps)).
  enough (0 ≤ foldr (fun child acc => node_bytes ht_iter child + acc) 0 cs) by lia.
  induction IH as [|child cs Hchild _ IHcs]; cbn [foldr]; lia.
Qed.

Lemma children_frame cs :
  Forall (fun child => ∀ m c m' c',
    0 ≤ c → c + node_bytes ht_iter child < 2 ^ 64 →
    all_props payload_fits child = true →
    dtb_serialise_node ht_iter child (m, c) = Done (m', c') →
    c' = c + node_bytes ht_iter child ∧ ∀ a, a < c ∨ c' ≤ a → m' a = m a) cs →
  ∀ m c m' c',
    0 ≤ c →
    c + foldr (fun child acc => node_bytes ht_iter child + acc) 0 cs < 2 ^ 64 →
    forallb (all_props payload_fits) cs = true →
    g_list_foreach (dtb_serialise_node ht_iter) cs (m, c) = Done (m', c') →
    c' = c + foldr (fun child acc => node_bytes ht_iter child + acc) 0 cs
    ∧ ∀ a, a < c ∨ c' ≤ a → m' a = m a.
Proof.
  induction 1 as [|child cs Hchild _ IH]; intros m c m' c' Hc Hsz Hfit;
    cbn [g_list_foreach foldr forallb] in *.
  - intros [= <- <-]. split; [lia|done].
  - apply andb_true_iff in Hfit as [Hfit Hfits].
    pose proof (node_bytes_nonneg child).
    assert (0 ≤ foldr (fun child acc => node_bytes ht_iter child + acc) 0 cs).
    { clear. induction cs as [|x cs IHcs]; cbn [foldr]; [lia|].
      pose proof (node_bytes_nonneg x). lia. }
    destruct (dtb_serialise_node ht_iter child (m, c)) as [[m1 c1]| | |] eqn:E;
      cbn [outcome_bind]; try done.
    apply Hchild in E as [-> Hframe1]; [|done|lia|done].
    intros Hrest. apply IH in Hrest as [-> Hframe]; [|lia|lia|done].
    split; [lia|]. intros a Ha. rewrite Hframe by lia. apply Hframe1. lia.
Qed.

Lemma serialise_node_frame T : ∀ m c m' c',
  0 ≤ c → c + node_bytes ht_iter T < 2 ^ 64 →
  all_props payload_fits T = true →
  dtb_serialise_node ht_iter T (m, c) = Done (m', c') →
  c' = c + node_bytes ht_iter T ∧ ∀ a, a < c ∨ c' ≤ a → m' a = m a.
Proof.
  induction T as [ps cs IH] using DTBNode_ind. intros m c m' c' Hc Hsz Hfit.
  apply all_props_ht_iter in Hfit as [Hps Hcs].
  cbn [dtb_serialise_node node_bytes] in *.
  pose proof (props_bytes_nonneg (ht_iter ps)).
  assert (0 ≤ foldr (fun child acc => node_bytes ht_iter child + acc) 0 cs).
  { clear. induction cs as [|x cs IHcs]; cbn [foldr]; [lia|].
    pose proof (node_bytes_nonneg x). lia. }
  rewrite (ptr_add_small c 4), (ptr_add_small (c + 4) 4) by lia.
  destruct (serialise_props _ _) as [[[m1 c1] cnt1]| | |] eqn:E; cbn [outcome_bind];
    try done.
  apply serialise_props_frame in E as (-> & Hframe1); [|lia|lia|done].
  intros Hrest. apply (children_frame cs IH) in Hrest as [-> Hframe]; [|lia|lia|done].
  split; [lia|]. intros a Ha. rewrite Hframe by lia.
  rewrite stl_le_p_frame by lia. rewrite Hframe1 by lia.
  apply stl_le_p_frame; lia.
Qed.

(** The two count fields of a serialised node. *)
Lemma serialise_node_header ps cs m c m' c' :
  0 ≤ c → c + node_bytes ht_iter (mkNode ps cs) < 2 ^ 64 →
  all_props payload_fits (mkNode ps cs) = true →
  dtb_serialise_node ht_iter (mkNode ps cs) (m, c) = Done (m', c') →
  ldl_le_p m' c
  = wrap32 (wrap32 (Z.of_nat (size ps))
            - Z.of_nat (length (filter (fun kp => is_dropped kp.2 = true) (ht_iter ps))))
  ∧ ldl_le_p m' (c + 4) = wrap32 (Z.of_nat (length cs)).
Proof.
  intros Hc Hsz Hfit. apply all_props_ht_iter in Hfit as [Hps Hcs].
  cbn [dtb_serialise_node node_bytes] in *.
  pose proof (props_bytes_nonneg (ht_iter ps)).
  assert (0 ≤ foldr (fun child acc => node_bytes ht_iter child + acc) 0 cs).
  { clear. induction cs as [|x cs IHcs]; cbn [foldr]; [lia|].
    pose proof (node_bytes_nonneg x). lia. }
  rewrite (ptr_add_small c 4), (ptr_add_small (c + 4) 4) by lia.
  destruct (serialise_props _ _) as [[[m1 c1] cnt1]| | |] eqn:E; cbn [outcome_bind];
    try done.
  pose proof E as ->%serialise_props_count; [|apply Z.mod_pos_bound; lia].
  apply serialise_props_frame in E as (-> & Hframe1); [|lia|lia|done].
  intros Hrest.
  assert (Hall : Forall (fun child => ∀ m c m' c',
    0 ≤ c → c + node_bytes ht_iter child < 2 ^ 64 →
    all_props payload_fits child = true →
    dtb_serialise_node ht_iter child (m, c) = Done (m', c') →
    c' = c + node_bytes ht_iter child ∧ ∀ a, a < c ∨ c' ≤ a → m' a = m a) cs).
  { apply Forall_forall. intros child _. apply serialise_node_frame. }
  apply (children_frame cs Hall) in Hrest as [-> Hframe]; [|lia|lia|done].
  split.
  - rewrite (ldl_le_p_ext m' (stl_le_p m1 c
      (wrap32 (wrap32 (Z.of_nat (size ps))
         - Z.of_nat (length (filter (fun kp => is_dropped kp.2 = true) (ht_iter ps)))))))
      by (try lia; intros a Ha; apply Hframe; lia).
    rewrite ldl_stl_le_p by lia. unfold wrap32. by rewrite Z.mod_mod.
  - rewrite (ldl_le_p_ext m' (stl_le_p m (c + 4) (wrap32 (Z.of_nat (length cs))))).
    + rewrite ldl_stl_le_p by lia. unfold wrap32. by rewrite Z.mod_mod.
    + lia.
    + lia.
    + intros a Ha. rewrite Hframe by lia. rewrite stl_le_p_frame by lia.
      apply Hframe1. lia.
Qed.
End Frames.

(** ** Dropped placeholders *)








(** ** Reading back what the serialiser wrote *)

Lemma name_field_read n : ∀ m p s,
  0 ≤ p → p + Z.of_nat n < 2 ^ 64 →
  load_bytes m p n = strncpy_bytes s n →
  NUL ∉ s → (length s ≤ n)%nat →
  strnlen m p n = length s ∧ load_bytes m p (length s) = s.
Proof.
  induction n as [|n IH]; intros m p s Hp Hn Hload Hs Hlen.
  - destruct s; [done|cbn in Hlen; lia].
  - cbn [load_bytes strncpy_bytes strnlen] in *. destruct s as [|x s].
    + injection Hload as -> _. done.
    + apply not_elem_of_cons in Hs as [Hx Hs].
      replace (is_nul x) with false in Hload by (symmetry; apply is_nul_false; congruence).
      injection Hload as Hx' Hload. rewrite Hx'.
      replace (is_nul x) with false by (symmetry; apply is_nul_false; congruence).
      rewrite ptr_add_small in * by lia.
      destruct (IH m (p + 1) s) as [-> Hs']; [lia|lia|done|done|cbn in Hlen; lia|].
      cbn [length load_bytes]. rewrite Hx', ptr_add_small by lia. by rewrite Hs'.
Qed.

Lemma land_placeholder_bit len :
  0 ≤ len < 2 ^ 31 → Z.land len DT_PROP_PLACEHOLDER = 0.
Proof.
  intros Hlen. unfold DT_PROP_PLACEHOLDER. rewrite Z.shiftl_1_l.
  apply Z.bits_inj'. intros i Hi. rewrite Z.land_spec, Z.bits_0, Z.pow2_bits_eqb by lia.
  destruct (Z.eqb_spec 31 i) as [<-|]; [|apply andb_false_r].
  rewrite andb_true_r. apply Z.testbit_false; [lia|].
  rewrite Z.div_small by lia. done.
Qed.

Lemma prop_round_trips_inv prop :
  prop_round_trips prop = true →
  prop_placeholder prop = false
  ∧ prop_length prop = Z.of_nat (length (prop_data prop))
  ∧ 0 ≤ prop_length prop < 2 ^ 31.
Proof.
  unfold prop_round_trips. intros H.
  apply andb_true_iff in H as [H Hb]. apply andb_true_iff in H as [Hp Hl].
  apply negb_true_iff in Hp. apply bool_decide_eq_true in Hl. apply Z.ltb_lt in Hb.
  split; [done|]. split; [done|]. lia.
Qed.

Lemma name_round_trips_inv name :
  name_round_trips name = true →
  name ≠ EmptyString ∧ (NUL ∉ str name) ∧ (length (str name) ≤ 32)%nat.
Proof.
  unfold name_round_trips. intros H.
  apply andb_true_iff in H as [H Hl]. apply andb_true_iff in H as [Hn Hz].
  apply negb_true_iff in Hn. apply bool_decide_eq_false in Hn. apply nul_free_check in Hz.
  apply Z.leb_le in Hl. split; [done|]. split; [done|].
  assert (String.length name = length (str name)) as <-; [|unfold DT_PROP_NAME_LEN in Hl; lia].
  clear. induction name as [|c name IH]; [done|]. cbn. by rewrite IH.
Qed.

Lemma deserialise_prop_record key prop m c cnt m1 c1 cnt1 m2 :
  name_round_trips key = true → prop_round_trips prop = true →
  0 ≤ c → c + prop_record_bytes prop < 2 ^ 64 →
  serialise_prop key prop (m, c, cnt) = Done (m1, c1, cnt1) →
  (∀ a, c ≤ a < c1 → m2 a = m1 a) →
  dtb_deserialise_prop m2 c = (Some prop, key, c1).
Proof.
  intros (_ & Hnul & Hklen)%name_round_trips_inv (Hp & Hlen & Hrange)%prop_round_trips_inv
    Hc Hsz.
  destruct prop as [len placeholder data]. cbn [prop_placeholder prop_length prop_data] in *.
  subst placeholder.
  unfold prop_record_bytes, dtb_get_serialised_prop_size in Hsz.
  cbn [prop_placeholder prop_length] in Hsz. rewrite record_bytes_exact in Hsz.
  pose proof (ROUND_UP_nonneg len) as HR0.
  pose proof (ROUND_UP_ge len ltac:(lia)) as HR.
  unfold serialise_prop, dtb_deserialise_prop, prop_bytes.
  cbn [prop_placeholder prop_length prop_data].
  replace (Z.to_nat len) with (length data) by lia. rewrite firstn_all.
  pose proof (strncpy_bytes_length (Z.to_nat DT_PROP_NAME_LEN) (str key)) as Hname.
  change (Z.to_nat DT_PROP_NAME_LEN) with 32%nat in *. unfold DT_PROP_NAME_LEN.
  rewrite (ptr_add_small c 32), (ptr_add_small (c + 32) 4) by lia.
  set (m_name := store_bytes m c (strncpy_bytes (str key) 32)).
  set (m_len := stl_le_p m_name (c + 32) len).
  intros Hser Hm2.
  assert (c + 36 ≤ c1 ∧ ∀ a, c ≤ a < c + 36 → m2 a = m_len a) as [Hc1 Hhead].
  { destruct (Z.eqb_spec len 0) as [E|E]; cbn [negb] in Hser.
    - injection Hser as <- <- <-. split; [lia|]. intros a Ha. apply Hm2. lia.
    - rewrite ptr_add_small in Hser by lia. injection Hser as <- <- <-.
      split; [lia|]. intros a Ha. rewrite Hm2 by lia. apply store_bytes_frame; lia. }
  assert (load_bytes m2 c 32 = strncpy_bytes (str key) 32) as Hfield.
  { rewrite (load_bytes_ext 32 m2 m_name) by
      (try lia; intros a Ha; rewrite Hhead by lia; apply stl_le_p_frame; lia).
    rewrite <- Hname at 1. apply load_store_bytes; lia. }
  destruct (name_field_read 32 m2 c (str key)) as [-> ->]; [lia|lia|done..|].
  rewrite string_of_list_ascii_of_string.
  assert (ldl_le_p m2 (c + 32) = len) as ->.
  { rewrite (ldl_le_p_ext m2 m_len) by (try lia; intros a Ha; apply Hhead; lia).
    unfold m_len. rewrite ldl_stl_le_p by lia. unfold wrap32. apply Z.mod_small. lia. }
  rewrite land_placeholder_bit by done. cbn [Z.eqb negb].
  destruct (Z.eqb_spec len 0) as [E|E]; cbn [negb] in *.
  - injection Hser as <- <- <-. destruct data; [by subst|cbn in Hlen; lia].
  - rewrite ptr_add_small in Hser by lia. injection Hser as <- <- <-.
    rewrite ptr_add_small by lia.
    replace (Z.to_nat len) with (length data) by lia.
    rewrite (load_bytes_ext _ m2 (store_bytes m_len (c + 32 + 4) data)) by
      (try lia; intros a Ha; apply Hm2; lia).
    rewrite load_store_bytes by lia. done.
Qed.

Lemma prop_round_trips_fits prop : prop_round_trips prop = true → payload_fits prop = true.
Proof.
  intros (Hp & _ & Hlen)%prop_round_trips_inv. unfold payload_fits. rewrite Hp. cbn [orb].
  apply Z.leb_le. lia.
Qed.

Lemma prop_round_trips_kept prop : prop_round_trips prop = true → is_dropped prop = false.
Proof. intros (Hp & _)%prop_round_trips_inv. unfold is_dropped. by rewrite Hp. Qed.

Lemma foldl_insert_list_to_map (l : list (string * DTBProp)) : ∀ ps0 : gmap string DTBProp,
  NoDup l.*1 → (∀ k, k ∈ l.*1 → ps0 !! k = None) →
  foldl (fun acc kp => <[kp.1 := kp.2]> acc) ps0 l = list_to_map l ∪ ps0.
Proof.
  induction l as [|[k v] l IH]; intros ps0 Hnd Hfresh; cbn [foldl].
  - rewrite list_to_map_nil. symmetry. apply (left_id_L (∅ : gmap string DTBProp) (∪)).
  - cbn in Hnd. apply NoDup_cons in Hnd as [Hk Hnd]. cbn [fst snd].
    rewrite list_to_map_cons, IH; [|done|].
    + rewrite <- insert_union_l. symmetry. apply insert_union_r.
      by apply not_elem_of_list_to_map_1.
    + intros k' Hk'. rewrite lookup_insert_ne; [|intros ->; done].
      apply Hfresh. cbn. by right.
Qed.

Lemma deserialise_props_records l : ∀ m c cnt m1 c1 cnt1 m2 (ps0 : gmap string DTBProp),
  Forall (fun kp => name_round_trips kp.1 && prop_round_trips kp.2 = true) l →
  NoDup l.*1 → (∀ k, k ∈ l.*1 → ps0 !! k = None) →
  0 ≤ c → c + props_bytes l < 2 ^ 64 →
  serialise_props l (m, c, cnt) = Done (m1, c1, cnt1) →
  (∀ a, c ≤ a < c1 → m2 a = m1 a) →
  deserialise_props (length l) m2 ps0 c
  = Done (Some (foldl (fun acc kp => <[kp.1 := kp.2]> acc) ps0 l, c1)).
Proof.
  induction l as [|[key prop] l IH]; intros m c cnt m1 c1 cnt1 m2 ps0 Hok Hnd Hfresh Hc Hsz;
    cbn [serialise_props length deserialise_props foldl].
  - by intros [= <- <- <-] _.
  - apply Forall_cons in Hok as [Hkp Hok]. cbn [fst snd] in Hkp.
    apply andb_true_iff in Hkp as [Hkey Hprop].
    cbn in Hnd. apply NoDup_cons in Hnd as [Hk Hnd].
    change (props_bytes ((key, prop) :: l)) with (prop_record_bytes prop + props_bytes l) in *.
    pose proof (prop_record_bytes_nonneg prop). pose proof (props_bytes_nonneg l).
    destruct (serialise_prop key prop (m, c, cnt)) as [[[ma ca] cnta]| | |] eqn:E;
      cbn [outcome_bind]; try done.
    intros Hrest Hm2.
    pose proof E as (Hca & _ & _)%serialise_prop_frame;
      [|done|lia|by apply prop_round_trips_fits].
    pose proof Hrest as (Hc1 & Hframe)%serialise_props_frame; [|lia|lia|].
    all: try (eapply Forall_impl; [exact Hok|]; intros [k p] Hkp; cbn [fst snd] in *;
              apply andb_true_iff in Hkp as [_ Hp]; by apply prop_round_trips_fits).
    rewrite (deserialise_prop_record key prop m c cnt ma ca cnta m2); try done; try lia.
    2:{ intros a Ha. rewrite Hm2 by lia. apply Hframe. lia. }
    rewrite bool_decide_eq_false_2 by (by apply name_round_trips_inv in Hkey as [? _]).
    cbn [negb]. rewrite bool_decide_eq_false_2.
    2:{ rewrite Hfresh; [by intros [? ?]|cbn; by left]. }
    cbn [fst snd]. apply (IH ma ca cnta m1 c1 cnt1 m2 (<[key:=prop]> ps0)).
    + done.
    + done.
    + intros k' Hk'. rewrite lookup_insert_ne; [|intros ->; done]. apply Hfresh. cbn. by right.
    + lia.
    + lia.
    + done.
    + intros a Ha. apply Hm2. lia.
Qed.

Lemma props_size_bytes l : ∀ sz n,
  props_size l sz = Done n → wrap64 n = wrap64 (sz + props_bytes l).
Proof.
  induction l as [|[key prop] l IH]; intros sz n; cbn [props_size].
  - intros [= <-]. cbn. by rewrite Z.add_0_r.
  - change (props_bytes ((key, prop) :: l)) with (prop_record_bytes prop + props_bytes l).
    unfold prop_record_bytes.
    destruct (dtb_get_serialised_prop_size prop) as [a| | |]; cbn [outcome_bind]; try done.
    intros ->%IH. rewrite wrap64_add_l. f_equal. lia.
Qed.

Section RoundTrip.
Variable ht_iter : gmap string DTBProp → list (string * DTBProp).
Hypothesis ht_iter_perm : ∀ ps, ht_iter ps ≡ₚ map_to_list ps.

Lemma children_size_bytes cs :
  Forall (fun child => ∀ n, dtb_get_serialised_node_size ht_iter child = Done n →
                            wrap64 n = wrap64 (node_bytes ht_iter child)) cs →
  ∀ sz n, children_size (dtb_get_serialised_node_size ht_iter) cs sz = Done n →
    wrap64 n
    = wrap64 (sz + foldr (fun child acc => node_bytes ht_iter child + acc) 0 cs).
Proof.
  induction 1 as [|child cs Hchild _ IH]; intros sz n; cbn [children_size foldr].
  - intros [= <-]. by rewrite Z.add_0_r.
  - destruct (dtb_get_serialised_node_size ht_iter child) as [a| | |];
      cbn [outcome_bind]; try done.
    intros ->%IH. rewrite wrap64_add_l.
    rewrite <- (wrap64_add_r _ (node_bytes _ _ + _)), <- (wrap64_add_l (node_bytes _ _)).
    rewrite <- (Hchild a eq_refl), wrap64_add_l, wrap64_add_r. f_equal. lia.
Qed.

Lemma node_size_bytes T : ∀ n,
  dtb_get_serialised_node_size ht_iter T = Done n →
  wrap64 n = wrap64 (node_bytes ht_iter T).
Proof.
  induction T as [ps cs IH] using DTBNode_ind. intros n.
  cbn [dtb_get_serialised_node_size node_bytes].
  destruct (props_size (ht_iter ps) (4 + 4)) as [sz| | |] eqn:E; cbn [outcome_bind];
    try done.
  apply props_size_bytes in E. intros ->%(children_size_bytes cs IH).
  rewrite <- wrap64_add_l, E, wrap64_add_l. f_equal; lia.
Qed.

Lemma node_round_trips_inv ps cs :
  node_round_trips (mkNode ps cs) = true →
  Forall (fun kp => name_round_trips kp.1 && prop_round_trips kp.2 = true) (ht_iter ps)
  ∧ NoDup (ht_iter ps).*1
  ∧ length (ht_iter ps) = size ps
  ∧ list_to_map (ht_iter ps) = ps
  ∧ Z.of_nat (size ps) < 2 ^ 32
  ∧ Z.of_nat (length cs) < 2 ^ 32
  ∧ forallb node_round_trips cs = true.
Proof.
  cbn [node_round_trips]. intros H.
  apply andb_true_iff in H as [H Hcs]. apply andb_true_iff in H as [H Hlen].
  apply andb_true_iff in H as [Hps Hsize].
  apply bool_decide_eq_true in Hps. apply Z.ltb_lt in Hlen, Hsize.
  split.
  { apply Forall_forall. intros [name prop] Hin.
    apply (ht_iter_lookup ht_iter ht_iter_perm) in Hin. exact (Hps name prop Hin). }
  split; [rewrite ht_iter_perm; apply NoDup_fst_map_to_list|].
  split; [rewrite ht_iter_perm; apply length_map_to_list|].
  split; [|done].
  rewrite (list_to_map_proper (ht_iter ps) (map_to_list ps)).
  - apply list_to_map_to_list.
  - rewrite ht_iter_perm. apply NoDup_fst_map_to_list.
  - apply ht_iter_perm.
Qed.

Lemma node_round_trips_all_props (check : DTBProp → bool) :
  (∀ prop, prop_round_trips prop = true → check prop = true) →
  ∀ T, node_round_trips T = true → all_props check T = true.
Proof.
  intros Hcheck T. induction T as [ps cs IH] using DTBNode_ind.
  cbn [node_round_trips all_props]. intros H.
  apply andb_true_iff in H as [H Hcs]. apply andb_true_iff in H as [H _].
  apply andb_true_iff in H as [Hps _]. apply bool_decide_eq_true in Hps.
  apply andb_true_iff. split.
  - apply bool_decide_eq_true. intros name prop Hname.
    specialize (Hps name prop Hname). apply andb_true_iff in Hps as [_ Hp]. by apply Hcheck.
  - clear -IH Hcs. induction IH as [|child cs Hchild _ IHcs]; [done|].
    cbn [forallb] in *. apply andb_true_iff in Hcs as [Hc Hcs].
    rewrite Hchild, IHcs by done. done.
Qed.

Lemma children_round_trip ps cs depth :
  Forall (fun child => ∀ m c m1 c1 m2,
    node_round_trips child = true →
    0 ≤ c → c + node_bytes ht_iter child < 2 ^ 64 →
    dtb_serialise_node ht_iter child (m, c) = Done (m1, c1) →
    (∀ a, c ≤ a < c1 → m2 a = m1 a) →
    (height child ≤ depth)%nat →
    dtb_deserialise_node depth m2 (Some c) = Done (Some (child, c1))) cs →
  ∀ m c m1 c1 m2 acc,
    forallb node_round_trips cs = true →
    0 ≤ c →
    c + foldr (fun child acc => node_bytes ht_iter child + acc) 0 cs < 2 ^ 64 →
    g_list_foreach (dtb_serialise_node ht_iter) cs (m, c) = Done (m1, c1) →
    (∀ a, c ≤ a < c1 → m2 a = m1 a) →
    (foldr (fun child acc => Nat.max (height child) acc) O cs ≤ depth)%nat →
    deserialise_children (dtb_deserialise_node depth m2) ps (length cs) acc c
    = Done (Some (mkNode ps (acc ++ cs), c1)).
Proof.
  induction 1 as [|child cs Hchild _ IH]; intros m c m1 c1 m2 acc Hok Hc Hsz;
    cbn [g_list_foreach length deserialise_children foldr forallb] in *.
  - intros [= <- <-] _ _. by rewrite app_nil_r.
  - apply andb_true_iff in Hok as [Hok Hoks].
    pose proof (node_bytes_nonneg ht_iter child).
    assert (0 ≤ foldr (fun child acc => node_bytes ht_iter child + acc) 0 cs).
    { clear. induction cs as [|x cs IHcs]; cbn [foldr]; [lia|].
      pose proof (node_bytes_nonneg ht_iter x). lia. }
    destruct (dtb_serialise_node ht_iter child (m, c)) as [[ma ca]| | |] eqn:E;
      cbn [outcome_bind]; try done.
    intros Hrest Hm2 Hdepth.
    pose proof E as [Hca _]%(serialise_node_frame ht_iter ht_iter_perm); [|lia|lia|].
    2:{ apply node_round_trips_all_props; [apply prop_round_trips_fits|done]. }
    assert (Hfits : forallb (all_props payload_fits) cs = true).
    { clear -Hoks ht_iter_perm. induction cs as [|x cs IHcs]; [done|]. cbn [forallb] in *.
      apply andb_true_iff in Hoks as [Hx Hoks].
      rewrite (node_round_trips_all_props payload_fits prop_round_trips_fits x Hx).
      by rewrite IHcs. }
    assert (Hall : Forall (fun child => ∀ m c m' c',
      0 ≤ c → c + node_bytes ht_iter child < 2 ^ 64 →
      all_props payload_fits child = true →
      dtb_serialise_node ht_iter child (m, c) = Done (m', c') →
      c' = c + node_bytes ht_iter child ∧ ∀ a, a < c ∨ c' ≤ a → m' a = m a) cs).
    { apply Forall_forall. intros x _. by apply serialise_node_frame. }
    pose proof Hrest as [Hc1 Hframe]%(children_frame ht_iter cs Hall); [|lia|lia|done].
    rewrite (Hchild m c ma ca m2); try done; try lia.
    2:{ intros a Ha. rewrite Hm2 by lia. apply Hframe. lia. }
    cbn [outcome_bind].
    rewrite (IH ma ca m1 c1 m2 (acc ++ [child])); try done; try lia.
    + by rewrite <- app_assoc.
    + intros a Ha. apply Hm2. lia.
Qed.

Lemma node_round_trip T : ∀ m c m1 c1 m2 depth,
  node_round_trips T = true →
  0 ≤ c → c + node_bytes ht_iter T < 2 ^ 64 →
  dtb_serialise_node ht_iter T (m, c) = Done (m1, c1) →
  (∀ a, c ≤ a < c1 → m2 a = m1 a) →
  (height T ≤ depth)%nat →
  dtb_deserialise_node depth m2 (Some c) = Done (Some (T, c1)).
Proof.
  induction T as [ps cs IH] using DTBNode_ind. intros m c m1 c1 m2 depth Hok Hc Hsz Hser Hm2.
  cbn [height]. destruct depth as [|depth]; [lia|]. intros Hdepth.
  pose proof (node_round_trips_all_props payload_fits prop_round_trips_fits _ Hok) as Hfit.
  assert (all_props (fun p => negb (is_dropped p)) (mkNode ps cs) = true) as Hkept.
  { apply node_round_trips_all_props; [|done].
    intros p Hp. by rewrite prop_round_trips_kept. }
  destruct (serialise_node_header ht_iter ht_iter_perm ps cs m c m1 c1 Hc Hsz Hfit Hser)
    as [Hcount Hchildren].
  pose proof Hser as [Hc1 _]%(serialise_node_frame ht_iter ht_iter_perm); [|done..].
  apply node_round_trips_inv in Hok as (Hps & Hnd & Hlen & Hmap & Hsize & Hclen & Hcs).
  apply (all_props_ht_iter ht_iter ht_iter_perm) in Hkept as [Hkept _].
  assert (filter (fun kp => is_dropped kp.2 = true) (ht_iter ps) = []) as Hnone.
  { clear -Hkept. induction Hkept as [|kp l Hkp _ IHl]; [done|].
    rewrite filter_cons_False; [done|]. apply negb_true_iff in Hkp. congruence. }
  rewrite Hnone in Hcount. cbn [length] in Hcount. rewrite Z.sub_0_r in Hcount.
  unfold wrap32 in Hcount, Hchildren. rewrite Z.mod_mod, Z.mod_small in Hcount by lia.
  rewrite Z.mod_small in Hchildren by lia.
  cbn [node_bytes] in *.
  pose proof (props_bytes_nonneg (ht_iter ps)).
  assert (0 ≤ foldr (fun child acc => node_bytes ht_iter child + acc) 0 cs).
  { clear. induction cs as [|x cs IHcs]; cbn [foldr]; [lia|].
    pose proof (node_bytes_nonneg ht_iter x). lia. }
  cbn [dtb_deserialise_node].
  rewrite (ldl_le_p_ext m2 m1 c), Hcount by (try lia; intros a Ha; apply Hm2; lia).
  rewrite (ptr_add_small c 4) by lia.
  rewrite (ldl_le_p_ext m2 m1 (c + 4)), Hchildren by (try lia; intros a Ha; apply Hm2; lia).
  rewrite (ptr_add_small (c + 4) 4) by lia. rewrite !Nat2Z.id.
  cbn [dtb_serialise_node] in Hser.
  rewrite (ptr_add_small c 4), (ptr_add_small (c + 4) 4) in Hser by lia.
  destruct (serialise_props _ _) as [[[ma ca] cnta]| | |] eqn:E; cbn [outcome_bind] in Hser;
    try done.
  assert (Hfits : Forall (fun kp => payload_fits kp.2 = true) (ht_iter ps)).
  { eapply Forall_impl; [exact Hps|]. intros [k p] Hkp. cbn [fst snd] in *.
    apply andb_true_iff in Hkp as [_ Hp]. by apply prop_round_trips_fits. }
  pose proof E as [Hca Hframe_props]%serialise_props_frame; [|lia|lia|done].
  assert (Hall : Forall (fun child => ∀ m c m' c',
    0 ≤ c → c + node_bytes ht_iter child < 2 ^ 64 →
    all_props payload_fits child = true →
    dtb_serialise_node ht_iter child (m, c) = Done (m', c') →
    c' = c + node_bytes ht_iter child ∧ ∀ a, a < c ∨ c' ≤ a → m' a = m a) cs).
  { apply Forall_forall. intros x _. by apply serialise_node_frame. }
  apply (all_props_ht_iter ht_iter ht_iter_perm) in Hfit as [_ Hfit_cs].
  pose proof Hser as [_ Hframe_cs]%(children_frame ht_iter cs Hall); [|lia|lia|done].
  rewrite <- Hlen.
  rewrite (deserialise_props_records (ht_iter ps)
             (stl_le_p m (c + 4) (wrap32 (Z.of_nat (length cs)))) (c + 4 + 4)
             (wrap32 (Z.of_nat (size ps))) ma ca cnta m2 ∅ Hps Hnd);
    [|intros; apply lookup_empty|lia|lia|exact E|].
  2:{ intros a Ha. rewrite Hm2 by lia. rewrite Hframe_cs by lia. apply stl_le_p_frame; lia. }
  cbn [outcome_bind].
  rewrite foldl_insert_list_to_map; [|done|intros; apply lookup_empty].
  rewrite (right_id_L (∅ : gmap string DTBProp) (∪)), Hmap.
  assert (IH' : Forall (fun child => ∀ m c m1 c1 m2,
    node_round_trips child = true →
    0 ≤ c → c + node_bytes ht_iter child < 2 ^ 64 →
    dtb_serialise_node ht_iter child (m, c) = Done (m1, c1) →
    (∀ a, c ≤ a < c1 → m2 a = m1 a) →
    (height child ≤ depth)%nat →
    dtb_deserialise_node depth m2 (Some c) = Done (Some (child, c1))) cs).
  { eapply Forall_impl; [exact IH|]. intros child Hchild. intros. by eapply Hchild. }
  rewrite (children_round_trip ps cs depth IH' (stl_le_p ma c cnta) ca m1 c1 m2 []);
    try done; try lia.
  intros a Ha. apply Hm2. lia.
Qed.

End RoundTrip.

(** Claim C4, as amended.  Take a tree without placeholder in which every
    property has a name of 1 to 32 characters and a length below [2 ^ 31]
    (the length field keeps bit 31 for the placeholder flag), serialised into
    a buffer of [dtb_get_serialised_node_size] bytes that lies inside the
    address space.  Deserialising the buffer gives back the same tree: the
    same properties, with their names, lengths and bytes, and the same
    children in the same order, at every level. *)
Theorem round_trip
    (ht_iter : gmap string DTBProp → list (string * DTBProp))
    (T : DTBNode) (m : mem) (buf : Z) (depth : nat) :
  (∀ ps, ht_iter ps ≡ₚ map_to_list ps) →
  node_round_trips T = true →
  0 ≤ buf → buf + node_bytes ht_iter T < 2 ^ 64 →
  (height T ≤ depth)%nat →
  dtb_get_serialised_node_size ht_iter T = Done (node_bytes ht_iter T)
  ∧ ∃ m', dtb_serialise ht_iter m buf T = Done m'
          ∧ dtb_deserialise depth m' (Some buf) = Done (Some T).
Proof.
  intros Hperm Hok Hbuf Hsz Hdepth.
  pose proof (node_bytes_nonneg ht_iter T) as Hbytes.
  pose proof (serialise_node_agrees ht_iter T m buf) as Hagree.
  destruct (node_size_failure ht_iter Hperm T) as [[n Hn]|(prop & Hin & Hfail)].
  - rewrite Hn in Hagree. destruct Hagree as [Hrange [m' Hser]].
    assert (n = node_bytes ht_iter T) as ->.
    { apply (node_size_bytes ht_iter) in Hn. rewrite !wrap64_small in Hn by lia. done. }
    split; [done|]. exists m'. unfold dtb_serialise, dtb_deserialise.
    rewrite Hser. cbn [outcome_bind]. split; [done|].
    rewrite ptr_add_small in Hser by lia.
    by rewrite (node_round_trip ht_iter Hperm T m buf m' (buf + node_bytes ht_iter T) m' depth).
  - exfalso.
    assert (prop_round_trips prop = true) as Hprop.
    { eapply all_props_in; [|exact Hin]. by apply node_round_trips_all_props. }
    apply prop_round_trips_inv in Hprop as [Hp _].
    unfold dtb_get_serialised_prop_size in Hfail. rewrite Hp in Hfail.
    by destruct (dtb_get_serialised_node_size ht_iter T).
Qed.

Lemma round_trip_witness :
  dtb_get_serialised_node_size map_to_list example_root
  = Done (node_bytes map_to_list example_root)
  ∧ ∃ m', dtb_serialise map_to_list (fun _ => NUL) 4096 example_root = Done m'
          ∧ dtb_deserialise 3 m' (Some 4096) = Done (Some example_root).
Proof.
  apply (round_trip map_to_list example_root (fun _ => NUL) 4096 3).
  - intros ps. reflexivity.
  - vm_compute. reflexivity.
  - lia.
  - vm_compute. reflexivity.
  - vm_compute. lia.
Defined.

(** A property set under the empty name is serialised and is not read
    back: the node comes back without it. *)
Lemma round_trip_loses_nameless_property :
  dtb_set_prop_null dtb_new_node "" = Done example_nameless_prop
  ∧ node_bytes map_to_list example_nameless_prop = 44
  ∧ ∃ m', dtb_serialise map_to_list (fun _ => NUL) 4096 example_nameless_prop = Done m'
          ∧ dtb_deserialise 3 m' (Some 4096) = Done (Some dtb_new_node)
          ∧ dtb_deserialise 3 m' (Some 4096) ≠ Done (Some example_nameless_prop).
Proof.
  split; [reflexivity|]. split; [reflexivity|]. eexists. split; [reflexivity|].
  split; [vm_compute; reflexivity|].
  intros H. apply (f_equal (fun r => match r with
                                     | Done (Some node) => props node !! ""%string
                                     | _ => None
                                     end)) in H.
  vm_compute in H. discriminate.
Qed.


(** ** The deserialiser and the end of the buffer *)

Lemma deserialise_props_outcome count : ∀ m ps c,
  (∃ ps' c', deserialise_props count m ps c = Done (Some (ps', c')))
  ∨ deserialise_props count m ps c = Abort.
Proof.
  induction count as [|count IH]; intros m ps c; cbn [deserialise_props]; [eauto|].
  unfold dtb_deserialise_prop.
  destruct (negb (_ =? 0)); cbn [negb];
    (destruct (negb (bool_decide (_ = ""%string))); [|apply IH]);
    (destruct (bool_decide (is_Some _)); [by right|apply IH]).
Qed.

Lemma deserialise_children_outcome
    (child_node : option Z → outcome (option (DTBNode * Z))) ps :
  (∀ c, child_node (Some c) ≠ Done None ∧ child_node (Some c) ≠ Fault) →
  ∀ count cs c,
    deserialise_children child_node ps count cs c ≠ Done None
    ∧ deserialise_children child_node ps count cs c ≠ Fault.
Proof.
  intros Hchild. induction count as [|count IH]; intros cs c; cbn [deserialise_children];
    [done|].
  destruct (Hchild c) as [Hnull Hfault].
  destruct (child_node (Some c)) as [[[child c']|]| | |]; cbn [outcome_bind];
    [apply IH|done..].
Qed.

Lemma deserialise_node_outcome depth : ∀ m c,
  dtb_deserialise_node depth m (Some c) ≠ Done None
  ∧ dtb_deserialise_node depth m (Some c) ≠ Fault.
Proof.
  induction depth as [|depth IH]; intros m c; cbn [dtb_deserialise_node]; [done|].
  destruct (deserialise_props_outcome (Z.to_nat (ldl_le_p m c)) m ∅
              (ptr_add (ptr_add c 4) 4)) as [(ps & c' & ->)| ->]; cbn [outcome_bind];
    [|done].
  apply deserialise_children_outcome. intros c0. apply IH.
Qed.

(** Claim C6, as amended.  The deserialiser is given no length and checks
    no bound.  It returns NULL for a NULL cursor, and a NULL child makes
    the node around it NULL; from a cursor that is not NULL it never
    returns NULL, whatever the memory holds: it returns a node, stops on
    the assertion that a name is new, or exhausts the stack.  A blob that
    is whole comes back as its node. *)
Theorem deserialise_fails_on_null_only :
  (∀ depth m, dtb_deserialise_node (S depth) m None = Done None)
  ∧ (∀ depth m c, dtb_deserialise_node depth m (Some c) ≠ Done None)
  ∧ (∀ depth m c, dtb_deserialise depth m (Some c) ≠ Done None)
  ∧ (∀ depth m c, dtb_deserialise_node depth m (Some c) ≠ Fault)
  ∧ (∀ child_node ps count cs c,
       child_node (Some c) = Done None →
       deserialise_children child_node ps (S count) cs c = Done None)
  ∧ dtb_deserialise 3 (mem_of_bytes 4096 example_blob NUL) (Some 4096)
    = Done (Some (mkNode {[ "a"%string := mkProp 4 false (str "wxyz") ]} [])).
Proof.
  split; [done|]. split; [intros; apply deserialise_node_outcome|].
  split.
  { intros depth m c. unfold dtb_deserialise.
    destruct (deserialise_node_outcome depth m c) as [Hnull _].
    by destruct (dtb_deserialise_node depth m (Some c)) as [[[node c']|]| | |]. }
  split; [intros; apply deserialise_node_outcome|].
  split; [|vm_compute; reflexivity].
  intros child_node ps count cs c H. cbn [deserialise_children]. by rewrite H.
Qed.

Lemma deserialise_fails_on_null_only_witness :
  deserialise_children (fun _ => Done None) ∅ 1 [] 4096 = Done None.
Proof.
  apply (proj1 (proj2 (proj2 (proj2 (proj2 deserialise_fails_on_null_only))))).
  reflexivity.
Defined.

(** A blob cut before the payload of its property, and a blob cut inside
    the record of its child: the deserialiser returns a node each time,
    made with the bytes that follow the cut. *)
Lemma deserialise_truncated_blob :
  length example_blob = 48%nat
  ∧ dtb_deserialise 3 (mem_of_bytes 4096 (take 44 example_blob) "#") (Some 4096)
    = Done (Some (mkNode {[ "a"%string := mkProp 4 false (str "####") ]} []))
  ∧ length example_blob_with_child = 16%nat
  ∧ dtb_deserialise 3 (mem_of_bytes 4096 (take 12 example_blob_with_child) NUL) (Some 4096)
    = Done (Some (mkNode ∅ [mkNode ∅ []])).
Proof. repeat split; vm_compute; reflexivity. Qed.

(** * More of the interface *)

(** ** Property store *)

Lemma wrap32_range z : 0 ≤ wrap32 z < 2 ^ 32.
Proof. unfold wrap32. apply Z.mod_pos_bound. lia. Qed.

Lemma wrap32_small z : 0 ≤ z < 2 ^ 32 → wrap32 z = z.
Proof. unfold wrap32. intros. apply Z.mod_small. lia. Qed.

Lemma dtb_set_prop_outcome node name size val :
  (dtb_set_prop node name size val = Abort ↔
   (val = None ∧ wrap32 size ≠ 0) ∨ (val ≠ None ∧ wrap32 size = 0)
   ∨ 32 ≤ Z.of_nat (String.length name))
  ∧ (dtb_set_prop node name size val ≠ Abort →
     ∃ node', dtb_set_prop node name size val = Done node').
Proof.
  unfold dtb_set_prop, DT_PROP_NAME_LEN.
  destruct (Z.eqb_spec (wrap32 size) 0) as [E|E];
    destruct (Z.ltb_spec (Z.of_nat (String.length name)) 32) as [Hn|Hn];
    destruct val as [bytes|]; cbn [negb]; (split; [split|]); try done; eauto.
  all: try (intros [[? ?]|[[? ?]|?]]; done || lia).
  all: try (intros _; by right; right).
  all: try (intros _; left; by split).
  all: try (intros _; right; left; by split).
Qed.

(** Property X1.
    [dtb_set_prop] stops on an assertion exactly when the payload and the
    size disagree on being empty or the name has 32 characters or more;
    in every other case it returns. *)
Theorem dtb_set_prop_aborts node name size val :
  (dtb_set_prop node name size val = Abort ↔
   (val = None ∧ wrap32 size ≠ 0) ∨ (val ≠ None ∧ wrap32 size = 0)
   ∨ 32 ≤ Z.of_nat (String.length name))
  ∧ (dtb_set_prop node name size val ≠ Abort →
     ∃ node', dtb_set_prop node name size val = Done node').
Proof. apply dtb_set_prop_outcome. Qed.

Lemma dtb_set_prop_aborts_witness :
  ∃ node', dtb_set_prop dtb_new_node "reg" 4 (Some (str "abcd")) = Done node'.
Proof.
  apply (proj2 (dtb_set_prop_aborts dtb_new_node "reg" 4 (Some (str "abcd")))).
  vm_compute. discriminate.
Defined.

Lemma dtb_set_prop_done node name size val node' :
  dtb_set_prop node name size val = Done node' →
  node' = mkNode (<[name := mkProp (wrap32 size) false
                             match val with
                             | Some bytes => take (Z.to_nat (wrap32 size)) bytes
                             | None => []
                             end]> (props node)) (children node)
  ∧ Z.of_nat (String.length name) < 32
  ∧ (val = None ↔ wrap32 size = 0).
Proof.
  unfold dtb_set_prop, DT_PROP_NAME_LEN.
  destruct (Z.eqb_spec (wrap32 size) 0) as [E|E];
    destruct (Z.ltb_spec (Z.of_nat (String.length name)) 32) as [Hn|Hn];
    destruct val as [bytes|]; cbn [negb]; try done.
  all: intros [= <-]; split; [done|]; split; [done|]; split; done.
Qed.

Lemma dtb_set_prop_lookup node name len val node' :
  dtb_set_prop node name len val = Done node' →
  dtb_find_prop node' name
  = Some (mkProp (wrap32 len) false
            match val with
            | Some bytes => take (Z.to_nat (wrap32 len)) bytes
            | None => []
            end)
  ∧ (∀ other, other ≠ name → dtb_find_prop node' other = dtb_find_prop node other)
  ∧ children node' = children node
  ∧ size (props node')
    = (if bool_decide (is_Some (dtb_find_prop node name)) then size (props node)
       else S (size (props node))).
Proof.
  intros (-> & _ & _)%dtb_set_prop_done. unfold dtb_find_prop. cbn [props children].
  split; [apply lookup_insert_eq|]. split; [intros; by apply lookup_insert_ne|].
  split; [done|]. case_bool_decide as H.
  - destruct H as [old H]. by apply map_size_insert_Some.
  - apply map_size_insert_None. by apply eq_None_not_Some.
Qed.

(** Property X2.
    After [dtb_set_prop] the name is bound to a property that is no
    placeholder, with the size given and the first [size] bytes of the
    payload; the properties under other names and the children are as
    before; the table has one entry more when the name is new and as many
    when it replaces one. *)
Theorem dtb_set_prop_find node name len val node' :
  dtb_set_prop node name len val = Done node' →
  dtb_find_prop node' name
  = Some (mkProp (wrap32 len) false
            match val with
            | Some bytes => take (Z.to_nat (wrap32 len)) bytes
            | None => []
            end)
  ∧ (∀ other, other ≠ name → dtb_find_prop node' other = dtb_find_prop node other)
  ∧ children node' = children node
  ∧ size (props node')
    = (if bool_decide (is_Some (dtb_find_prop node name)) then size (props node)
       else S (size (props node))).
Proof. apply dtb_set_prop_lookup. Qed.

Lemma dtb_set_prop_find_witness :
  dtb_find_prop example_nameless_prop "" = Some (mkProp (wrap32 0) false []).
Proof.
  apply (dtb_set_prop_find dtb_new_node "" 0 None example_nameless_prop).
  vm_compute. reflexivity.
Defined.

(** Little-endian words of 64 bits. *)
Lemma le64_value_bytes v : le32_value (le64_bytes v) = wrap64 v.
Proof.
  unfold le32_value, le64_bytes, wrap64. cbn [fold_right].
  rewrite !Z_of_byte_of_Z.
  change (2 ^ 8) with 256. change (2 ^ 16) with 65536. change (2 ^ 24) with 16777216.
  change (2 ^ 32) with 4294967296. change (2 ^ 40) with 1099511627776.
  change (2 ^ 48) with 281474976710656. change (2 ^ 56) with 72057594037927936.
  change (2 ^ 64) with 18446744073709551616.
  Z.to_euclidean_division_equations. lia.
Qed.

(** Property X3.
    The integer setters store the value in little-endian order: for a name
    of less than 32 characters they return, and the bytes found under the
    name, read back as a little-endian number, are the value (in 32 or 64
    bits); the property has 4 or 8 bytes and is no placeholder. *)
Theorem dtb_set_prop_integers node name val :
  Z.of_nat (String.length name) < 32 →
  (∃ node', dtb_set_prop_u32 node name val = Done node'
            ∧ ∃ prop, dtb_find_prop node' name = Some prop
                      ∧ prop_length prop = 4 ∧ prop_placeholder prop = false
                      ∧ length (prop_data prop) = 4%nat
                      ∧ le32_value (prop_data prop) = wrap32 val)
  ∧ (∃ node', dtb_set_prop_u64 node name val = Done node'
              ∧ ∃ prop, dtb_find_prop node' name = Some prop
                        ∧ prop_length prop = 8 ∧ prop_placeholder prop = false
                        ∧ length (prop_data prop) = 8%nat
                        ∧ le32_value (prop_data prop) = wrap64 val)
  ∧ dtb_set_prop_hwaddr node name val = dtb_set_prop_u64 node name val.
Proof.
  intros Hname. unfold dtb_set_prop_u32, dtb_set_prop_u64, dtb_set_prop_hwaddr.
  split; [|split; [|done]].
  - destruct (proj2 (dtb_set_prop_outcome node name 4 (Some (le32_bytes val))))
      as [node' Hset].
    { intros H. apply dtb_set_prop_outcome in H as [[? _]|[[_ ?]|?]]; [done|done|lia]. }
    exists node'. split; [done|]. apply dtb_set_prop_lookup in Hset as [Hfind _].
    eexists. split; [exact Hfind|]. cbn [prop_length prop_placeholder prop_data].
    repeat split. change (take _ _) with (le32_bytes val). apply le32_value_bytes.
  - destruct (proj2 (dtb_set_prop_outcome node name 8 (Some (le64_bytes val))))
      as [node' Hset].
    { intros H. apply dtb_set_prop_outcome in H as [[? _]|[[_ ?]|?]]; [done|done|lia]. }
    exists node'. split; [done|]. apply dtb_set_prop_lookup in Hset as [Hfind _].
    eexists. split; [exact Hfind|]. cbn [prop_length prop_placeholder prop_data].
    repeat split. change (take _ _) with (le64_bytes val). apply le64_value_bytes.
Qed.

Lemma dtb_set_prop_integers_witness :
  ∃ node', dtb_set_prop_u32 dtb_new_node "reg" 305419896 = Done node'
           ∧ ∃ prop, dtb_find_prop node' "reg" = Some prop
                     ∧ prop_length prop = 4 ∧ prop_placeholder prop = false
                     ∧ length (prop_data prop) = 4%nat
                     ∧ le32_value (prop_data prop) = wrap32 305419896.
Proof.
  apply (proj1 (dtb_set_prop_integers dtb_new_node "reg" 305419896 ltac:(vm_compute; reflexivity))).
Defined.

Lemma c_str_terminated s rest : NUL ∉ s → c_str (s ++ NUL :: rest) = Some s.
Proof.
  induction s as [|c s IH]; intros Hs; [done|].
  apply not_elem_of_cons in Hs as [Hc Hs]. cbn [app c_str].
  replace (is_nul c) with false by (symmetry; apply is_nul_false; congruence).
  by rewrite IH.
Qed.

Lemma c_str_unterminated s : NUL ∉ s → c_str s = None.
Proof.
  induction s as [|c s IH]; intros Hs; [done|].
  apply not_elem_of_cons in Hs as [Hc Hs]. cbn [c_str].
  replace (is_nul c) with false by (symmetry; apply is_nul_false; congruence).
  by rewrite IH.
Qed.

Lemma strncpy_bytes_nul_free n : ∀ s,
  NUL ∉ s → strncpy_bytes s n = take n s ++ repeat NUL (n - length s).
Proof.
  induction n as [|n IH]; intros s Hs; [done|]. cbn [strncpy_bytes].
  destruct s as [|c s]; [done|].
  apply not_elem_of_cons in Hs as [Hc Hs].
  replace (is_nul c) with false by (symmetry; apply is_nul_false; congruence).
  cbn [take length app Nat.sub]. by rewrite IH.
Qed.

(** Property X4.
    [dtb_set_prop_str] stores the string with its terminator: for a C
    string whose length with the terminator fits 32 bits, under a name of
    less than 32 characters, the property found has [strlen + 1] bytes and
    the C string read from them is the one given. *)
Theorem dtb_set_prop_str_text node name val :
  Z.of_nat (String.length name) < 32 →
  NUL ∉ val → Z.of_nat (length val) + 1 < 2 ^ 32 →
  ∃ node', dtb_set_prop_str node name val = Done node'
           ∧ dtb_find_prop node' name
             = Some (mkProp (Z.of_nat (length val) + 1) false (val ++ [NUL]))
           ∧ c_str (val ++ [NUL]) = Some val.
Proof.
  intros Hname Hval Hlen. unfold dtb_set_prop_str.
  destruct (proj2 (dtb_set_prop_outcome node name (Z.of_nat (length val) + 1)
                     (Some (val ++ [NUL])))) as [node' Hset].
  { intros H. apply dtb_set_prop_outcome in H as [[? _]|[[_ H]|?]]; [done| |lia].
    rewrite wrap32_small in H by lia. lia. }
  exists node'. split; [done|]. apply dtb_set_prop_lookup in Hset as [Hfind _].
  rewrite Hfind, wrap32_small by lia. split; [|by apply c_str_terminated].
  rewrite take_ge; [done|]. rewrite length_app. cbn. lia.
Qed.

Lemma dtb_set_prop_str_text_witness :
  ∃ node', dtb_set_prop_str dtb_new_node "compatible" (str "apple,t8027") = Done node'
           ∧ dtb_find_prop node' "compatible"
             = Some (mkProp (Z.of_nat (length (str "apple,t8027")) + 1) false
                       (str "apple,t8027" ++ [NUL]))
           ∧ c_str (str "apple,t8027" ++ [NUL]) = Some (str "apple,t8027").
Proof.
  apply (dtb_set_prop_str_text dtb_new_node "compatible" (str "apple,t8027")).
  - vm_compute. reflexivity.
  - apply nul_free_check. reflexivity.
  - vm_compute. reflexivity.
Defined.

(** Property X5.
    [dtb_set_prop_strn] stores exactly [max_len] bytes.  A string shorter
    than [max_len] is stored whole, padded with NULs, and reads back as
    itself; a string of [max_len] characters or more is cut to its first
    [max_len] characters and stored without terminator.  With [max_len] 0
    the property is a marker without data. *)
Theorem dtb_set_prop_strn_bytes node name max_len val :
  Z.of_nat (String.length name) < 32 →
  0 ≤ max_len < 2 ^ 32 → NUL ∉ val →
  ∃ node' prop,
    dtb_set_prop_strn node name max_len val = Done node'
    ∧ dtb_find_prop node' name = Some prop
    ∧ prop_length prop = max_len ∧ prop_placeholder prop = false
    ∧ Z.of_nat (length (prop_data prop)) = max_len
    ∧ (Z.of_nat (length val) < max_len →
       prop_data prop = val ++ repeat NUL (Z.to_nat max_len - length val)
       ∧ c_str (prop_data prop) = Some val)
    ∧ (max_len ≤ Z.of_nat (length val) →
       prop_data prop = take (Z.to_nat max_len) val ∧ c_str (prop_data prop) = None).
Proof.
  intros Hname Hmax Hval. unfold dtb_set_prop_strn. rewrite wrap32_small by done.
  set (buf := if max_len =? 0 then None
              else Some (strncpy_bytes val (Z.to_nat max_len))).
  destruct (proj2 (dtb_set_prop_outcome node name max_len buf)) as [node' Hset].
  { intros H. apply dtb_set_prop_outcome in H as [[Hb H]|[[Hb H]|?]]; [| |lia];
      rewrite wrap32_small in H by done; unfold buf in Hb;
      destruct (Z.eqb_spec max_len 0); done. }
  exists node'. pose proof Hset as [Hfind _]%dtb_set_prop_lookup.
  eexists. split; [done|]. split; [exact Hfind|].
  cbn [prop_length prop_placeholder prop_data]. rewrite wrap32_small by done.
  split; [done|]. split; [done|]. unfold buf.
  destruct (Z.eqb_spec max_len 0) as [->|Hpos]; cbv iota.
  - split; [done|]. split; [lia|]. intros _. by rewrite take_0.
  - rewrite take_ge by (rewrite strncpy_bytes_length; lia).
    rewrite strncpy_bytes_length, strncpy_bytes_nul_free by done.
    split; [lia|]. split.
    + intros Hshort. rewrite take_ge by lia. split; [done|].
      destruct (Z.to_nat max_len - length val)%nat as [|k] eqn:E; [lia|].
      cbn [repeat]. by apply c_str_terminated.
    + intros Hlong. replace (Z.to_nat max_len - length val)%nat with O by lia.
      cbn [repeat]. rewrite app_nil_r. split; [done|].
      apply c_str_unterminated. intros Hin. apply Hval.
      by apply (subseteq_take (Z.to_nat max_len) val).
Qed.

Lemma dtb_set_prop_strn_bytes_witness :
  ∃ node' prop,
    dtb_set_prop_strn dtb_new_node "model" 4 (str "iPhone") = Done node'
    ∧ dtb_find_prop node' "model" = Some prop
    ∧ prop_length prop = 4 ∧ prop_placeholder prop = false
    ∧ Z.of_nat (length (prop_data prop)) = 4
    ∧ (Z.of_nat (length (str "iPhone")) < 4 →
       prop_data prop = str "iPhone" ++ repeat NUL (Z.to_nat 4 - length (str "iPhone"))
       ∧ c_str (prop_data prop) = Some (str "iPhone"))
    ∧ (4 ≤ Z.of_nat (length (str "iPhone")) →
       prop_data prop = take (Z.to_nat 4) (str "iPhone") ∧ c_str (prop_data prop) = None).
Proof.
  apply (dtb_set_prop_strn_bytes dtb_new_node "model" 4 (str "iPhone")).
  - vm_compute. reflexivity.
  - lia.
  - apply nul_free_check. reflexivity.
Defined.

(** Property X6.
    [dtb_remove_prop_named] tells whether the name was bound; after it the
    name is not bound, the other names and the children are as before.
    Removing a name right after setting it, when it was not bound before,
    gives the node back as it was. *)
Theorem dtb_remove_prop_named_find node name :
  (dtb_remove_prop_named node name).1 = bool_decide (is_Some (dtb_find_prop node name))
  ∧ dtb_find_prop (dtb_remove_prop_named node name).2 name = None
  ∧ (∀ other, other ≠ name →
       dtb_find_prop (dtb_remove_prop_named node name).2 other = dtb_find_prop node other)
  ∧ children (dtb_remove_prop_named node name).2 = children node
  ∧ (dtb_find_prop node name = None → dtb_remove_prop_named node name = (false, node))
  ∧ (∀ len val node',
       dtb_find_prop node name = None →
       dtb_set_prop node name len val = Done node' →
       dtb_remove_prop_named node' name = (true, node)).
Proof.
  unfold dtb_remove_prop_named, dtb_find_prop. cbn [fst snd props children].
  split; [done|]. split; [apply lookup_delete_eq|].
  split; [intros; by apply lookup_delete_ne|]. split; [done|]. split.
  - intros H. rewrite H, delete_id by done. rewrite bool_decide_eq_false_2 by (by intros [? ?]).
    by destruct node.
  - intros len val node' Hnone (-> & _ & _)%dtb_set_prop_done. cbn [props children].
    rewrite lookup_insert_eq, delete_insert_eq, delete_id by done.
    rewrite bool_decide_eq_true_2 by eauto. by destruct node.
Qed.

Lemma dtb_remove_prop_named_find_witness :
  dtb_remove_prop_named example_nameless_prop "" = (true, dtb_new_node).
Proof.
  apply (proj2 (proj2 (proj2 (proj2 (proj2 (dtb_remove_prop_named_find dtb_new_node ""))))) 0 None).
  - reflexivity.
  - reflexivity.
Defined.

(** ** Paths and places *)

Lemma strsep_all_cons_inv delim s : ∃ token tokens, strsep_all delim s = token :: tokens.
Proof.
  destruct s as [|c s]; cbn [strsep_all]; [eauto|].
  destruct (Ascii.eqb c delim); [eauto|]. destruct (strsep_all delim s); eauto.
Qed.

Lemma strsep_all_app delim p1 p2 :
  strsep_all delim (p1 ++ delim :: p2) = strsep_all delim p1 ++ strsep_all delim p2.
Proof.
  induction p1 as [|c p1 IH]; cbn [app strsep_all].
  - by rewrite Ascii.eqb_refl.
  - destruct (Ascii.eqb c delim); [by rewrite IH|]. rewrite IH.
    by destruct (strsep_all_cons_inv delim p1) as (t & ts & ->).
Qed.

Lemma get_node_tokens_None tokens : get_node_tokens None tokens = None.
Proof. by destruct tokens. Qed.

Lemma get_node_tokens_app l1 : ∀ node l2,
  get_node_tokens node (l1 ++ l2) = get_node_tokens (get_node_tokens node l1) l2.
Proof.
  induction l1 as [|token l1 IH]; intros [n|] l2; cbn [app];
    rewrite ?get_node_tokens_None; try done.
  cbn [get_node_tokens]. destruct token as [|c token]; [apply IH|].
  destruct (find_child (children n) (c :: token)); [apply IH|].
  by rewrite get_node_tokens_None.
Qed.

(** Property X7.
    Resolving a path in two pieces: the path [p1/p2] leads where [p2] leads
    from the node [p1] leads to; not-found carries over. *)
Theorem dtb_get_node_compose node p1 p2 :
  dtb_get_node node (p1 ++ "/"%char :: p2) = dtb_get_node (dtb_get_node node p1) p2.
Proof. unfold dtb_get_node. rewrite strsep_all_app. apply get_node_tokens_app. Qed.

Lemma find_child_index_spec cs token :
  find_child cs token = find_child_index cs token ≫= fun i => cs !! i.
Proof.
  induction cs as [|child cs IH]; [done|]. cbn [find_child find_child_index].
  destruct (name_matches token child); [done|]. rewrite IH.
  by destruct (find_child_index cs token).
Qed.

Lemma find_child_index_Some cs token i :
  find_child_index cs token = Some i ↔
  ∃ child, cs !! i = Some child ∧ name_matches token child = true
           ∧ ∀ j other, cs !! j = Some other → (j < i)%nat →
                        name_matches token other = false.
Proof.
  revert i. induction cs as [|c cs IH]; intros i; cbn [find_child_index].
  - split; [done|]. by intros (? & ? & _).
  - destruct (name_matches token c) eqn:E.
    + split.
      * intros [= <-]. exists c. split; [done|]. split; [done|]. intros; lia.
      * intros (child & Hi & Hm & Hbefore). destruct i as [|i]; [done|].
        rewrite (Hbefore O c) in E; [done|done|lia].
    + destruct (find_child_index cs token) as [k|] eqn:Ek; cbn.
      * split.
        -- intros [= <-]. destruct (proj1 (IH k) eq_refl) as (child & Hk & Hm & Hbefore).
           exists child. split; [done|]. split; [done|].
           intros [|j] other Hj Hlt; cbn in Hj; [congruence|]. eapply Hbefore; [done|lia].
        -- intros (child & Hi & Hm & Hbefore). destruct i as [|i]; cbn in Hi; [congruence|].
           f_equal. assert (Some k = Some i) as [= ->]; [|done].
           apply IH. exists child. split; [done|]. split; [done|].
           intros j other Hj Hlt. apply (Hbefore (S j) other); [done|lia].
      * split; [done|]. intros (child & Hi & Hm & Hbefore).
        destruct i as [|i]; cbn in Hi; [congruence|].
        assert (None = Some i) as [=]. apply IH. exists child. split; [done|].
        split; [done|]. intros j other Hj Hlt. apply (Hbefore (S j) other); [done|lia].
Qed.

(** The place and the node: [dtb_get_node] returns the node at the place. *)
Lemma get_node_place_spec tokens : ∀ node,
  get_node_tokens (Some node) tokens = get_node_place node tokens ≫= node_at node.
Proof.
  induction tokens as [|token tokens IH]; intros node; [done|].
  cbn [get_node_tokens get_node_place]. destruct token as [|c token]; [apply IH|].
  rewrite find_child_index_spec.
  destruct (find_child_index (children node) (c :: token)) as [i|]; [|done]. cbn.
  destruct (children node !! i) as [child|] eqn:Hi; [|done]. cbn. rewrite IH.
  destruct (get_node_place child tokens) as [place|]; [|done]. cbn. by rewrite Hi.
Qed.

Lemma get_node_place_None tokens : ∀ node,
  get_node_place node tokens = None ↔ get_node_tokens (Some node) tokens = None.
Proof.
  induction tokens as [|token tokens IH]; intros node; [done|].
  cbn [get_node_tokens get_node_place]. destruct token as [|c token]; [apply IH|].
  rewrite find_child_index_spec.
  destruct (find_child_index (children node) (c :: token)) as [i|] eqn:Ei; [|done]. cbn.
  apply find_child_index_Some in Ei as (child & Hi & _). rewrite Hi. cbn.
  rewrite <- IH. by destruct (get_node_place child tokens).
Qed.

Lemma get_node_place_length tokens : ∀ node place,
  get_node_place node tokens = Some place →
  length place = length (filter (fun segment => segment ≠ []) tokens).
Proof.
  induction tokens as [|token tokens IH]; intros node place; cbn [get_node_place].
  - by intros [= <-].
  - destruct token as [|c token].
    + rewrite filter_cons_False by (by intros ?). apply IH.
    + rewrite filter_cons_True by done.
      destruct (find_child_index (children node) (c :: token)) as [i|]; [|done].
      destruct (children node !! i) as [child|]; [|done].
      destruct (get_node_place child tokens) as [rest|] eqn:E; [|done].
      intros [= <-]. cbn [length]. f_equal. by eapply IH.
Qed.

Lemma get_node_place_segment p s :
  "/"%char ∉ s → s ≠ [] →
  get_node_place p (strsep_all "/" s)
  = find_child_index (children p) s ≫= fun i => Some [i].
Proof.
  intros Hs Hnil. rewrite strsep_all_no_delim by done. cbn [get_node_place].
  destruct s as [|c s]; [done|].
  destruct (find_child_index (children p) (c :: s)) as [i|] eqn:Ei; [|done]. cbn.
  apply find_child_index_Some in Ei as (child & -> & _). done.
Qed.

(** ** Removing nodes *)

(** Property X8.
    [dtb_remove_node_named].  A path that leads nowhere: false, the parent
    as it was.  A name without slash: the first child that matches is
    removed, the other children keep their order.  A path without segment
    leads to the parent itself and a path of two segments or more to a node
    further down: neither is a child of the parent, and
    [dtb_remove_node] ends in [g_assert_not_reached]. *)
Theorem dtb_remove_node_named_cases parent name :
  (dtb_get_node (Some parent) name = None →
   dtb_remove_node_named parent name = Done (false, parent))
  ∧ (∀ i child,
       "/"%char ∉ name → name ≠ [] →
       children parent !! i = Some child → name_matches name child = true →
       (∀ j other, children parent !! j = Some other → (j < i)%nat →
                   name_matches name other = false) →
       dtb_remove_node_named parent name
       = Done (true, mkNode (props parent) (delete i (children parent))))
  ∧ (filter (fun segment => segment ≠ []) (strsep_all "/" name) = [] →
     dtb_remove_node_named parent name = Abort)
  ∧ (∀ node,
       dtb_get_node (Some parent) name = Some node →
       (2 ≤ length (filter (fun segment => segment ≠ []) (strsep_all "/" name)))%nat →
       dtb_remove_node_named parent name = Abort).
Proof.
  unfold dtb_remove_node_named, dtb_get_node. split; [|split; [|split]].
  - intros H. apply get_node_place_None in H. by rewrite H.
  - intros i child Hs Hnil Hi Hm Hbefore. rewrite get_node_place_segment by done.
    rewrite (proj2 (find_child_index_Some (children parent) name i)) by eauto.
    cbn. by rewrite Hi.
  - intros Hempty.
    destruct (get_node_place parent (strsep_all "/" name)) as [place|] eqn:E.
    + apply get_node_place_length in E. rewrite Hempty in E. by destruct place.
    + apply get_node_place_None in E. exfalso. revert E. clear -Hempty.
      induction (strsep_all "/" name) as [|token tokens IH]; [done|].
      destruct token as [|c token]; [|by rewrite filter_cons_True in Hempty].
      rewrite filter_cons_False in Hempty by (by intros ?). by apply IH.
  - intros node Hget Hlong.
    destruct (get_node_place parent (strsep_all "/" name)) as [place|] eqn:E.
    + apply get_node_place_length in E. destruct place as [|i [|j place]]; cbn in E;
        [lia|lia|done].
    + apply get_node_place_None in E. congruence.
Qed.

Lemma dtb_remove_node_named_cases_witness :
  dtb_remove_node_named example_root (str "cpu0") = Done (true, mkNode ∅ [])
  ∧ dtb_remove_node_named example_root (str "cpu0/reg") = Abort.
Proof.
  destruct (dtb_remove_node_named_cases example_root (str "cpu0")) as (_ & H & _).
  destruct (dtb_remove_node_named_cases example_root (str "cpu0/reg")) as (_ & _ & _ & H').
  split.
  - apply (H O example_cpu0).
    + apply char_free_check. reflexivity.
    + discriminate.
    + reflexivity.
    + vm_compute. reflexivity.
    + intros; lia.
  - apply (H' example_reg).
    + vm_compute. reflexivity.
    + vm_compute. lia.
Defined.

(** ** Creating nodes *)

Lemma find_child_app_old cs token node child :
  find_child cs token = Some child → find_child (cs ++ [node]) token = Some child.
Proof.
  induction cs as [|c cs IH]; cbn [app find_child]; [done|].
  destruct (name_matches token c); [done|apply IH].
Qed.

Lemma find_child_index_app_new cs token node :
  find_child cs token = None → name_matches token node = true →
  find_child_index (cs ++ [node]) token = Some (length cs).
Proof.
  intros Hcs Hnode. induction cs as [|c cs IH]; cbn [app find_child_index length].
  - by rewrite Hnode.
  - cbn [find_child] in Hcs. destruct (name_matches token c); [done|].
    by rewrite IH.
Qed.

(** Property X9.
    A node that [dtb_create_node] returns under a parent is found under
    its name (a name without slash), as the last child; and every path
    that led from the parent to a node still leads to that node. *)
Theorem dtb_create_node_get p s node p1 :
  dtb_create_node (Some p) (Some s) = Done (Some node, Some p1) →
  children p1 = children p ++ [node]
  ∧ props p1 = props p
  ∧ ("/"%char ∉ s → dtb_get_node (Some p1) s = Some node)
  ∧ (∀ path found,
       filter (fun segment => segment ≠ []) (strsep_all "/" path) ≠ [] →
       dtb_get_node (Some p) path = Some found →
       dtb_get_node (Some p1) path = Some found).
Proof.
  intros (Hget & Hset & [= ->])%dtb_create_node_inv. cbn [children props].
  split; [done|]. split; [done|]. split.
  - intros Hs. rewrite dtb_get_node_segment in Hget |- * by done.
    case_bool_decide; [done|]. cbn [children].
    apply find_child_app_new; [done|]. by apply name_matches_created.
  - intros path found. unfold dtb_get_node.
    induction (strsep_all "/" path) as [|token tokens IH]; [done|].
    destruct token as [|c token].
    + rewrite filter_cons_False by (by intros ?). cbn [get_node_tokens]. apply IH.
    + intros _. cbn [get_node_tokens children].
      destruct (find_child (children p) (c :: token)) as [child|] eqn:E; [|done].
      by rewrite (find_child_app_old _ _ node child E).
Qed.

Lemma dtb_create_node_get_witness :
  children (mkNode ∅ [example_cpu0_fresh]) = children dtb_new_node ++ [example_cpu0_fresh]
  ∧ props (mkNode ∅ [example_cpu0_fresh]) = props dtb_new_node
  ∧ ("/"%char ∉ str "cpu0" →
     dtb_get_node (Some (mkNode ∅ [example_cpu0_fresh])) (str "cpu0")
     = Some example_cpu0_fresh)
  ∧ (∀ path found,
       filter (fun segment => segment ≠ []) (strsep_all "/" path) ≠ [] →
       dtb_get_node (Some dtb_new_node) path = Some found →
       dtb_get_node (Some (mkNode ∅ [example_cpu0_fresh])) path = Some found).
Proof.
  apply (dtb_create_node_get dtb_new_node (str "cpu0") example_cpu0_fresh).
  vm_compute. reflexivity.
Defined.

(** Property X10.
    Creating a node and removing it by its name (a name without slash)
    gives the parent back as it was. *)
Theorem dtb_create_then_remove p s node p1 :
  "/"%char ∉ s →
  dtb_create_node (Some p) (Some s) = Done (Some node, Some p1) →
  dtb_remove_node_named p1 s = Done (true, p).
Proof.
  intros Hs (Hget & Hset & [= ->])%dtb_create_node_inv.
  rewrite dtb_get_node_segment in Hget by done.
  case_bool_decide as Hnil; [done|].
  unfold dtb_remove_node_named. rewrite get_node_place_segment by done. cbn [children].
  rewrite (find_child_index_app_new _ _ node Hget) by (by apply name_matches_created).
  cbn. rewrite lookup_app_r, Nat.sub_diag by lia. cbn [props children].
  replace (delete (length (children p)) (children p ++ [node])) with (children p).
  - by destruct p.
  - generalize (children p). intros cs. induction cs as [|c cs IH]; [done|].
    cbn [length app]. change (delete (S (length cs)) (c :: cs ++ [node]))
      with (c :: delete (length cs) (cs ++ [node])). by rewrite <- IH.
Qed.

Lemma dtb_create_then_remove_witness :
  dtb_remove_node_named (mkNode ∅ [example_cpu0_fresh]) (str "cpu0")
  = Done (true, dtb_new_node).
Proof.
  apply (dtb_create_then_remove dtb_new_node (str "cpu0") example_cpu0_fresh).
  - apply char_free_check. reflexivity.
  - vm_compute. reflexivity.
Defined.

(** ** Sizes *)

Lemma ROUND_UP_aligned n : ROUND_UP n 4 mod 4 = 0.
Proof.
  unfold ROUND_UP. rewrite ROUND_DOWN_4 by (apply Z.mod_pos_bound; lia).
  rewrite Z.mul_comm. apply Z.mod_mul. lia.
Qed.

Lemma prop_record_bytes_aligned prop : prop_record_bytes prop mod 4 = 0.
Proof.
  unfold prop_record_bytes, dtb_get_serialised_prop_size.
  destruct (prop_placeholder prop).
  - destruct (dtb_get_placeholder_size prop) as [n| | |]; cbn [outcome_bind]; try done.
    destruct (n =? 0); [done|]. rewrite record_bytes_exact.
    pose proof (ROUND_UP_aligned n). Z.to_euclidean_division_equations. lia.
  - rewrite record_bytes_exact.
    pose proof (ROUND_UP_aligned (prop_length prop)). Z.to_euclidean_division_equations. lia.
Qed.

Lemma props_bytes_aligned l : props_bytes l mod 4 = 0.
Proof.
  induction l as [|[key prop] l IH]; [done|].
  change (props_bytes ((key, prop) :: l)) with (prop_record_bytes prop + props_bytes l).
  pose proof (prop_record_bytes_aligned prop). Z.to_euclidean_division_equations. lia.
Qed.

Lemma node_bytes_aligned ht_iter T : node_bytes ht_iter T mod 4 = 0.
Proof.
  induction T as [ps cs IH] using DTBNode_ind. cbn [node_bytes].
  pose proof (props_bytes_aligned (ht_iter ps)).
  assert (foldr (fun child acc => node_bytes ht_iter child + acc) 0 cs mod 4 = 0).
  { induction IH as [|child cs Hchild _ IHcs]; [done|]. cbn [foldr].
    Z.to_euclidean_division_equations. lia. }
  Z.to_euclidean_division_equations. lia.
Qed.

(** Property X11.
    Every size the calculator returns is a multiple of 4 below [2 ^ 64];
    a property takes no byte at all (a dropped placeholder) or a record
    of 36 bytes at least, a multiple of 4 as well. *)
Theorem serialised_sizes_aligned
    (ht_iter : gmap string DTBProp → list (string * DTBProp)) :
  (∀ T n, dtb_get_serialised_node_size ht_iter T = Done n →
          n mod 4 = 0 ∧ 0 ≤ n < 2 ^ 64)
  ∧ (∀ prop n, dtb_get_serialised_prop_size prop = Done n →
               n mod 4 = 0 ∧ (n = 0 ∨ 36 ≤ n ≤ 36 + (2 ^ 32 - 4))
               ∧ (n = 0 ↔ is_dropped prop = true)).
Proof.
  split.
  - intros T n Hn. pose proof (serialise_node_agrees ht_iter T (fun _ => NUL) 0) as Hr.
    rewrite Hn in Hr. destruct Hr as [Hr _]. split; [|done].
    pose proof (node_size_bytes ht_iter T n Hn) as Hb.
    rewrite (wrap64_small n) in Hb by done. pose proof (node_bytes_aligned ht_iter T).
    unfold wrap64 in Hb. change (2 ^ 64) with 18446744073709551616 in *.
    Z.to_euclidean_division_equations. lia.
  - intros prop n Hn. pose proof (prop_record_bytes_aligned prop) as Ha.
    unfold prop_record_bytes in Ha. rewrite Hn in Ha. split; [done|].
    revert Hn. unfold dtb_get_serialised_prop_size, is_dropped.
    destruct (prop_placeholder prop); cbn [andb].
    + destruct (dtb_get_placeholder_size prop) as [k| | |]; cbn [outcome_bind]; try done.
      destruct (Z.eqb_spec k 0) as [E|E]; intros [= <-]; [by split; [left|]|].
      rewrite record_bytes_exact. pose proof (ROUND_UP_nonneg k).
      pose proof (ROUND_UP_lt k). pose proof (ROUND_UP_aligned k).
      split; [right; Z.to_euclidean_division_equations; lia|]. split; [lia|done].
    + intros [= <-]. rewrite record_bytes_exact.
      pose proof (ROUND_UP_nonneg (prop_length prop)).
      pose proof (ROUND_UP_lt (prop_length prop)).
      pose proof (ROUND_UP_aligned (prop_length prop)).
      split; [right; Z.to_euclidean_division_equations; lia|]. split; [lia|done].
Qed.

Lemma serialised_sizes_aligned_witness :
  node_bytes map_to_list example_root mod 4 = 0
  ∧ 0 ≤ node_bytes map_to_list example_root < 2 ^ 64.
Proof.
  apply (proj1 (serialised_sizes_aligned map_to_list) example_root).
  vm_compute. reflexivity.
Defined.

(** Property X12.
    The serialiser stays in its window: for a tree whose payloads fit
    their records, written into a buffer inside the address space, the
    cursor ends at the start plus the size, the size calculator returns
    that size, and no byte before the start or from the end on is
    changed. *)
Theorem serialiser_stays_in_window
    (ht_iter : gmap string DTBProp → list (string * DTBProp))
    (T : DTBNode) (m : mem) (buf : Z) (m' : mem) (buf' : Z) :
  (∀ ps, ht_iter ps ≡ₚ map_to_list ps) →
  0 ≤ buf → buf + node_bytes ht_iter T < 2 ^ 64 →
  all_props payload_fits T = true →
  dtb_serialise_node ht_iter T (m, buf) = Done (m', buf') →
  dtb_get_serialised_node_size ht_iter T = Done (buf' - buf)
  ∧ buf ≤ buf' - 8
  ∧ ∀ a, a < buf ∨ buf' ≤ a → m' a = m a.
Proof.
  intros Hperm Hbuf Hsz Hfit Hser.
  destruct (serialise_node_frame ht_iter Hperm T m buf m' buf' Hbuf Hsz Hfit Hser)
    as [-> Hframe].
  pose proof (node_bytes_nonneg ht_iter T).
  split; [|split; [lia|done]].
  pose proof (serialise_node_agrees ht_iter T m buf) as Hagree.
  destruct (dtb_get_serialised_node_size ht_iter T) as [n| | |] eqn:Hn; try congruence.
  destruct Hagree as [Hr _]. apply node_size_bytes in Hn.
  rewrite !wrap64_small in Hn by lia. f_equal. lia.
Qed.

Lemma serialiser_stays_in_window_witness :
  match dtb_serialise_node map_to_list example_placeholders (fun _ => "#"%char, 4096) with
  | Done (m', buf') =>
      dtb_get_serialised_node_size map_to_list example_placeholders = Done (buf' - 4096)
      ∧ 4096 ≤ buf' - 8
      ∧ ∀ a, a < 4096 ∨ buf' ≤ a → m' a = "#"%char
  | _ => False
  end.
Proof.
  destruct (dtb_serialise_node map_to_list example_placeholders (fun _ => "#"%char, 4096))
    as [[m' buf']| | |] eqn:E; [|vm_compute in E; discriminate..].
  apply (serialiser_stays_in_window map_to_list example_placeholders
           (fun _ => "#"%char) 4096 m' buf').
  - intros ps. reflexivity.
  - lia.
  - vm_compute. reflexivity.
  - vm_compute. reflexivity.
  - exact E.
Defined.

(** ** The order of the hash table *)

Lemma props_bytes_perm l1 l2 : l1 ≡ₚ l2 → props_bytes l1 = props_bytes l2.
Proof.
  induction 1 as [|x l1 l2 _ IH|x y l|l1 l2 l3 _ IH1 _ IH2]; unfold props_bytes in *;
    cbn [foldr]; [done|by rewrite IH|lia|congruence].
Qed.

Lemma node_bytes_order ht1 ht2 T :
  (∀ ps, ht1 ps ≡ₚ map_to_list ps) → (∀ ps, ht2 ps ≡ₚ map_to_list ps) →
  node_bytes ht1 T = node_bytes ht2 T.
Proof.
  intros H1 H2. induction T as [ps cs IH] using DTBNode_ind. cbn [node_bytes].
  rewrite (props_bytes_perm (ht1 ps) (ht2 ps)) by (by rewrite H1, H2). f_equal.
  induction IH as [|child cs Hchild _ IHcs]; [done|]. cbn [foldr]. by rewrite Hchild, IHcs.
Qed.

(** Property X13.
    The size does not depend on the order in which the hash tables are
    walked: when the calculator returns a size for one order it returns the
    same size for every other. *)
Theorem size_any_order
    (ht1 ht2 : gmap string DTBProp → list (string * DTBProp)) (T : DTBNode) (n : Z) :
  (∀ ps, ht1 ps ≡ₚ map_to_list ps) → (∀ ps, ht2 ps ≡ₚ map_to_list ps) →
  dtb_get_serialised_node_size ht1 T = Done n →
  dtb_get_serialised_node_size ht2 T = Done n.
Proof.
  intros H1 H2 Hn.
  assert (all_props
    (fun p => match dtb_get_serialised_prop_size p with Done _ => true | _ => false end)
    T = true) as Hall.
  { eapply (node_size_done ht1 H1); [|exact Hn]. intros p a Ha. by rewrite Ha. }
  destruct (node_size_failure ht2 H2 T) as [[n2 Hn2]|(prop & Hin & Hfail)].
  - rewrite Hn2. f_equal.
    pose proof (serialise_node_agrees ht1 T (fun _ => NUL) 0) as Hr1.
    pose proof (serialise_node_agrees ht2 T (fun _ => NUL) 0) as Hr2.
    rewrite Hn in Hr1. rewrite Hn2 in Hr2. destruct Hr1 as [Hr1 _], Hr2 as [Hr2 _].
    apply node_size_bytes in Hn, Hn2.
    rewrite (node_bytes_order ht1 ht2 T H1 H2) in Hn.
    rewrite (wrap64_small n), (wrap64_small n2) in * by done. congruence.
  - exfalso. pose proof (all_props_in _ _ _ Hall Hin) as Hp. cbn beta in Hp.
    destruct (dtb_get_serialised_prop_size prop); try done.
    by destruct (dtb_get_serialised_node_size ht2 T).
Qed.

Lemma size_any_order_witness :
  dtb_get_serialised_node_size (fun ps => reverse (map_to_list ps)) example_placeholders
  = Done 144.
Proof.
  apply (size_any_order map_to_list (fun ps => reverse (map_to_list ps))).
  - intros ps. reflexivity.
  - intros ps. apply reverse_Permutation.
  - vm_compute. reflexivity.
Defined.

(** ** What the deserialiser builds *)

Lemma Z_of_byte_range b : 0 ≤ Z_of_byte b < 256.
Proof. unfold Z_of_byte. pose proof (N_ascii_bounded b). lia. Qed.

Lemma ldl_le_p_range m p : 0 ≤ ldl_le_p m p < 2 ^ 32.
Proof.
  unfold ldl_le_p, le32_value. cbn [load_bytes fold_right].
  pose proof (Z_of_byte_range (m p)).
  pose proof (Z_of_byte_range (m (ptr_add p 1))).
  pose proof (Z_of_byte_range (m (ptr_add (ptr_add p 1) 1))).
  pose proof (Z_of_byte_range (m (ptr_add (ptr_add (ptr_add p 1) 1) 1))).
  change (2 ^ 32) with 4294967296. lia.
Qed.

Lemma land_placeholder_clear len :
  0 ≤ Z.land len (wrap32 (Z.lnot DT_PROP_PLACEHOLDER)) < 2 ^ 31.
Proof.
  replace (wrap32 (Z.lnot DT_PROP_PLACEHOLDER)) with (Z.ones 31) by (by vm_compute).
  rewrite Z.land_ones by lia. apply Z.mod_pos_bound. lia.
Qed.

Lemma land_placeholder_zero len :
  0 ≤ len < 2 ^ 32 → Z.land len DT_PROP_PLACEHOLDER = 0 → len < 2 ^ 31.
Proof.
  intros Hlen Hland. destruct (Z.lt_ge_cases len (2 ^ 31)) as [|Hge]; [done|exfalso].
  assert (Z.testbit (Z.land len DT_PROP_PLACEHOLDER) 31 = true) as Hbit.
  { rewrite Z.land_spec. unfold DT_PROP_PLACEHOLDER.
    rewrite Z.shiftl_1_l, Z.pow2_bits_true, andb_true_r by lia.
    apply Z.testbit_true; [lia|].
    replace (len / 2 ^ 31) with 1; [done|].
    apply Z.div_unique with (r := len - 2 ^ 31); lia. }
  rewrite Hland, Z.bits_0 in Hbit. done.
Qed.

Lemma strnlen_le n : ∀ m p, (strnlen m p n ≤ n)%nat.
Proof.
  induction n as [|n IH]; intros m p; cbn [strnlen]; [done|].
  destruct (is_nul (m p)); [lia|]. specialize (IH m (ptr_add p 1)). lia.
Qed.

Lemma strnlen_nul_free n : ∀ m p,
  forallb (fun c => negb (is_nul c)) (load_bytes m p (strnlen m p n)) = true.
Proof.
  induction n as [|n IH]; intros m p; cbn [strnlen]; [done|].
  destruct (is_nul (m p)) eqn:E; [done|]. cbn [load_bytes forallb]. by rewrite E, IH.
Qed.

Lemma string_of_list_ascii_length l :
  String.length (string_of_list_ascii l) = length l.
Proof. induction l as [|c l IH]; [done|]. cbn. by rewrite IH. Qed.

Lemma dtb_deserialise_prop_sound m c :
  ∃ prop key c', dtb_deserialise_prop m c = (Some prop, key, c')
    ∧ prop_sound prop = true
    ∧ (key = EmptyString ∨ name_round_trips key = true).
Proof.
  unfold dtb_deserialise_prop.
  set (name_len := strnlen m c (Z.to_nat DT_PROP_NAME_LEN)).
  set (key := string_of_list_ascii (load_bytes m c name_len)).
  set (word := ldl_le_p m (ptr_add c DT_PROP_NAME_LEN)).
  set (len := if negb (Z.land word DT_PROP_PLACEHOLDER =? 0)
              then Z.land word (wrap32 (Z.lnot DT_PROP_PLACEHOLDER)) else word).
  assert (0 ≤ len < 2 ^ 31) as Hlen.
  { unfold len. destruct (Z.eqb_spec (Z.land word DT_PROP_PLACEHOLDER) 0) as [E|E];
      cbn [negb]; [|apply land_placeholder_clear].
    pose proof (ldl_le_p_range m (ptr_add c DT_PROP_NAME_LEN)) as Hw. fold word in Hw.
    pose proof (land_placeholder_zero word Hw E). lia. }
  assert (key = EmptyString ∨ name_round_trips key = true) as Hkey.
  { destruct (decide (key = EmptyString)) as [|Hne]; [by left|right].
    unfold name_round_trips. rewrite bool_decide_eq_false_2 by done. cbn [negb andb].
    unfold key. rewrite list_ascii_of_string_of_list_ascii, string_of_list_ascii_length.
    rewrite load_bytes_length. unfold name_len. rewrite strnlen_nul_free. cbn [andb].
    apply Z.leb_le. pose proof (strnlen_le (Z.to_nat DT_PROP_NAME_LEN) m c).
    unfold DT_PROP_NAME_LEN in *. lia. }
  destruct (Z.eqb_spec len 0) as [E|E]; cbn [negb].
  - eexists _, _, _. split; [done|]. split; [|done].
    unfold prop_sound. cbn [prop_length prop_data length]. rewrite E. done.
  - eexists _, _, _. split; [done|]. split; [|done].
    unfold prop_sound. cbn [prop_length prop_data]. rewrite load_bytes_length.
    rewrite bool_decide_eq_true_2 by lia. apply Z.ltb_lt. lia.
Qed.

Lemma deserialise_props_sound count : ∀ m ps c ps' c' (k : nat),
  deserialise_props count m ps c = Done (Some (ps', c')) →
  map_Forall (fun name prop => name_round_trips name = true ∧ prop_sound prop = true) ps →
  (size ps ≤ k)%nat →
  map_Forall (fun name prop => name_round_trips name = true ∧ prop_sound prop = true) ps'
  ∧ (size ps' ≤ k + count)%nat.
Proof.
  induction count as [|count IH]; intros m ps c ps' c' k; cbn [deserialise_props].
  - intros [= <- <-] Hps Hk. split; [done|lia].
  - destruct (dtb_deserialise_prop_sound m c) as (prop & key & c1 & -> & Hprop & Hkey).
    destruct (decide (key = ""%string)) as [E|E].
    + rewrite bool_decide_eq_true_2 by done. cbn [negb]. intros Hrest Hps Hk.
      destruct (IH m ps c1 ps' c' k Hrest Hps Hk). split; [done|lia].
    + rewrite bool_decide_eq_false_2 by done. cbn [negb].
      destruct (decide (is_Some (ps !! key))) as [Hin|Hin].
      * by rewrite bool_decide_eq_true_2.
      * rewrite bool_decide_eq_false_2 by done. intros Hrest Hps Hk.
        destruct (IH m (<[key := prop]> ps) c1 ps' c' (S k) Hrest) as [Hps' Hsize].
        -- apply map_Forall_insert_2; [|done]. split; [|done]. by destruct Hkey.
        -- rewrite map_size_insert_None by (by apply eq_None_not_Some). lia.
        -- split; [done|lia].
Qed.

Lemma deserialise_children_sound
    (child_node : option Z → outcome (option (DTBNode * Z))) (check : DTBNode → Prop) ps :
  (∀ c child c', child_node c = Done (Some (child, c')) → check child) →
  ∀ count cs c T c',
    deserialise_children child_node ps count cs c = Done (Some (T, c')) →
    Forall check cs →
    ∃ cs', T = mkNode ps cs' ∧ Forall check cs' ∧ length cs' = (length cs + count)%nat.
Proof.
  intros Hchild. induction count as [|count IH]; intros cs c T c';
    cbn [deserialise_children].
  - intros [= <- <-] Hcs. exists cs. split; [done|]. split; [done|lia].
  - destruct (child_node (Some c)) as [[[child c1]|]| | |] eqn:E; cbn [outcome_bind];
      try done.
    intros Hrest Hcs. apply IH in Hrest as (cs' & -> & Hcs' & Hlen).
    + exists cs'. split; [done|]. split; [done|]. rewrite length_app in Hlen. cbn in Hlen. lia.
    + apply Forall_app. split; [done|]. apply Forall_cons. split; [|done].
      by eapply Hchild.
Qed.

Lemma deserialise_node_sound depth : ∀ m c T c',
  dtb_deserialise_node depth m c = Done (Some (T, c')) →
  all_props prop_sound T = true ∧ all_names name_round_trips T = true
  ∧ counts_fit T = true ∧ (height T ≤ depth)%nat.
Proof.
  induction depth as [|depth IH]; intros m c T c'; cbn [dtb_deserialise_node]; [done|].
  destruct c as [c|]; [|done].
  pose proof (ldl_le_p_range m c) as Hpc.
  pose proof (ldl_le_p_range m (ptr_add c 4)) as Hcc.
  destruct (deserialise_props _ m ∅ _) as [[[ps c1]|]| | |] eqn:E; cbn [outcome_bind];
    try done.
  apply (deserialise_props_sound _ _ _ _ _ _ O) in E as [Hps Hsize];
    [|apply map_Forall_empty|by rewrite map_size_empty].
  intros Hcs.
  apply (deserialise_children_sound _
           (fun child => all_props prop_sound child = true
                         ∧ all_names name_round_trips child = true
                         ∧ counts_fit child = true ∧ (height child ≤ depth)%nat))
    in Hcs as (cs & -> & Hcs & Hlen); [|intros; by eapply IH|done].
  cbn [length] in Hlen. cbn [all_props all_names counts_fit height].
  assert (forallb (all_props prop_sound) cs = true
          ∧ forallb (all_names name_round_trips) cs = true
          ∧ forallb counts_fit cs = true
          ∧ (foldr (fun child acc => Nat.max (height child) acc) O cs ≤ depth)%nat)
    as (-> & -> & -> & Hh).
  { clear -Hcs. induction Hcs as [|child cs (H1 & H2 & H3 & H4) _ (I1 & I2 & I3 & I4)];
      [cbn [forallb foldr]; repeat split; try done; apply Nat.le_0_l|].
    cbn [forallb foldr]. rewrite H1, H2, H3, I1, I2, I3. repeat split; try done.
    apply Nat.max_lub; done. }
  rewrite !andb_true_r. split; [|split; [|split; [|lia]]].
  - apply bool_decide_eq_true. intros name prop Hname. by destruct (Hps name prop Hname).
  - apply bool_decide_eq_true. intros name prop Hname. by destruct (Hps name prop Hname).
  - apply andb_true_iff. split; apply Z.ltb_lt; lia.
Qed.

Lemma sound_round_trips T :
  all_props prop_sound T = true → all_names name_round_trips T = true →
  counts_fit T = true → all_props (fun prop => negb (prop_placeholder prop)) T = true →
  node_round_trips T = true.
Proof.
  induction T as [ps cs IH] using DTBNode_ind.
  cbn [all_props all_names counts_fit node_round_trips].
  intros [Hp Hpcs]%andb_true_iff [Hn Hncs]%andb_true_iff [Hc Hccs]%andb_true_iff
    [Hf Hfcs]%andb_true_iff.
  apply bool_decide_eq_true in Hp, Hn, Hf. apply andb_true_iff in Hc as [-> ->].
  rewrite !andb_true_r. apply andb_true_iff. split.
  - apply bool_decide_eq_true. intros name prop Hname.
    specialize (Hp name prop Hname). specialize (Hn name prop Hname).
    specialize (Hf name prop Hname). cbn beta in *.
    unfold prop_round_trips. rewrite Hn, Hf. exact Hp.
  - clear -IH Hpcs Hncs Hccs Hfcs. induction IH as [|child cs Hchild _ IHcs]; [done|].
    cbn [forallb] in *.
    apply andb_true_iff in Hpcs as [? ?]. apply andb_true_iff in Hncs as [? ?].
    apply andb_true_iff in Hccs as [? ?]. apply andb_true_iff in Hfcs as [? ?].
    rewrite Hchild, IHcs by done. done.
Qed.

(** Property X14.
    Whatever the memory holds, a tree that the deserialiser returns is well
    formed: every property has the [length] of its data, below [2 ^ 31];
    every name in a hash table is a C string of 1 to 32 characters; every
    node has fewer than [2 ^ 32] properties and children; and the tree is no
    deeper than the recursion went. *)
Theorem deserialised_tree_sound (depth : nat) (m : mem) (c : option Z)
    (T : DTBNode) (c' : Z) :
  dtb_deserialise_node depth m c = Done (Some (T, c')) →
  all_props prop_sound T = true
  ∧ all_names name_round_trips T = true
  ∧ counts_fit T = true
  ∧ (height T ≤ depth)%nat.
Proof. apply deserialise_node_sound. Qed.

Lemma deserialised_tree_sound_witness :
  all_props prop_sound (mkNode {[ "a"%string := mkProp 4 false (str "wxyz") ]} []) = true
  ∧ all_names name_round_trips (mkNode {[ "a"%string := mkProp 4 false (str "wxyz") ]} [])
    = true
  ∧ counts_fit (mkNode {[ "a"%string := mkProp 4 false (str "wxyz") ]} []) = true
  ∧ (height (mkNode {[ "a"%string := mkProp 4 false (str "wxyz") ]} []) ≤ 3)%nat.
Proof.
  apply (deserialised_tree_sound 3 (mem_of_bytes 4096 example_blob NUL) (Some 4096) _ 4144).
  vm_compute. reflexivity.
Defined.

(** Property X15.
    A tree that the deserialiser returns, when it has no placeholder, can
    be written back and read again: the serialiser fills exactly
    [dtb_get_serialised_node_size] bytes of any buffer inside the address
    space, and the deserialiser returns the same tree from them, its cursor
    at the end of the buffer. *)
Theorem deserialised_tree_round_trips
    (ht_iter : gmap string DTBProp → list (string * DTBProp))
    (depth : nat) (m : mem) (c : option Z) (T : DTBNode) (c' : Z) (m0 : mem) (buf : Z) :
  (∀ ps, ht_iter ps ≡ₚ map_to_list ps) →
  dtb_deserialise_node depth m c = Done (Some (T, c')) →
  all_props (fun prop => negb (prop_placeholder prop)) T = true →
  0 ≤ buf → buf + node_bytes ht_iter T < 2 ^ 64 →
  dtb_get_serialised_node_size ht_iter T = Done (node_bytes ht_iter T)
  ∧ ∃ m', dtb_serialise ht_iter m0 buf T = Done m'
          ∧ dtb_deserialise_node depth m' (Some buf)
            = Done (Some (T, buf + node_bytes ht_iter T)).
Proof.
  intros Hperm Hdes Hflag Hbuf Hsz.
  apply deserialise_node_sound in Hdes as (Hp & Hn & Hc & Hh).
  pose proof (sound_round_trips T Hp Hn Hc Hflag) as Hok.
  pose proof (node_bytes_nonneg ht_iter T) as Hbytes.
  pose proof (serialise_node_agrees ht_iter T m0 buf) as Hagree.
  destruct (node_size_failure ht_iter Hperm T) as [[n Hsize]|(prop & Hin & Hfail)].
  - rewrite Hsize in Hagree. destruct Hagree as [Hrange [m' Hser]].
    assert (n = node_bytes ht_iter T) as ->.
    { apply (node_size_bytes ht_iter) in Hsize. rewrite !wrap64_small in Hsize by lia. done. }
    split; [done|]. exists m'. unfold dtb_serialise. rewrite Hser. cbn [outcome_bind].
    split; [done|]. rewrite ptr_add_small in Hser by lia.
    by apply (node_round_trip ht_iter Hperm T m0 buf m').
  - exfalso.
    pose proof (all_props_in _ _ _ Hflag Hin) as Hprop. cbn beta in Hprop.
    apply negb_true_iff in Hprop.
    unfold dtb_get_serialised_prop_size in Hfail. rewrite Hprop in Hfail.
    by destruct (dtb_get_serialised_node_size ht_iter T).
Qed.

Lemma deserialised_tree_round_trips_witness :
  dtb_get_serialised_node_size map_to_list
    (mkNode {[ "a"%string := mkProp 4 false (str "####") ]} [])
  = Done (node_bytes map_to_list (mkNode {[ "a"%string := mkProp 4 false (str "####") ]} []))
  ∧ ∃ m', dtb_serialise map_to_list (fun _ => NUL) 8192
            (mkNode {[ "a"%string := mkProp 4 false (str "####") ]} []) = Done m'
          ∧ dtb_deserialise_node 3 m' (Some 8192)
            = Done (Some (mkNode {[ "a"%string := mkProp 4 false (str "####") ]} [],
                          8192 + node_bytes map_to_list
                                   (mkNode {[ "a"%string := mkProp 4 false (str "####") ]} []))).
Proof.
  apply (deserialised_tree_round_trips map_to_list 3
           (mem_of_bytes 4096 (take 44 example_blob) "#") (Some 4096) _ 4144).
  - intros ps. reflexivity.
  - vm_compute. reflexivity.
  - vm_compute. reflexivity.
  - lia.
  - vm_compute. reflexivity.
Defined.

(** ** Placeholders that are kept *)

Lemma placeholder_size_tokens_range tokens : 0 ≤ placeholder_size_tokens tokens < 2 ^ 32.
Proof.
  induction tokens as [|token rest IH]; cbn [placeholder_size_tokens]; [lia|].
  assert (∀ z, 0 ≤ wrap32 z < 2 ^ 32) as Hw by (intros z; apply Z.mod_pos_bound; lia).
  repeat match goal with
         | |- context [if ?b then _ else _] => destruct b
         end; try done; try apply Hw; lia.
Qed.

Lemma dtb_get_placeholder_size_range prop n :
  dtb_get_placeholder_size prop = Done n → 0 ≤ n < 2 ^ 32.
Proof.
  unfold dtb_get_placeholder_size. destruct (negb _); [done|].
  destruct (c_str _); [|done]. intros [= <-]. apply placeholder_size_tokens_range.
Qed.

(** Property X16.
    A placeholder whose text resolves to a size [n] that is not 0 is
    written as a record of [n] bytes under its name, and only the 36 bytes
    of name and length are written: the serialiser passes over the [n]
    bytes of payload and the padding and leaves there what the buffer held.
    Read back, when [n] is below [2 ^ 31], the record is a property that is
    no placeholder, whose data are those [n] bytes of the buffer. *)
Theorem placeholder_expansion (key : string) (prop : DTBProp) (m : mem)
    (c cnt n : Z) :
  prop_placeholder prop = true →
  dtb_get_placeholder_size prop = Done n → n ≠ 0 →
  name_round_trips key = true →
  0 ≤ c → c + 36 + ROUND_UP n 4 < 2 ^ 64 →
  dtb_get_serialised_prop_size prop = Done (36 + ROUND_UP n 4)
  ∧ ∃ m', serialise_prop key prop (m, c, cnt) = Done (m', c + 36 + ROUND_UP n 4, cnt)
          ∧ (∀ a, a < c ∨ c + 36 ≤ a → m' a = m a)
          ∧ (n < 2 ^ 31 →
             dtb_deserialise_prop m' c
             = (Some (mkProp n false (load_bytes m (c + 36) (Z.to_nat n))), key,
                c + 36 + ROUND_UP n 4)).
Proof.
  intros Hp Hn Hn0 (_ & Hnul & Hklen)%name_round_trips_inv Hc Hsz.
  pose proof (dtb_get_placeholder_size_range prop n Hn) as Hrange.
  pose proof (ROUND_UP_nonneg n) as HR0.
  unfold dtb_get_serialised_prop_size, serialise_prop. rewrite Hp, Hn. cbn [outcome_bind].
  rewrite (proj2 (Z.eqb_neq n 0)) by done. rewrite record_bytes_exact.
  split; [done|].
  pose proof (strncpy_bytes_length (Z.to_nat DT_PROP_NAME_LEN) (str key)) as Hname.
  change (Z.to_nat DT_PROP_NAME_LEN) with 32%nat in *. unfold DT_PROP_NAME_LEN.
  rewrite (ptr_add_small c 32), (ptr_add_small (c + 32) 4),
    (ptr_add_small (c + 32 + 4)) by lia.
  set (m_name := store_bytes m c (strncpy_bytes (str key) 32)).
  set (m_len := stl_le_p m_name (c + 32) n).
  exists m_len. split; [do 3 f_equal; lia|].
  assert (∀ a, a < c ∨ c + 36 ≤ a → m_len a = m a) as Hframe.
  { intros a Ha. unfold m_len. rewrite stl_le_p_frame by lia.
    apply store_bytes_frame; lia. }
  split; [done|]. intros Hn31.
  pose proof (ROUND_UP_ge n ltac:(lia)) as HR.
  unfold dtb_deserialise_prop. change (Z.to_nat DT_PROP_NAME_LEN) with 32%nat.
  unfold DT_PROP_NAME_LEN.
  rewrite (ptr_add_small c 32), (ptr_add_small (c + 32) 4) by lia.
  assert (load_bytes m_len c 32 = strncpy_bytes (str key) 32) as Hfield.
  { rewrite (load_bytes_ext 32 m_len m_name) by
      (try lia; intros a Ha; apply stl_le_p_frame; lia).
    rewrite <- Hname at 1. apply load_store_bytes; lia. }
  destruct (name_field_read 32 m_len c (str key)) as [-> ->]; [lia|lia|done..|].
  rewrite string_of_list_ascii_of_string.
  assert (ldl_le_p m_len (c + 32) = n) as ->.
  { unfold m_len. rewrite ldl_stl_le_p by lia. unfold wrap32. apply Z.mod_small. lia. }
  rewrite land_placeholder_bit by lia. cbn [Z.eqb negb].
  rewrite (proj2 (Z.eqb_neq n 0)) by done. cbn [negb].
  rewrite (ptr_add_small (c + 32 + 4)) by lia.
  rewrite (load_bytes_ext _ m_len m (c + 32 + 4)) by (try lia; intros a Ha; apply Hframe; lia).
  do 2 f_equal; [|lia]. do 3 f_equal. lia.
Qed.

Lemma placeholder_expansion_witness :
  dtb_get_serialised_prop_size (placeholder_prop "zeroes/5") = Done (36 + ROUND_UP 5 4)
  ∧ ∃ m', serialise_prop "c" (placeholder_prop "zeroes/5") (fun _ => "#"%char, 4096, 1)
          = Done (m', 4096 + 36 + ROUND_UP 5 4, 1)
          ∧ (∀ a, a < 4096 ∨ 4096 + 36 ≤ a → m' a = "#"%char)
          ∧ (5 < 2 ^ 31 →
             dtb_deserialise_prop m' 4096
             = (Some (mkProp 5 false (load_bytes (fun _ => "#"%char) (4096 + 36) (Z.to_nat 5))),
                "c"%string, 4096 + 36 + ROUND_UP 5 4)).
Proof.
  apply (placeholder_expansion "c" (placeholder_prop "zeroes/5") (fun _ => "#"%char) 4096 1 5).
  - reflexivity.
  - vm_compute. reflexivity.
  - lia.
  - vm_compute. reflexivity.
  - lia.
  - vm_compute. reflexivity.
Defined.

(** ** Names without terminator *)

Lemma strncmp_eq_data_prefix p : NUL ∉ p → ∀ t,
  strncmp_eq p t (length p) = bool_decide (p `prefix_of` t).
Proof.
  induction p as [|c p IH]; intros Hp t.
  - symmetry. apply bool_decide_eq_true. apply prefix_nil.
  - apply not_elem_of_cons in Hp as [Hc Hp]. cbn [length strncmp_eq hd tl].
    destruct t as [|d t]; cbn [hd tl].
    + destruct (Ascii.eqb c NUL) eqn:E.
      * apply Ascii.eqb_eq in E. congruence.
      * cbn. symmetry. apply bool_decide_eq_false. intros H. by apply prefix_nil_not in H.
    + destruct (Ascii.eqb c d) eqn:E; cbn [negb].
      * apply Ascii.eqb_eq in E. subst d.
        replace (is_nul c) with false by (symmetry; apply is_nul_false; congruence).
        rewrite IH by done. apply bool_decide_ext. split.
        -- apply prefix_cons.
        -- apply prefix_cons_inv_2.
      * apply Ascii.eqb_neq in E. symmetry. apply bool_decide_eq_false.
        intros H. apply prefix_cons_inv_1 in H. congruence.
Qed.

(** Property X17.
    The comparison of [dtb_get_node] is bounded by the length of the [name]
    property and by nothing else.  A child whose name is stored without
    terminator, as [dtb_set_prop_strn] and the deserialiser can store it,
    is taken for every path segment that starts with its name, and for no
    other; a child without [name] property is taken for none. *)
Theorem name_matches_unterminated (child : DTBNode) (token : list ascii) :
  (∀ prop, dtb_find_prop child "name" = Some prop →
           prop_length prop = Z.of_nat (length (prop_data prop)) →
           NUL ∉ prop_data prop →
           (name_matches token child = true ↔ prop_data prop `prefix_of` token))
  ∧ (dtb_find_prop child "name" = None → name_matches token child = false).
Proof.
  unfold name_matches. split.
  - intros prop -> Hlen Hnul. rewrite Hlen, Nat2Z.id, strncmp_eq_data_prefix by done.
    apply bool_decide_eq_true.
  - by intros ->.
Qed.

Lemma name_matches_unterminated_witness :
  name_matches (str "cpu0") (mkNode {[ "name"%string := mkProp 3 false (str "cpu") ]} [])
  = true
  ↔ str "cpu" `prefix_of` str "cpu0".
Proof.
  apply (proj1 (name_matches_unterminated
                  (mkNode {[ "name"%string := mkProp 3 false (str "cpu") ]} [])
                  (str "cpu0")) (mkProp 3 false (str "cpu"))).
  - reflexivity.
  - reflexivity.
  - apply nul_free_check. reflexivity.
Defined.

(** ** The size after a change of the tree *)

Lemma props_bytes_lookup (ps : gmap string DTBProp) name :
  props_bytes (map_to_list ps)
  = from_option prop_record_bytes 0 (ps !! name) + props_bytes (map_to_list (delete name ps)).
Proof.
  destruct (ps !! name) as [old|] eqn:E; cbn [from_option].
  - by rewrite <- (props_bytes_perm _ _ (map_to_list_delete ps name old E)).
  - by rewrite delete_id.
Qed.

Lemma props_bytes_insert (ps : gmap string DTBProp) name prop :
  props_bytes (map_to_list (<[name := prop]> ps))
  = prop_record_bytes prop + props_bytes (map_to_list (delete name ps)).
Proof.
  rewrite <- insert_delete_eq.
  by rewrite (props_bytes_perm _ _ (map_to_list_insert (delete name ps) name prop
                                       (lookup_delete_eq ps name))).
Qed.

Lemma children_bytes_app ht_iter cs1 cs2 :
  foldr (fun child acc => node_bytes ht_iter child + acc) 0 (cs1 ++ cs2)
  = foldr (fun child acc => node_bytes ht_iter child + acc) 0 cs1
    + foldr (fun child acc => node_bytes ht_iter child + acc) 0 cs2.
Proof. induction cs1 as [|c cs1 IH]; cbn [foldr app]; [done|]. rewrite IH. lia. Qed.

Lemma children_bytes_delete ht_iter cs : ∀ (i : nat) child,
  cs !! i = Some child →
  foldr (fun child acc => node_bytes ht_iter child + acc) 0 cs
  = node_bytes ht_iter child
    + foldr (fun child acc => node_bytes ht_iter child + acc) 0 (delete i cs).
Proof.
  induction cs as [|c cs IH]; intros i child; [done|]. destruct i as [|i].
  - by intros [= ->].
  - intros Hi. cbn [foldr]. change (delete (S i) (c :: cs)) with (c :: delete i cs).
    cbn [foldr]. rewrite (IH i child Hi). lia.
Qed.

Lemma children_bytes_nonneg ht_iter cs :
  (∀ ps, ht_iter ps ≡ₚ map_to_list ps) →
  0 ≤ foldr (fun child acc => node_bytes ht_iter child + acc) 0 cs.
Proof.
  intros Hperm. induction cs as [|c cs IH]; cbn [foldr]; [done|].
  pose proof (node_bytes_nonneg ht_iter c). lia.
Qed.

Section SizeExact.
Variable ht_iter : gmap string DTBProp → list (string * DTBProp).
Hypothesis ht_iter_perm : ∀ ps, ht_iter ps ≡ₚ map_to_list ps.

Lemma node_size_exact T :
  all_props size_returns T = true → node_bytes ht_iter T < 2 ^ 64 →
  dtb_get_serialised_node_size ht_iter T = Done (node_bytes ht_iter T).
Proof.
  intros Hall Hsz. pose proof (node_bytes_nonneg ht_iter T).
  destruct (node_size_failure ht_iter ht_iter_perm T) as [[n Hn]|(prop & Hin & Hfail)].
  - rewrite Hn. f_equal.
    pose proof (serialise_node_agrees ht_iter T (fun _ => NUL) 0) as Hr.
    rewrite Hn in Hr. destruct Hr as [Hr _]. apply node_size_bytes in Hn.
    rewrite !wrap64_small in Hn by lia. done.
  - exfalso. pose proof (all_props_in _ _ _ Hall Hin) as Hp. unfold size_returns in Hp.
    destruct (dtb_get_serialised_prop_size prop); try done.
    by destruct (dtb_get_serialised_node_size ht_iter T).
Qed.

Lemma node_size_inv T n :
  dtb_get_serialised_node_size ht_iter T = Done n → node_bytes ht_iter T < 2 ^ 64 →
  all_props size_returns T = true ∧ n = node_bytes ht_iter T.
Proof.
  intros Hn Hsz. pose proof (node_bytes_nonneg ht_iter T). split.
  - eapply (node_size_done ht_iter ht_iter_perm); [|exact Hn].
    intros p a Ha. unfold size_returns. by rewrite Ha.
  - pose proof (serialise_node_agrees ht_iter T (fun _ => NUL) 0) as Hr.
    rewrite Hn in Hr. destruct Hr as [Hr _]. apply node_size_bytes in Hn.
    rewrite !wrap64_small in Hn by lia. done.
Qed.

Lemma props_bytes_ht_iter ps : props_bytes (ht_iter ps) = props_bytes (map_to_list ps).
Proof. apply props_bytes_perm, ht_iter_perm. Qed.

End SizeExact.

(** Property X18.
    The size calculator follows the property store.  Removing a property
    takes from the size what the calculator counted for it, nothing when
    there was no such property; setting a property replaces that by a
    record of 36 bytes and the length rounded up to a multiple of 4. *)
Theorem size_follows_props
    (ht_iter : gmap string DTBProp → list (string * DTBProp))
    (node : DTBNode) (n : Z) (name : string) :
  (∀ ps, ht_iter ps ≡ₚ map_to_list ps) →
  dtb_get_serialised_node_size ht_iter node = Done n →
  node_bytes ht_iter node < 2 ^ 64 →
  dtb_get_serialised_node_size ht_iter (dtb_remove_prop_named node name).2
  = Done (n - from_option prop_record_bytes 0 (dtb_find_prop node name))
  ∧ ∀ len val node',
      dtb_set_prop node name len val = Done node' →
      n - from_option prop_record_bytes 0 (dtb_find_prop node name)
        + 36 + ROUND_UP (wrap32 len) 4 < 2 ^ 64 →
      dtb_get_serialised_node_size ht_iter node'
      = Done (n - from_option prop_record_bytes 0 (dtb_find_prop node name)
              + 36 + ROUND_UP (wrap32 len) 4).
Proof.
  intros Hperm Hn Hsz. destruct (node_size_inv ht_iter Hperm node n Hn Hsz) as [Hall ->].
  destruct node as [ps cs]. unfold dtb_find_prop, dtb_remove_prop_named.
  cbn [props children snd node_bytes] in *.
  cbn [all_props] in Hall.
  apply andb_true_iff in Hall as [Hps Hcs]. apply bool_decide_eq_true in Hps.
  pose proof (props_bytes_lookup ps name) as Hold.
  pose proof (props_bytes_nonneg (map_to_list (delete name ps))) as Hrest.
  pose proof (children_bytes_nonneg ht_iter cs Hperm) as Hkids.
  assert (0 ≤ from_option prop_record_bytes 0 (ps !! name)) as Hold0.
  { destruct (ps !! name); cbn [from_option]; [apply prop_record_bytes_nonneg|lia]. }
  rewrite (props_bytes_ht_iter ht_iter Hperm) in *.
  split.
  - rewrite (node_size_exact ht_iter Hperm).
    + f_equal. cbn [node_bytes]. rewrite (props_bytes_ht_iter ht_iter Hperm). lia.
    + cbn [all_props]. rewrite Hcs, andb_true_r. apply bool_decide_eq_true.
      by apply map_Forall_delete.
    + cbn [node_bytes]. rewrite (props_bytes_ht_iter ht_iter Hperm). lia.
  - intros len val node' Hset Hfit. unfold dtb_set_prop in Hset.
    destruct (match val with None => _ | Some _ => _ end); [done|].
    destruct (negb _); [done|]. injection Hset as <-. cbn [props children].
    set (prop := mkProp (wrap32 len) false _).
    assert (prop_record_bytes prop = 36 + ROUND_UP (wrap32 len) 4) as Hnew.
    { unfold prop_record_bytes, dtb_get_serialised_prop_size. cbn [prop_placeholder prop].
      cbn [prop_length]. apply record_bytes_exact. }
    rewrite (node_size_exact ht_iter Hperm).
    + f_equal. cbn [node_bytes].
      rewrite (props_bytes_ht_iter ht_iter Hperm), props_bytes_insert. lia.
    + cbn [all_props]. rewrite Hcs, andb_true_r. apply bool_decide_eq_true.
      by apply map_Forall_insert_2.
    + cbn [node_bytes].
      rewrite (props_bytes_ht_iter ht_iter Hperm), props_bytes_insert. lia.
Qed.

Lemma size_follows_props_witness :
  dtb_get_serialised_node_size map_to_list (dtb_remove_prop_named example_placeholders "a").2
  = Done (144 - from_option prop_record_bytes 0 (dtb_find_prop example_placeholders "a")).
Proof.
  apply (size_follows_props map_to_list example_placeholders 144 "a").
  - intros ps. reflexivity.
  - vm_compute. reflexivity.
  - vm_compute. reflexivity.
Defined.

(** Property X19.
    The size calculator follows the children.  Removing a child takes the
    size of the child from the size of the parent; creating a child of name
    [s] adds the 8 bytes of an empty node and the record of its [name]
    property, of [strlen(s) + 1] bytes. *)
Theorem size_follows_children
    (ht_iter : gmap string DTBProp → list (string * DTBProp))
    (parent : DTBNode) (n : Z) :
  (∀ ps, ht_iter ps ≡ₚ map_to_list ps) →
  dtb_get_serialised_node_size ht_iter parent = Done n →
  node_bytes ht_iter parent < 2 ^ 64 →
  (∀ (i : nat) child parent',
      children parent !! i = Some child →
      dtb_remove_node parent [i] = Done parent' →
      ∃ k, dtb_get_serialised_node_size ht_iter child = Done k
           ∧ 8 ≤ k
           ∧ dtb_get_serialised_node_size ht_iter parent' = Done (n - k))
  ∧ (∀ s node parent',
       dtb_create_node (Some parent) (Some s) = Done (Some node, Some parent') →
       n + 44 + ROUND_UP (wrap32 (Z.of_nat (length s) + 1)) 4 < 2 ^ 64 →
       dtb_get_serialised_node_size ht_iter parent'
       = Done (n + 44 + ROUND_UP (wrap32 (Z.of_nat (length s) + 1)) 4)).
Proof.
  intros Hperm Hn Hsz. destruct (node_size_inv ht_iter Hperm parent n Hn Hsz) as [Hall ->].
  destruct parent as [ps cs]. cbn [props children all_props] in *.
  apply andb_true_iff in Hall as [Hps Hcs].
  pose proof (props_bytes_nonneg (ht_iter ps)) as Hprops.
  split.
  - intros i child parent' Hi. unfold dtb_remove_node. cbn [props children]. rewrite Hi.
    intros [= <-].
    pose proof (children_bytes_delete ht_iter cs i child Hi) as Hdel.
    pose proof (children_bytes_nonneg ht_iter (delete i cs) Hperm) as Hrest.
    pose proof (node_bytes_nonneg ht_iter child) as Hchild.
    cbn [node_bytes] in Hsz.
    assert (all_props size_returns child = true) as Hcall.
    { rewrite forallb_forall in Hcs. apply Hcs. apply list_elem_of_In.
      by eapply list_elem_of_lookup_2. }
    exists (node_bytes ht_iter child).
    split; [apply (node_size_exact ht_iter Hperm); [done|lia]|]. split; [done|].
    rewrite (node_size_exact ht_iter Hperm).
    + f_equal. cbn [node_bytes]. lia.
    + cbn [all_props]. rewrite Hps. cbn [andb]. apply forallb_forall. intros x Hx.
      rewrite forallb_forall in Hcs. apply Hcs. apply list_elem_of_In.
      apply list_elem_of_In in Hx. by eapply list_elem_of_delete_inv.
    + cbn [node_bytes]. lia.
  - intros s node parent' (_ & Hname & [= ->])%dtb_create_node_inv Hfit.
    apply dtb_set_prop_str_name in Hname as ->. cbn [props children].
    set (prop := mkProp _ false _).
    assert (node_bytes ht_iter (mkNode {[ "name"%string := prop ]} [])
            = 44 + ROUND_UP (wrap32 (Z.of_nat (length s) + 1)) 4) as Hnew.
    { cbn [node_bytes foldr]. rewrite (props_bytes_ht_iter ht_iter Hperm).
      rewrite map_to_list_singleton. unfold props_bytes. cbn [foldr snd].
      unfold prop_record_bytes, dtb_get_serialised_prop_size. cbn [prop_placeholder prop].
      rewrite record_bytes_exact. unfold prop. cbn [prop_length]. lia. }
    pose proof (children_bytes_app ht_iter cs [mkNode {[ "name"%string := prop ]} []]) as Happ.
    cbn [foldr] in Happ. rewrite Z.add_0_r in Happ.
    rewrite (node_size_exact ht_iter Hperm).
    + f_equal. cbn [node_bytes]. rewrite Happ, Hnew. lia.
    + cbn [all_props]. rewrite Hps. cbn [andb]. rewrite forallb_app, Hcs. cbn [andb forallb].
      rewrite andb_true_r. cbn [all_props forallb]. rewrite andb_true_r.
      apply bool_decide_eq_true. intros k p [<- <-]%lookup_singleton_Some. done.
    + cbn [node_bytes] in *. rewrite Happ, Hnew. lia.
Qed.

Lemma size_follows_children_witness :
  ∃ k, dtb_get_serialised_node_size map_to_list example_cpu0_fresh = Done k
       ∧ 8 ≤ k
       ∧ dtb_get_serialised_node_size map_to_list
           (mkNode (props example_placeholders) []) = Done (144 - k).
Proof.
  apply (proj1 (size_follows_children map_to_list example_placeholders 144
                  ltac:(intros ps; reflexivity) ltac:(vm_compute; reflexivity)
                  ltac:(vm_compute; reflexivity)) O).
  - reflexivity.
  - reflexivity.
Defined.
